(** * Verification of the ranking core of the finance agent

    Shallow embedding of [agent/tools/ranker.py] ([prefs_from_text_llm],
    [_dirnorm], [rank_from_csv]) and of the export path of [agent/main.py]
    ([_safe_parse_json], [_format_rank_response], [_export_last_csv]).

    Modelling conventions.
    - Numbers of the DataFrame are finite rationals ([Q]); Python floats are
      modelled by exact arithmetic, NaN by [None] (or the cell [CNaN]).
      At the end of the definitions, float64 is modelled with rounding,
      overflow to infinity and NaN ([f64]): for the sector z-score of one
      group, for [_dirnorm] with pandas' int64 and float64 dtypes
      ([_dirnorm64]) and for the weight normalization and scoring loop
      ([score_and_rank64]).
    - A DataFrame is its column list plus its rows; a row is an association
      list from column name to cell.
    - Strings are Rocq [string]s (ASCII text).
    - Exceptions are the [Err] branch of [result]; files written are a list
      of (path, table) pairs threaded through the computation. *)

From Stdlib Require Import QArith Qminmax Qabs Qround Qpower Lqa List String Ascii Bool Lia ZArith.
From Stdlib Require Import Sorting.Permutation Sorting.Sorted.
Import ListNotations.

Open Scope Q_scope.

(** ** Python exceptions and the result / file-system monad *)

Inductive err : Type :=
| ValueError
| RuntimeError
| JSONDecodeError
| AttributeError
| FileNotFoundError.

Inductive result (A : Type) : Type :=
| Ok (a : A)
| Err (e : err).
Arguments Ok {A} a.
Arguments Err {A} e.

Definition bind_r {A B} (m : result A) (k : A -> result B) : result B :=
  match m with Ok a => k a | Err e => Err e end.

Notation "x <- m ;; k" := (bind_r m (fun x => k))
  (at level 61, m at next level, right associativity).

(** ** Comparisons on numbers *)

Definition Qltb (a b : Q) : bool := negb (Qle_bool b a).

(** ** A stable sort (pandas' multi-key [sort_values] and the [mergesort]
    used by [Series.rank] are stable) *)

Section StableSort.
Context {A : Type} (le : A -> A -> bool).

Fixpoint insert_by (x : A) (l : list A) : list A :=
  match l with
  | [] => [x]
  | y :: l' => if le x y then x :: l else y :: insert_by x l'
  end.

Fixpoint sort_by (l : list A) : list A :=
  match l with
  | [] => []
  | x :: l' => insert_by x (sort_by l')
  end.

End StableSort.

(** ** Series statistics as pandas / numpy compute them (NaN skipped) *)

(** The present values of a series ([skipna]). *)
Definition present (s : list (option Q)) : list Q :=
  flat_map (fun o => match o with Some v => [v] | None => [] end) s.

(** [Series.median()]: middle of the sorted present values, mean of the two
    middles for an even count, NaN when nothing is present. *)
Definition median (s : list (option Q)) : option Q :=
  let v := sort_by Qle_bool (present s) in
  let n := List.length v in
  match n with
  | O => None
  | _ =>
    if Nat.even n
    then Some ((nth (n / 2 - 1) v 0 + nth (n / 2) v 0) / 2)
    else Some (nth (n / 2) v 0)
  end.

(** [np.nanmin] / [np.nanmax]: NaN (None) when every entry is NaN. *)
Definition nanmin (s : list (option Q)) : option Q :=
  match present s with
  | [] => None
  | v :: vs => Some (fold_left Qmin vs v)
  end.

Definition nanmax (s : list (option Q)) : option Q :=
  match present s with
  | [] => None
  | v :: vs => Some (fold_left Qmax vs v)
  end.

(** ** Decimal literals

    [scan_digits] reads a maximal run of decimal digits. [dec_to_Q m e] is
    [m * 10^e]. *)

Definition digit_val (c : ascii) : option Z :=
  let n := nat_of_ascii c in
  if (48 <=? n)%nat && (n <=? 57)%nat then Some (Z.of_nat (n - 48)) else None.

Fixpoint scan_digits (s : list ascii) : list Z * list ascii :=
  match s with
  | c :: s' =>
    match digit_val c with
    | Some d => let '(ds, r) := scan_digits s' in (d :: ds, r)
    | None => ([], s)
    end
  | [] => ([], [])
  end.

Definition digits_value (ds : list Z) : Z :=
  fold_left (fun acc d => (acc * 10 + d)%Z) ds 0%Z.

Definition dec_to_Q (m e : Z) : Q :=
  if (0 <=? e)%Z then inject_Z (m * 10 ^ e) else Qmake m (Z.to_pos (10 ^ (- e))).

(** Exponent part [([eE][+-]?[0-9]+)?]; [None] when an [e] is not followed
    by digits. *)
Definition scan_exponent (s : list ascii) : option (Z * list ascii) :=
  match s with
  | c :: s' =>
    if (c =? "e")%char || (c =? "E")%char then
      let '(sg, s'') :=
        match s' with
        | "-"%char :: r => ((-1)%Z, r)
        | "+"%char :: r => (1%Z, r)
        | _ => (1%Z, s')
        end in
      match scan_digits s'' with
      | ([], _) => None
      | (ds, r) => Some ((sg * digits_value ds)%Z, r)
      end
    else Some (0%Z, s)
  | [] => Some (0%Z, [])
  end.

Definition is_py_space (c : ascii) : bool :=
  match nat_of_ascii c with
  | 32 | 9 | 10 | 11 | 12 | 13 => true
  | _ => false
  end%nat.

Fixpoint drop_space (s : list ascii) : list ascii :=
  match s with
  | c :: s' => if is_py_space c then drop_space s' else s
  | [] => []
  end.

(** Python's [float(str)] (also [pd.to_numeric] on a string): surrounding
    white space, an optional sign, digits with an optional point (at least
    one digit), an optional exponent. The spellings [inf], [nan] and digit
    groups with [_] are outside the model (they are not finite decimals). *)
Definition py_float_of_chars (s : list ascii) : option Q :=
  let s := drop_space s in
  let '(sg, s) :=
    match s with
    | "-"%char :: r => ((-1)%Z, r)
    | "+"%char :: r => (1%Z, r)
    | _ => (1%Z, s)
    end in
  let '(ip, s) := scan_digits s in
  let '(fp, s) :=
    match s with
    | "."%char :: r => scan_digits r
    | _ => ([], s)
    end in
  match ip ++ fp with
  | [] => None
  | ds =>
    match scan_exponent s with
    | Some (e, r) =>
      match drop_space r with
      | [] => Some (dec_to_Q (sg * digits_value ds) (e - Z.of_nat (List.length fp)))
      | _ => None
      end
    | None => None
    end
  end.

Definition py_float_of_string (s : string) : option Q :=
  py_float_of_chars (list_ascii_of_string s).

(** ** Cells and DataFrames *)

Inductive cell : Type :=
| CNum (q : Q)        (* float64 entry *)
| CInt (z : Z)        (* int64 entry *)
| CStr (s : string)   (* object entry *)
| CNaN.               (* missing entry *)

(** [pd.to_numeric(errors="coerce")] on one entry. *)
Definition to_numeric (c : cell) : option Q :=
  match c with
  | CNum q => Some q
  | CInt z => Some (inject_Z z)
  | CStr s => py_float_of_string s
  | CNaN => None
  end.

Definition cell_of_opt (o : option Q) : cell :=
  match o with Some q => CNum q | None => CNaN end.

(** ** [_dirnorm] (ranker.py lines 85-92) *)

(** [series] is the column as given; the result is [Err ValueError] where
    [np.nanmin] is applied to a zero-size array. *)
Definition _dirnorm (series : list cell) (direction : string) : result (list (option Q)) :=
  let s := map to_numeric series in
  let med := median s in
  let s := map (fun o => match o with Some v => Some v | None => med end) s in
  let x := if String.eqb direction "negative" then map (option_map Qopp) s else s in
  match x with
  | [] => Err ValueError
  | _ =>
    match nanmin x, nanmax x with
    | Some lo, Some hi =>
      if Qeq_bool hi lo then Ok (map (fun _ => Some (1 # 2)) series)
      else Ok (map (option_map (fun v => (v - lo) / (hi - lo))) x)
    | _, _ => Ok (map (fun _ => Some (1 # 2)) series)
    end
  end.

(** ** [Series.rank(ascending=False, method="min")] (ranker.py line 138)

    As pandas' [rank_1d]: a stable argsort of the values in descending
    order, then a walk over the sorted values in which every run of equal
    values receives the position of its first element plus one; the ranks
    are scattered back to the original positions. *)

Definition desc_le (a b : nat * Q) : bool := Qle_bool (snd b) (snd a).

Fixpoint assign_min_ranks (pos start : nat) (prev : option Q)
         (l : list (nat * Q)) : list (nat * Z) :=
  match l with
  | [] => []
  | (i, q) :: l' =>
    let start' :=
      match prev with
      | Some p => if Qeq_bool p q then start else pos
      | None => pos
      end in
    (i, Z.of_nat start' + 1)%Z :: assign_min_ranks (S pos) start' (Some q) l'
  end.

Definition lookup_rank (ranked : list (nat * Z)) (i : nat) : Z :=
  match find (fun e => Nat.eqb (fst e) i) ranked with
  | Some (_, r) => r
  | None => 0%Z
  end.

Definition rank_min_desc (vals : list Q) : list Z :=
  let n := List.length vals in
  let srt := sort_by desc_le (combine (seq 0 n) vals) in
  let ranked := assign_min_ranks 0 0 None srt in
  map (lookup_rank ranked) (seq 0 n).

(** The number of entries strictly greater than [q]. *)
Definition count_gt (q : Q) (l : list Q) : nat :=
  List.length (filter (fun y => Qltb q y) l).

(** ** DataFrames *)

Definition row := list (string * cell).

Record DataFrame : Type := mkDF { columns : list string; rows : list row }.

Definition lookup (c : string) (r : row) : option cell :=
  match find (fun kv => String.eqb (fst kv) c) r with
  | Some (_, v) => Some v
  | None => None
  end.

Definition get (c : string) (r : row) : cell :=
  match lookup c r with Some v => v | None => CNaN end.

Definition has_col (c : string) (df : DataFrame) : bool :=
  existsb (String.eqb c) (columns df).

(** [df[c]] *)
Definition get_col (c : string) (df : DataFrame) : list cell :=
  map (get c) (rows df).

Fixpoint assoc_set (c : string) (v : cell) (r : row) : row :=
  match r with
  | [] => [(c, v)]
  | (k, w) :: r' => if String.eqb k c then (k, v) :: r' else (k, w) :: assoc_set c v r'
  end.

(** [df[c] = values] (a new column goes last). *)
Definition set_col (c : string) (vals : list cell) (df : DataFrame) : DataFrame :=
  mkDF (if has_col c df then columns df else columns df ++ [c])
       (map (fun rv => assoc_set c (snd rv) (fst rv)) (combine (rows df) vals)).

(** [df[cols]] *)
Definition project_row (cols : list string) (r : row) : row :=
  map (fun c => (c, get c r)) cols.

Definition project (cols : list string) (df : DataFrame) : DataFrame :=
  mkDF cols (map (project_row cols) (rows df)).

(** [df.head(n)] *)
Definition head (n : nat) (df : DataFrame) : DataFrame :=
  mkDF (columns df) (firstn n (rows df)).

(** [df.sort_values(keys)] with ascending keys and NaN last; pandas sorts
    on several keys with a stable lexicographic sort. *)
Fixpoint lex_le (ks : list string) (a b : row) : bool :=
  match ks with
  | [] => true
  | k :: ks' =>
    match to_numeric (get k a), to_numeric (get k b) with
    | Some x, Some y =>
      if Qltb x y then true else if Qltb y x then false else lex_le ks' a b
    | Some _, None => true
    | None, Some _ => false
    | None, None => lex_le ks' a b
    end
  end.

Definition sort_values (ks : list string) (df : DataFrame) : DataFrame :=
  mkDF (columns df) (sort_by (lex_le ks) (rows df)).

(** ** Preference specs *)

Record pref_cfg : Type := mkCfg { weight : Q; direction : string }.

(** A Python dict [{col: {"weight": w, "direction": d}}], in insertion
    order, one entry per key. *)
Definition prefs := list (string * pref_cfg).

Definition sum_Q (l : list Q) : Q := fold_left Qplus l 0.

(** ranker.py lines 106-109: [total_w = sum(weights) or 1.0], then every
    weight is divided by [total_w]. *)
Definition total_w (p : prefs) : Q :=
  let t := sum_Q (map (fun kv => weight (snd kv)) p) in
  if Qeq_bool t 0 then 1 else t.

Definition normalize_weights (p : prefs) : prefs :=
  let t := total_w p in
  map (fun kv => (fst kv, mkCfg (weight (snd kv) / t) (direction (snd kv)))) p.

(** ** Sector neutralization (ranker.py lines 113-123) *)

(** Group-key equality of [groupby]; NaN keys form no group. *)
Definition key_eqb (a b : cell) : bool :=
  match a, b with
  | CStr s, CStr t => String.eqb s t
  | CNum x, CNum y => Qeq_bool x y
  | CInt x, CInt y => Z.eqb x y
  | CNum x, CInt y | CInt y, CNum x => Qeq_bool x (inject_Z y)
  | _, _ => false
  end.

(** [s.mean()] and [s.std(ddof=0)] of pandas, NaN skipped; the square root
    is the parameter [qsqrt] of the section below. *)
Definition mean (g : list Q) : option Q :=
  match g with
  | [] => None
  | _ => Some (sum_Q g / inject_Z (Z.of_nat (List.length g)))
  end.

Definition pvar (g : list Q) (m : Q) : Q :=
  sum_Q (map (fun v => (m - v) * (m - v)) g) / inject_Z (Z.of_nat (List.length g)).

Section Neutralize.

Variable qsqrt : Q -> Q.

(** [s.std(ddof=0) or 1.0] *)
Definition std_or_one (g : list Q) (m : Q) : Q :=
  let sd := qsqrt (pvar g m) in
  if Qeq_bool sd 0 then 1 else sd.

(** The present values of the group that [key] names. *)
Definition group_values (key : cell) (sectors : list cell) (vals : list (option Q)) : list Q :=
  present (map snd (filter (fun kv => key_eqb key (fst kv)) (combine sectors vals))).

(** [work.groupby("sector")[col].transform(lambda s: (s - s.mean()) / (s.std(ddof=0) or 1.0))] *)
Definition sector_z (sectors : list cell) (col : list cell) : list (option Q) :=
  let vals := map to_numeric col in
  map (fun kv =>
         let '(key, v) := kv in
         match key with
         | CNaN => None
         | _ =>
           let g := group_values key sectors vals in
           match v, mean g with
           | Some x, Some m => Some ((x - m) / std_or_one g m)
           | _, _ => None
           end
         end)
      (combine sectors vals).

Definition zcol_name (col : string) : string := (col ++ "__sector_z")%string.

(** Lines 114-123: the working table with the [__sector_z] columns and
    [mapped] (an association list read by [lookup_mapped]). *)
Definition neutralize_step (acc : DataFrame * list (string * string)) (kv : string * pref_cfg)
  : DataFrame * list (string * string) :=
  let '(w, m) := acc in
  let col := fst kv in
  if has_col col w then
    let z := sector_z (get_col "sector" w) (get_col col w) in
    (set_col (zcol_name col) (map cell_of_opt z) w, m ++ [(col, zcol_name col)])
  else (w, m).

(** [mapped.setdefault(col, col)] *)
Definition setdefault_step (m : list (string * string)) (kv : string * pref_cfg)
  : list (string * string) :=
  if existsb (fun e => String.eqb (fst e) (fst kv)) m then m
  else m ++ [(fst kv, fst kv)].

Definition neutralize (sector_neutral : bool) (p : prefs) (work : DataFrame)
  : DataFrame * list (string * string) :=
  let '(work, mapped) :=
    if sector_neutral && has_col "sector" work
    then fold_left neutralize_step p (work, [])
    else (work, []) in
  (work, fold_left setdefault_step p mapped).

End Neutralize.

Definition lookup_mapped (mapped : list (string * string)) (col : string) : string :=
  match find (fun e => String.eqb (fst e) col) mapped with
  | Some (_, s) => s
  | None => col
  end.

(** ** Scoring loop, rank and ordering (ranker.py lines 125-143) *)

Definition opt_add (a b : option Q) : option Q :=
  match a, b with Some x, Some y => Some (x + y) | _, _ => None end.

Definition scale (w : Q) (s : list (option Q)) : list (option Q) :=
  map (option_map (fun c => c * w)) s.

(** State of the loop: the working table, [comp_cols], [total]. *)
Record loop_state : Type :=
  mkLS { ls_work : DataFrame; ls_comp_cols : list string; ls_total : option (list (option Q)) }.

Definition score_step (mapped : list (string * string)) (st : loop_state)
           (kv : string * pref_cfg) : result loop_state :=
  let '(col, cfg) := kv in
  let src := lookup_mapped mapped col in
  if negb (has_col src (ls_work st)) then Ok st
  else
    comp <- _dirnorm (get_col src (ls_work st)) (direction cfg) ;;
    let cname := ("score__" ++ col)%string in
    let work := set_col cname (map cell_of_opt comp) (ls_work st) in
    let total :=
      match ls_total st with
      | None => scale (weight cfg) comp
      | Some t => map (fun ab => opt_add (fst ab) (snd ab)) (combine t (scale (weight cfg) comp))
      end in
    Ok (mkLS work (ls_comp_cols st ++ [cname]) (Some total)).

Fixpoint score_loop (mapped : list (string * string)) (st : loop_state)
         (p : prefs) : result loop_state :=
  match p with
  | [] => Ok st
  | kv :: p' => st' <- score_step mapped st kv ;; score_loop mapped st' p'
  end.

(** [series.rank(...).astype(int)]: a NaN score makes the cast raise. *)
Definition all_numeric (s : list cell) : option (list Q) :=
  fold_right (fun c acc =>
                match to_numeric c, acc with
                | Some q, Some l => Some (q :: l)
                | _, _ => None
                end) (Some []) s.

(** Lines 137-138: the [score_total] and [rank] columns. *)
Definition set_score_and_rank (total : option (list (option Q))) (work : DataFrame)
  : result DataFrame :=
  let work :=
    set_col "score_total"
            (match total with
             | Some t => map cell_of_opt t
             | None => map (fun _ => CNum 0) (rows work)
             end) work in
  match all_numeric (get_col "score_total" work) with
  | Some v => Ok (set_col "rank" (map CInt (rank_min_desc v)) work)
  | None => Err ValueError
  end.

(** Lines 140-143: sort, then put the front columns first. *)
Definition front_cols (comp_cols : list string) (work : DataFrame) : list string :=
  filter (fun c => has_col c work)
         (["rank"; "ticker"; "name"]%string
          ++ (if has_col "sector" work then ["sector"%string] else [])
          ++ ["score_total"%string] ++ comp_cols)%list.

Definition order_table (comp_cols : list string) (work : DataFrame) : DataFrame :=
  let front := front_cols comp_cols work in
  let ordered := sort_values ["rank"; "score_total"]%string work in
  project (front ++ filter (fun c => negb (existsb (String.eqb c) front)) (columns ordered))
          ordered.

(** Lines 106-143 for a resolved spec: the full ordered table. *)
Definition score_and_rank (qsqrt : Q -> Q) (df : DataFrame) (p0 : prefs)
           (sector_neutral : bool) : result (DataFrame * prefs) :=
  let p := normalize_weights p0 in
  let '(work, mapped) := neutralize qsqrt sector_neutral p df in
  st <- score_loop mapped (mkLS work [] None) p ;;
  work <- set_score_and_rank (ls_total st) (ls_work st) ;;
  Ok (order_table (ls_comp_cols st) work, p).

(** ** JSON text ([json.loads]) *)

#[warnings="-register-all"]
Inductive json : Type :=
| JNull
| JBool (b : bool)
| JNum (q : Q)
| JStr (s : string)
| JArr (l : list json)
| JObj (kvs : list (string * json)).

(** A Python dict built from key/value pairs: a repeated key keeps its first
    position and takes the last value. *)
Definition dict_set {V : Type} (k : string) (v : V) (d : list (string * V)) : list (string * V) :=
  if existsb (fun e => String.eqb (fst e) k) d
  then map (fun e => if String.eqb (fst e) k then (k, v) else e) d
  else d ++ [(k, v)].

Definition dict_of_pairs {V : Type} (kvs : list (string * V)) : list (string * V) :=
  fold_left (fun d kv => dict_set (fst kv) (snd kv) d) kvs [].

Definition dict_get {V : Type} (k : string) (d : list (string * V)) : option V :=
  match find (fun e => String.eqb (fst e) k) d with
  | Some (_, v) => Some v
  | None => None
  end.

Definition json_ws (c : ascii) : bool :=
  match nat_of_ascii c with 32 | 9 | 10 | 13 => true | _ => false end%nat.

Fixpoint skip_ws (s : list ascii) : list ascii :=
  match s with
  | c :: s' => if json_ws c then skip_ws s' else s
  | [] => []
  end.

Definition hex_val (c : ascii) : option nat :=
  let n := nat_of_ascii c in
  (if (48 <=? n) && (n <=? 57) then Some (n - 48)
  else if (97 <=? n) && (n <=? 102) then Some (n - 87)
  else if (65 <=? n) && (n <=? 70) then Some (n - 55)
  else None)%nat.

(** The body of a string literal after its opening quote. Escapes [\uXXXX]
    outside ASCII are outside the model (rejected). Raw control characters
    are rejected, as by [json.loads] (strict mode). *)
Fixpoint p_str (s : list ascii) (acc : list ascii) : option (string * list ascii) :=
  match s with
  | [] => None
  | c :: r =>
    if (c =? "034")%char then Some (string_of_list_ascii (rev acc), r)
    else if (c =? "\")%char then
      match r with
      | e :: r' =>
        match nat_of_ascii e with
        | 34 | 92 | 47 => p_str r' (e :: acc)
        | 98 => p_str r' (ascii_of_nat 8 :: acc)
        | 102 => p_str r' (ascii_of_nat 12 :: acc)
        | 110 => p_str r' (ascii_of_nat 10 :: acc)
        | 114 => p_str r' (ascii_of_nat 13 :: acc)
        | 116 => p_str r' (ascii_of_nat 9 :: acc)
        | 117 =>
          match r' with
          | h1 :: h2 :: h3 :: h4 :: r'' =>
            match hex_val h1, hex_val h2, hex_val h3, hex_val h4 with
            | Some a, Some b, Some c', Some d =>
              let code := ((a * 16 + b) * 16 + c') * 16 + d in
              if code <? 128 then p_str r'' (ascii_of_nat code :: acc) else None
            | _, _, _, _ => None
            end
          | _ => None
          end
        | _ => None
        end%nat
      | [] => None
      end
    else if (nat_of_ascii c <? 32)%nat then None
    else p_str r (c :: acc)
  end.

(** A JSON number: an optional minus, [0] or a digit run not starting with
    [0], an optional point with digits, an optional exponent; an
    incomplete fraction or exponent is left unread, so the caller fails on
    it as [json.loads] does. *)
Definition p_num (s : list ascii) : option (Q * list ascii) :=
  let '(sg, s) := match s with "-"%char :: r => ((-1)%Z, r) | _ => (1%Z, s) end in
  let '(ip, s) :=
    match s with
    | "0"%char :: r => ([0%Z], r)
    | _ => scan_digits s
    end in
  match ip with
  | [] => None
  | _ =>
    let '(fp, s) :=
      match s with
      | "."%char :: r =>
        match scan_digits r with
        | ([], _) => ([], s)
        | (ds, r') => (ds, r')
        end
      | _ => ([], s)
      end in
    let '(e, s) := match scan_exponent s with Some er => er | None => (0%Z, s) end in
    Some (dec_to_Q (sg * digits_value (ip ++ fp)) (e - Z.of_nat (List.length fp)), s)
  end.

Fixpoint p_value (fuel : nat) (s : list ascii) : option (json * list ascii) :=
  match fuel with
  | O => None
  | S f =>
    match skip_ws s with
    | "{"%char :: r =>
      match skip_ws r with
      | "}"%char :: r' => Some (JObj [], r')
      | _ => option_map (fun p => (JObj (dict_of_pairs (fst p)), snd p)) (p_members f r)
      end
    | "["%char :: r =>
      match skip_ws r with
      | "]"%char :: r' => Some (JArr [], r')
      | _ => option_map (fun p => (JArr (fst p), snd p)) (p_elements f r)
      end
    | "034"%char :: r => option_map (fun p => (JStr (fst p), snd p)) (p_str r [])
    | "n"%char :: "u"%char :: "l"%char :: "l"%char :: r => Some (JNull, r)
    | "t"%char :: "r"%char :: "u"%char :: "e"%char :: r => Some (JBool true, r)
    | "f"%char :: "a"%char :: "l"%char :: "s"%char :: "e"%char :: r => Some (JBool false, r)
    | s' => option_map (fun p => (JNum (fst p), snd p)) (p_num s')
    end
  end
with p_members (fuel : nat) (s : list ascii) : option (list (string * json) * list ascii) :=
  match fuel with
  | O => None
  | S f =>
    match skip_ws s with
    | "034"%char :: r =>
      match p_str r [] with
      | Some (k, r1) =>
        match skip_ws r1 with
        | ":"%char :: r2 =>
          match p_value f r2 with
          | Some (v, r3) =>
            match skip_ws r3 with
            | ","%char :: r4 =>
              option_map (fun p => ((k, v) :: fst p, snd p)) (p_members f r4)
            | "}"%char :: r4 => Some ([(k, v)], r4)
            | _ => None
            end
          | None => None
          end
        | _ => None
        end
      | None => None
      end
    | _ => None
    end
  end
with p_elements (fuel : nat) (s : list ascii) : option (list json * list ascii) :=
  match fuel with
  | O => None
  | S f =>
    match p_value f s with
    | Some (v, r) =>
      match skip_ws r with
      | ","%char :: r' => option_map (fun p => (v :: fst p, snd p)) (p_elements f r')
      | "]"%char :: r' => Some ([v], r')
      | _ => None
      end
    | None => None
    end
  end.

(** [json.loads(s)]: one value, white space around it, nothing else (every
    nested call reads at least one character, so [length + 1] steps
    suffice). The literals [NaN] and [Infinity] are outside the model. *)
Definition json_loads (s : string) : result json :=
  let cs := list_ascii_of_string s in
  match p_value (S (List.length cs)) cs with
  | Some (v, r) => match skip_ws r with [] => Ok v | _ => Err JSONDecodeError end
  | None => Err JSONDecodeError
  end.

(** ** [prefs_from_text_llm] (ranker.py lines 13-82) *)

Definition ID_COLS : list string := ["ticker"; "name"; "sector"]%string.

(** [pd.api.types.is_numeric_dtype] of a column that [read_csv] produced:
    numbers and missing entries only; a table without data rows has
    [object] columns. *)
Definition numeric_cell (c : cell) : bool :=
  match c with CNum _ | CInt _ | CNaN => true | CStr _ => false end.

Definition is_numeric_col (df : DataFrame) (c : string) : bool :=
  match rows df with
  | [] => false
  | _ => forallb numeric_cell (get_col c df)
  end.

Definition numeric_cols (df : DataFrame) : list string :=
  filter (fun c => negb (existsb (String.eqb c) ID_COLS) && is_numeric_col df c) (columns df).

(** [str(v).lower()] compared with the two directions: only a JSON string
    can print as ["positive"] or ["negative"]. *)
Definition ascii_lower (c : ascii) : ascii :=
  let n := nat_of_ascii c in
  if ((65 <=? n) && (n <=? 90))%nat then ascii_of_nat (n + 32) else c.

Definition str_lower (s : string) : string :=
  string_of_list_ascii (map ascii_lower (list_ascii_of_string s)).

Definition sanitize_direction (v : option json) : string :=
  let d := match v with
           | None => "positive"%string
           | Some (JStr s) => str_lower s
           | Some _ => EmptyString
           end in
  if String.eqb d "positive" || String.eqb d "negative" then d else "positive"%string.

(** [float(cfg.get("weight", 0.0))], [0.0] when [float] raises. *)
Definition sanitize_weight (v : option json) : Q :=
  match v with
  | None => 0
  | Some (JNum q) => q
  | Some (JBool true) => 1
  | Some (JBool false) => 0
  | Some (JStr s) => match py_float_of_string s with Some q => q | None => 0 end
  | Some _ => 0
  end.

(** Lines 70-82, from the parsed response. *)
Definition sanitize (allowed : list string) (data : json) : result prefs :=
  let p := match data with
           | JObj kvs => match dict_get "preferences" kvs with Some v => v | None => JObj [] end
           | _ => JObj []
           end in
  match p with
  | JObj kvs =>
    Ok (fold_left (fun clean kv =>
                     let '(col, cfg) := kv in
                     match cfg with
                     | JObj c =>
                       if existsb (String.eqb col) allowed then
                         dict_set col (mkCfg (Qmax 0 (sanitize_weight (dict_get "weight" c)))
                                             (sanitize_direction (dict_get "direction" c))) clean
                       else clean
                     | _ => clean
                     end) kvs [])
  | _ => Err AttributeError   (* [prefs.items()] on a non-dict *)
  end.

(** The oracle call is an input: [resp] is the content of the reply or the
    exception the client raised. *)
Definition prefs_from_text_llm (api_key_set : bool) (resp : result string)
           (df : DataFrame) : result prefs :=
  if negb api_key_set then Err RuntimeError
  else
    text <- resp ;;
    data <- json_loads text ;;
    sanitize (numeric_cols df) data.

(** ** [rank_from_csv] (ranker.py lines 94-148) *)

(** Files written so far: path and table. [to_csv] replaces a file. *)
Definition files := list (string * DataFrame).

Definition to_csv (path : string) (df : DataFrame) (fs : files) : files :=
  (path, df) :: filter (fun e => negb (String.eqb (fst e) path)) fs.

Definition read_file (path : string) (fs : files) : option DataFrame :=
  dict_get path fs.

(** [df] is the table that [pd.read_csv(csv_path)] returned. *)
Definition rank_from_csv (qsqrt : Q -> Q) (df : DataFrame) (api_key_set : bool)
           (resp : result string) (top_n : nat) (sector_neutral : bool)
           (out_path : option string) (fs : files) : result (DataFrame * prefs) * files :=
  if negb (has_col "ticker" df && has_col "name" df) then (Err ValueError, fs)
  else
    match prefs_from_text_llm api_key_set resp df with
    | Err e => (Err e, fs)
    | Ok [] => (Err RuntimeError, fs)
    | Ok p =>
      match score_and_rank qsqrt df p sector_neutral with
      | Err e => (Err e, fs)
      | Ok (ordered, p') =>
        (* [if out_path:]: no path, or the empty path, writes nothing *)
        let fs' := match out_path with
                   | Some path => if String.eqb path EmptyString then fs else to_csv path ordered fs
                   | None => fs
                   end in
        (Ok (head top_n ordered, p'), fs')
      end
    end.

(** ** [_safe_parse_json] (main.py lines 49-55) *)

Definition py_strip (s : string) : string :=
  string_of_list_ascii (rev (drop_space (rev (drop_space (list_ascii_of_string s))))).

Definition ascii_letter (c : ascii) : bool :=
  let n := nat_of_ascii c in ((65 <=? n) && (n <=? 90)) || ((97 <=? n) && (n <=? 122)).

(** The suffix that starts at the first occurrence of [c]. *)
Fixpoint from_char (c : ascii) (s : list ascii) : option (list ascii) :=
  match s with
  | [] => None
  | d :: r => if (d =? c)%char then Some s else from_char c r
  end.

(** [re.search(r"\{.*\}", s, flags=re.S)]: the greedy match runs from the
    first [{] to the last [}] after it. *)
Definition regex_object (s : string) : option string :=
  match from_char "{" (list_ascii_of_string s) with
  | Some (b :: r) =>
    match from_char "}" (rev r) with
    | Some (e :: mid_rev) => Some (string_of_list_ascii (b :: rev mid_rev ++ [e]))
    | _ => None
    end
  | _ => None
  end.

Definition _safe_parse_json (s : string) : result json :=
  match json_loads (py_strip s) with
  | Ok v => Ok v
  | Err _ =>
    match regex_object s with
    | Some m => json_loads m
    | None => Ok (JObj [])
    end
  end.

(** ** Display and export in the shell (main.py lines 94-149, 159-180) *)

Fixpoint digits_of_nat (fuel n : nat) (acc : list ascii) : list ascii :=
  match fuel with
  | O => acc
  | S f =>
    let acc := ascii_of_nat (48 + n mod 10) :: acc in
    if (n <? 10)%nat then acc else digits_of_nat f (n / 10) acc
  end.

(** [str(n)] *)
Definition string_of_nat (n : nat) : string :=
  string_of_list_ascii (digits_of_nat (S n) n []).

Definition display_cols (df : DataFrame) : list string :=
  filter (fun c => has_col c df) ["rank"; "ticker"; "name"; "sector"; "score_total"]%string.

(** [ranked_df.head(top_n)[cols]], the table [_format_rank_response] shows. *)
Definition shown_view (ranked : DataFrame) (top_n : nat) : DataFrame :=
  project (display_cols ranked) (head top_n ranked).

(** The value [handle_input] stores in [_LAST_SPEC]:
    [spec.get("preferences", spec)]. [spec] is the sanitized spec, so this
    is [spec] itself ([SSpec]) unless a column named [preferences] was
    chosen; then it is that column's entry [{"weight": w, "direction": d}]
    ([SCfg]). *)
Inductive stored_spec : Type :=
| SSpec (p : prefs)
| SCfg (c : pref_cfg).

Definition stored_of (spec : prefs) : stored_spec :=
  match dict_get "preferences" spec with Some c => SCfg c | None => SSpec spec end.

(** The module globals [_LAST_RANKED], [_LAST_SPEC], [_LAST_TOPN]. *)
Record shell_state : Type :=
  mkShell { last_ranked : option DataFrame; last_spec : option stored_spec; last_topn : option nat }.

(** [os.makedirs(d, exist_ok=True)]: the empty path raises
    [FileNotFoundError]. Directories are not part of the file model: any
    other path is taken to exist or to be creatable. *)
Definition os_makedirs (d : string) : result unit :=
  if String.eqb d EmptyString then Err FileNotFoundError else Ok tt.

Definition ends_with_sep (s : string) : bool :=
  match rev (list_ascii_of_string s) with "/"%char :: _ => true | _ => false end.

(** [os.path.join(a, b)] (posixpath): an absolute [b] replaces [a]; no
    separator is added after an empty [a] or one that ends in [/]. *)
Definition py_path_join (a b : string) : string :=
  match list_ascii_of_string b with
  | "/"%char :: _ => b
  | _ => if String.eqb a EmptyString || ends_with_sep a then (a ++ b)%string else (a ++ "/" ++ b)%string
  end.

Section ShellExport.

(** [EXPORT_DIR] and the file-name slug [_criteria_slug(spec)]; the export
    below holds for any directory and any slug. *)
Variable EXPORT_DIR : string.
Variable _criteria_slug : prefs -> string.

(** [_export_last_csv()]: the message (or the exception raised) and the
    files afterwards. With a stored [SCfg], [_criteria_slug] meets the
    float [w] as the first [cfg] of its loop and [w.get] raises
    [AttributeError]. *)
Definition _export_last_csv (st : shell_state) (fs : files) : result string * files :=
  match last_ranked st, last_spec st, last_topn st with
  | Some ranked, Some spec, Some topn =>
    let view := project (display_cols ranked) (head topn ranked) in
    match os_makedirs EXPORT_DIR with
    | Err e => (Err e, fs)
    | Ok _ =>
      match spec with
      | SCfg _ => (Err AttributeError, fs)
      | SSpec spec =>
        let top_count := Nat.min topn (List.length (rows view)) in
        let filename := ("top" ++ string_of_nat top_count ++ "_" ++ _criteria_slug spec ++ ".csv")%string in
        let out_path := py_path_join EXPORT_DIR filename in
        (Ok ("Saved CSV: " ++ out_path)%string, to_csv out_path view fs)
      end
    end
  | _, _, _ => (Ok "I don't have a recent ranking to export."%string, fs)
  end.

End ShellExport.

(** The ranking branch of [handle_input]: rank the S&P table with
    [top_n = max(TOP_N_DEFAULT, 100)], no [out_path], and remember the
    result; the shown table is [shown_view ranked TOP_N_DEFAULT]. *)
Definition handle_list_request (qsqrt : Q -> Q) (df : DataFrame) (api_key_set : bool)
           (resp : result string) (TOP_N_DEFAULT : nat) (st : shell_state) (fs : files)
  : result DataFrame * shell_state * files :=
  match rank_from_csv qsqrt df api_key_set resp (Nat.max TOP_N_DEFAULT 100) true None fs with
  | (Ok (ranked, spec), fs') =>
    (Ok (shown_view ranked TOP_N_DEFAULT), mkShell (Some ranked) (Some (stored_of spec)) (Some TOP_N_DEFAULT), fs')
  | (Err e, fs') => (Err e, st, fs')
  end.

(** ** [_criteria_slug] (main.py lines 79-92) *)

(** The short direction tag of one spec entry. *)
Definition dir_short (d : string) : string :=
  let d := str_lower d in
  if existsb (String.eqb d) ["higher"; "high"; "positive"; "pos"]%string then "pos"%string
  else if existsb (String.eqb d) ["lower"; "low"; "negative"; "neg"]%string then "neg"%string
  else "dir"%string.

(** The characters of the class [A-Za-z0-9_.-]. *)
Definition slug_char (c : ascii) : bool :=
  let n := nat_of_ascii c in
  ((65 <=? n) && (n <=? 90)) || ((97 <=? n) && (n <=? 122)) || ((48 <=? n) && (n <=? 57))
  || (n =? 95) || (n =? 46) || (n =? 45).

(** [re.sub(r"[^A-Za-z0-9_.-]+", "-", s)]: each maximal run of other
    characters becomes one [-]; [in_run] says that the previous character
    belonged to such a run. *)
Fixpoint sub_unsafe_runs (in_run : bool) (s : list ascii) : list ascii :=
  match s with
  | [] => []
  | c :: r =>
    if slug_char c then c :: sub_unsafe_runs false r
    else if in_run then sub_unsafe_runs true r
    else "-"%char :: sub_unsafe_runs true r
  end.

Definition _criteria_slug (spec : prefs) (max_len : nat) : string :=
  let parts := map (fun kv => (fst kv ++ "-" ++ dir_short (direction (snd kv)))%string) spec in
  let slug := String.concat "_" parts in
  let slug := if String.eqb slug EmptyString then "criteria"%string else slug in
  string_of_list_ascii (firstn max_len (sub_unsafe_runs false (list_ascii_of_string slug))).

(** ** Word search with [re.IGNORECASE] (main.py lines 72-77, 151-157)

    [re.search(r"\b(w1|w2|...)\b", text, re.I)] over ASCII text: [\w] is a
    letter, a digit or [_]; [\b] holds where exactly one side is a word
    character (the ends of the text count as non-word). *)
Definition is_word_char (c : ascii) : bool :=
  let n := nat_of_ascii c in
  ((65 <=? n) && (n <=? 90)) || ((97 <=? n) && (n <=? 122)) || ((48 <=? n) && (n <=? 57))
  || (n =? 95).

Definition word_at (o : option ascii) : bool :=
  match o with Some c => is_word_char c | None => false end.

Definition word_boundary (prev next : option ascii) : bool :=
  xorb (word_at prev) (word_at next).

(** The literal [w] at the front of [s], letter case ignored: the rest of
    [s] after it. *)
Fixpoint ci_prefix (w s : list ascii) : option (list ascii) :=
  match w, s with
  | [], _ => Some s
  | a :: w', c :: s' => if (ascii_lower a =? ascii_lower c)%char then ci_prefix w' s' else None
  | _ :: _, [] => None
  end.

Definition last_char (l : list ascii) (d : option ascii) : option ascii :=
  fold_left (fun _ c => Some c) l d.

(** [\b w \b] at the front of [s]; [prev] is the character before [s]. *)
Definition match_word_at (prev : option ascii) (w s : list ascii) : bool :=
  word_boundary prev (hd_error s) &&
  match ci_prefix w s with
  | Some rest => word_boundary (last_char (firstn (List.length w) s) prev) (hd_error rest)
  | None => false
  end.

(** The search tries every start position, the end of the text included. *)
Fixpoint re_search_words (words : list string) (prev : option ascii) (s : list ascii) : bool :=
  existsb (fun w => match_word_at prev (list_ascii_of_string w) s) words ||
  match s with
  | [] => false
  | c :: r => re_search_words words (Some c) r
  end.

Definition AFFIRM_WORDS : list string :=
  ["yes"; "yep"; "yeah"; "y"; "sure"; "ok"; "okay"; "pls"; "please"; "do it"; "go ahead";
   "sounds good"; "create it"; "make it"; "csv"]%string.

Definition is_affirmative (text : string) : bool :=
  re_search_words AFFIRM_WORDS None (list_ascii_of_string text).

(** Python's [str] patterns use Unicode [\w] and Unicode case folding; on
    text whose characters are all below 128 they agree with the ASCII
    definitions above. *)
Definition ascii_text (s : string) : bool :=
  forallb (fun c => Nat.ltb (nat_of_ascii c) 128) (list_ascii_of_string s).

Definition FINANCE_KEYWORDS : list string :=
  ["stock"; "stocks"; "company"; "companies"; "ticker"; "equity"; "share"; "market"; "index";
   "indices"; "beta"; "alpha"; "volatility"; "esg"; "risk"; "finance"; "financial"; "return";
   "dividend"; "portfolio"]%string.

Definition is_finance_related (text : string) : bool :=
  re_search_words FINANCE_KEYWORDS None (list_ascii_of_string text).

(** ** [is_asking_for_list] (main.py lines 57-69) and [extract_ticker]
    (llm.py lines 25-42)

    The completions are inputs: the reply text or the exception the client
    raised. [is_asking_for_list] returns [True], [False], or falls off its
    end ([None]); every exception inside its [try] is swallowed. *)

(** [float(v)] of a JSON value; [None] where [float] raises. *)
Definition py_float_of_json (v : json) : option Q :=
  match v with
  | JNum q => Some q
  | JBool true => Some 1
  | JBool false => Some 0
  | JStr s => py_float_of_string s
  | _ => None
  end.

Definition is_asking_for_list (raw : result string) : option bool :=
  match raw with
  | Err _ => None
  | Ok r =>
    match _safe_parse_json r with
    | Ok (JObj obj) =>
      (* [str(v).lower()]: only a JSON string can print as one of the
         three intents. *)
      let intent := match dict_get "intent" obj with
                    | None => EmptyString
                    | Some (JStr s) => str_lower s
                    | Some _ => EmptyString
                    end in
      let conf := match dict_get "confidence" obj with
                  | None => Some 0
                  | Some v => py_float_of_json v
                  end in
      match conf with
      | None => None
      | Some c =>
        if String.eqb intent "list" && Qle_bool (4 # 10) c then Some true
        else if (String.eqb intent "single" || String.eqb intent "other") && Qle_bool (6 # 10) c
        then Some false
        else None
      end
    | _ => None   (* [.get] on a non-dict, or a failed parse: swallowed *)
    end
  end.

Definition ascii_upper (c : ascii) : ascii :=
  let n := nat_of_ascii c in
  if ((97 <=? n) && (n <=? 122))%nat then ascii_of_nat (n - 32) else c.

Definition str_upper (s : string) : string :=
  string_of_list_ascii (map ascii_upper (list_ascii_of_string s)).

(** [extract_ticker] from the reply text: [None] for [NONE]. *)
Definition extract_ticker (reply : string) : option string :=
  let ticker := str_upper (py_strip reply) in
  if String.eqb ticker "NONE" then None else Some ticker.

(** ** The criteria lines of [_format_rank_response] (main.py lines 100-123) *)

Definition up_arrow : string := "↑".
Definition down_arrow : string := "↓".

(** [_arrow(d)] for a string [d]; the keys [1] and [-1] of the dict never
    equal a string. *)
Definition _arrow (d : string) : string :=
  if String.eqb d "higher" then up_arrow
  else if String.eqb d "lower" then down_arrow
  else EmptyString.

Definition py_rstrip (s : string) : string :=
  string_of_list_ascii (rev (drop_space (rev (list_ascii_of_string s)))).

(** One criteria line; the weight is formatted by the source ([w_str]) but
    not used in the line. *)
Definition criteria_line (kv : string * pref_cfg) : string :=
  let d := direction (snd kv) in
  let pref := if String.eqb d "higher" || String.eqb d "lower"
              then ("prefers " ++ d)%string else d in
  py_rstrip ("- " ++ fst kv ++ ": " ++ pref ++ " " ++ _arrow d)%string.

Definition newline : string := String (ascii_of_nat 10) EmptyString.

Definition criteria_block (spec : prefs) : string :=
  match map criteria_line spec with
  | [] => "(no explicit criteria provided)"%string
  | lines => String.concat newline lines
  end.

(** ** [handle_input] (main.py lines 159-202)

    The replies of the model for one message. [company_data] records only
    whether [fetch_company_data] raised: its result feeds the summary
    prompt, whose answer is [summary_reply]. *)
Record oracle : Type := mkOracle {
  intent_reply : result string;    (* [ask_gpt(_intent_prompt(text))] *)
  prefs_reply : result string;     (* the completion of [prefs_from_text_llm] *)
  ticker_reply : result string;    (* the completion of [extract_ticker] *)
  company_data : result unit;      (* [fetch_company_data(ticker)] *)
  summary_reply : result string;   (* [ask_gpt] of the summary prompt *)
  chat_reply : result string       (* [ask_gpt(user_input)] *)
}.

(** What [handle_input] returns: a text, or the value
    [_format_rank_response(ranked, spec, top_n)] given by its arguments. *)
Inductive reply : Type :=
| RText (s : string)
| RRanking (ranked : DataFrame) (spec : prefs) (top_n : nat).

(** The state keeps the spec that [rank_from_csv] returned; it is
    [spec.get("preferences", spec)] unless a column named [preferences]
    was chosen. *)
Definition handle_input (qsqrt : Q -> Q) (df : DataFrame) (api_key_set : bool)
           (TOP_N_DEFAULT : nat) (EXPORT_DIR : string) (o : oracle)
           (user_input : string) (st : shell_state) (fs : files)
  : result reply * shell_state * files :=
  if is_affirmative user_input && match last_ranked st with Some _ => true | None => false end then
    let '(msg, fs') := _export_last_csv EXPORT_DIR (fun spec => _criteria_slug spec 80) st fs in
    (m <- msg ;; Ok (RText m), st, fs')
  else if match is_asking_for_list (intent_reply o) with Some true => true | _ => false end then
    match rank_from_csv qsqrt df api_key_set (prefs_reply o) (Nat.max TOP_N_DEFAULT 100) true None fs with
    | (Ok (ranked, spec), fs') =>
      (Ok (RRanking ranked spec TOP_N_DEFAULT),
       mkShell (Some ranked) (Some (stored_of spec)) (Some TOP_N_DEFAULT), fs')
    | (Err e, fs') => (Err e, st, fs')
    end
  else
    match ticker_reply o with
    | Err e => (Err e, st, fs)
    | Ok t =>
      match extract_ticker t with
      | Some ticker =>
        if String.eqb ticker EmptyString then
          (if is_finance_related user_input
           then (x <- chat_reply o ;; Ok (RText x))
           else Ok (RText "That's outside my area of expertise. Have any questions about stocks?"%string),
           st, fs)
        else ((_ <- company_data o ;; x <- summary_reply o ;; Ok (RText x)), st, fs)
      | None =>
        (if is_finance_related user_input
         then (x <- chat_reply o ;; Ok (RText x))
         else Ok (RText "That's outside my area of expertise. Have any questions about stocks?"%string),
         st, fs)
      end
    end.

(** ** Reading the rank and score of an output row *)

Definition row_rank (r : row) : Z :=
  match get "rank" r with CInt z => z | _ => 0%Z end.

Definition row_score (r : row) : Q :=
  match to_numeric (get "score_total" r) with Some q => q | None => 0 end.

(** The order of the sorted values in [rank_min_desc] (descending). *)
Definition desc_rel (a b : nat * Q) : Prop := snd b <= snd a.

(** Every row after [set_score_and_rank] carries its score and the rank
    [count_gt + 1] over the score column [v]. *)
Definition ranked_row (v : list Q) (r : row) : Prop :=
  exists q, to_numeric (get "score_total" r) = Some q /\ In q v /\
            get "rank" r = CInt (Z.of_nat (count_gt q v) + 1)%Z.

(** The running [total] of the scoring loop over [n] rows while every
    weight is zero: not yet set, or [n] entries that all equal 0. *)
Definition zero_total (n : nat) (t : option (list (option Q))) : Prop :=
  match t with
  | None => True
  | Some t => List.length t = n /\ forall o, In o t -> exists q, o = Some q /\ q == 0
  end.

(** The length of the running [total] follows the number of rows. *)
Definition total_len (n : nat) (t : option (list (option Q))) : Prop :=
  match t with None => True | Some t => List.length t = n end.

(** ** A concrete request

    A two-company table and an oracle reply that selects [beta] (lower is
    better). [jstr s] is the JSON string literal of [s]. *)
Definition quote_str : string := String (ascii_of_nat 34) EmptyString.

Definition jstr (s : string) : string := (quote_str ++ s ++ quote_str)%string.

Definition example_reply : string :=
  ("{" ++ jstr "preferences" ++ ": {" ++ jstr "beta" ++ ": {" ++ jstr "weight" ++ ": 1, "
   ++ jstr "direction" ++ ": " ++ jstr "negative" ++ "}}}")%string.

Definition example_row (t : string) (b : Q) : row :=
  [("ticker", CStr t); ("name", CStr t); ("beta", CNum b)]%string.

Definition example_table : DataFrame :=
  mkDF ["ticker"; "name"; "beta"]%string [example_row "AAA" 1; example_row "BBB" 2].

(** A table with a numeric column named [preferences], and a reply that
    selects it. *)
Definition pref_table : DataFrame :=
  mkDF ["ticker"; "name"; "preferences"]%string
       [[("ticker", CStr "AAA"); ("name", CStr "AAA"); ("preferences", CNum 1)];
        [("ticker", CStr "BBB"); ("name", CStr "BBB"); ("preferences", CNum 2)]]%string.

Definition pref_reply : string :=
  ("{" ++ jstr "preferences" ++ ": {" ++ jstr "preferences" ++ ": {" ++ jstr "weight" ++ ": 1, "
   ++ jstr "direction" ++ ": " ++ jstr "negative" ++ "}}}")%string.

(** ** Binary64 arithmetic

    The model above computes with exact rationals. The definitions below
    reproduce, for one group of the [transform] of ranker.py line 119,
    what IEEE-754 binary64 arithmetic computes: every operation is the exact
    result rounded to the nearest double, ties to even ([round64], normal
    and subnormal range). The values of this group stay far below the
    largest double; overflow to infinity is modelled in the next part
    ([f64]). *)

Definition pow2 (e : Z) : Q :=
  if (0 <=? e)%Z then inject_Z (2 ^ e) else 1 # Z.to_pos (2 ^ (- e)).

Definition flog2 (q : Q) : Z :=
  let l := (Z.log2 (Qnum q) - Z.log2 (Zpos (Qden q)))%Z in
  if Qle_bool (pow2 l) q then l else (l - 1)%Z.

Definition rne (x : Q) : Z :=
  let f := Qfloor x in
  let r := x - inject_Z f in
  if Qltb r (1 # 2) then f
  else if Qltb (1 # 2) r then (f + 1)%Z
  else if Z.even f then f else (f + 1)%Z.

Definition round_at (e : Z) (q : Q) : Q := inject_Z (rne (q / pow2 e)) * pow2 e.

Definition fexp (q : Q) : Z := Z.max (flog2 q - 52) (-1074).

Definition round_pos (q : Q) : Q := round_at (fexp q) q.

Definition round64 (q : Q) : Q :=
  if Qltb 0 q then round_pos q
  else if Qltb q 0 then - round_pos (- q)
  else 0.

(** The multiples of the smallest subnormal [2^-1074]: every double. *)
Definition on_grid (q : Q) : Prop := exists k, q == inject_Z k * pow2 (-1074).

Definition fadd (x y : Q) : Q := round64 (x + y).
Definition fsub (x y : Q) : Q := round64 (x - y).
Definition fmul (x y : Q) : Q := round64 (x * y).
Definition fdiv (x y : Q) : Q := round64 (x / y).

(** Square root of a rational whose numerator and denominator are perfect
    squares (exact there, which is the only case evaluated below). *)
Definition sqrt_of_square (q : Q) : Q := Z.sqrt (Qnum q) # Pos.sqrt (Qden q).

Definition fsqrt (x : Q) : Q := round64 (sqrt_of_square x).

(** [np.add.reduce] on fewer than nine values: the first value plus the
    sequential sum, from 0.0, of the others. *)
Definition np_sum (g : list Q) : Q :=
  match g with
  | [] => 0
  | v :: vs => fadd v (fold_left fadd vs 0)
  end.

Definition count_f64 (g : list Q) : Q := inject_Z (Z.of_nat (List.length g)).

(** pandas' [nanmean] and [nanvar(ddof=0)] of a group without NaN: the sum
    divided by the count; the sum of [(avg - values) ** 2] divided by the
    count. *)
Definition mean_f64 (g : list Q) : Q := fdiv (np_sum g) (count_f64 g).

Definition var0_f64 (g : list Q) : Q :=
  let avg := mean_f64 g in
  fdiv (np_sum (map (fun v => fmul (fsub avg v) (fsub avg v)) g)) (count_f64 g).

Definition std0_f64 (g : list Q) : Q := fsqrt (var0_f64 g).

(** [(s - s.mean()) / (s.std(ddof=0) or 1.0)] at the value [x] of group [g]. *)
Definition zscore_f64 (g : list Q) (x : Q) : Q :=
  let sd := std0_f64 g in
  fdiv (fsub x (mean_f64 g)) (if Qeq_bool sd 0 then 1 else sd).

(** The double nearest to 0.1. *)
Definition f64_0_1 : Q := round64 (1 # 10).

(** ** Doubles with infinities and NaN

    A float64 is a finite double [Fin q] (a value of [round64]), an
    infinity or NaN. An operation on finite doubles rounds the exact result
    with [round64] and overflows to an infinity at [2^1024] and beyond; the
    infinities and NaN propagate as IEEE-754 prescribes. Zero carries no
    sign, so [x / 0.0] is taken as [x / +0.0]. A cell stores an infinity as
    the number [+-2^1024] (outside every double) and NaN as [CNaN]. *)

Inductive f64 : Type :=
| Fin (q : Q)
| Inf (neg : bool)
| NaN.

Definition ovf : Q := pow2 1024.

Definition ofQ (q : Q) : f64 :=
  let r := round64 q in
  if Qle_bool ovf r then Inf false
  else if Qle_bool r (- ovf) then Inf true
  else Fin r.

Definition fneg64 (x : f64) : f64 :=
  match x with Fin q => Fin (- q) | Inf b => Inf (negb b) | NaN => NaN end.

Definition fadd64 (x y : f64) : f64 :=
  match x, y with
  | Fin a, Fin b => ofQ (a + b)
  | Inf s, Inf t => if Bool.eqb s t then Inf s else NaN
  | Inf s, Fin _ | Fin _, Inf s => Inf s
  | _, _ => NaN
  end.

Definition fsub64 (x y : f64) : f64 := fadd64 x (fneg64 y).

Definition fmul64 (x y : f64) : f64 :=
  match x, y with
  | Fin a, Fin b => ofQ (a * b)
  | Inf s, Inf t => Inf (xorb s t)
  | Inf s, Fin b | Fin b, Inf s => if Qeq_bool b 0 then NaN else Inf (xorb s (Qltb b 0))
  | _, _ => NaN
  end.

Definition fdiv64 (x y : f64) : f64 :=
  match x, y with
  | Fin a, Fin b =>
    if Qeq_bool b 0 then (if Qeq_bool a 0 then NaN else Inf (Qltb a 0))
    else ofQ (a / b)
  | Inf s, Fin b => Inf (xorb s (Qltb b 0))
  | Fin _, Inf _ => Fin 0
  | _, _ => NaN
  end.

Definition is_nan (x : f64) : bool := match x with NaN => true | _ => false end.

Definition is_finite (x : f64) : bool := match x with Fin _ => true | _ => false end.

Definition f64_lt (x y : f64) : bool :=
  match x, y with
  | Fin a, Fin b => Qltb a b
  | Inf true, Fin _ | Fin _, Inf false | Inf true, Inf false => true
  | _, _ => false
  end.

Definition f64_le (x y : f64) : bool :=
  match x, y with
  | NaN, _ | _, NaN => false
  | _, _ => negb (f64_lt y x)
  end.

Definition f64_eqb (x y : f64) : bool := f64_le x y && f64_le y x.

Definition opt_of_f64 (x : f64) : option Q :=
  match x with
  | Fin q => Some q
  | Inf false => Some ovf
  | Inf true => Some (- ovf)
  | NaN => None
  end.

Definition cell_of_f64 (x : f64) : cell := cell_of_opt (opt_of_f64 x).

(** The spellings of an infinity that pandas' [to_numeric] accepts in a
    string cell besides numbers (compared case-insensitively); [Some true]
    for a negative infinity. *)
Definition inf_string (s : string) : option bool :=
  let l := str_lower s in
  if existsb (String.eqb l) ["inf"; "+inf"; "infinity"; "+infinity"]%string then Some false
  else if existsb (String.eqb l) ["-inf"; "-infinity"]%string then Some true
  else None.

(** [pd.to_numeric(errors="coerce")] on one cell, as a double: a number is
    rounded to the nearest double (to an infinity beyond the largest
    double), an infinity spelled out is read as one, anything else is NaN. *)
Definition to_numeric64 (c : cell) : f64 :=
  match to_numeric c with
  | Some q => ofQ q
  | None =>
    match c with
    | CStr s => match inf_string s with Some neg => Inf neg | None => NaN end
    | _ => NaN
    end
  end.

Definition present64 (s : list f64) : list f64 := filter (fun v => negb (is_nan v)) s.

Definition median64 (s : list f64) : f64 :=
  let v := sort_by f64_le (present64 s) in
  let n := List.length v in
  match n with
  | O => NaN
  | S _ =>
    if Nat.even n
    then fdiv64 (fadd64 (nth (n / 2 - 1) v NaN) (nth (n / 2) v NaN)) (Fin 2)
    else nth (n / 2) v NaN
  end.

Definition nanmin64 (s : list f64) : f64 :=
  match present64 s with
  | [] => NaN
  | v :: vs => fold_left (fun m y => if f64_lt y m then y else m) vs v
  end.

Definition nanmax64 (s : list f64) : f64 :=
  match present64 s with
  | [] => NaN
  | v :: vs => fold_left (fun m y => if f64_lt m y then y else m) vs v
  end.

(** [_dirnorm] (ranker.py lines 85-92) on a series of float64 dtype:
    [np.nanmin] and [np.nanmax] skip NaN; an empty series makes them raise
    [ValueError]. *)
Definition dirnorm_float64 (series : list cell) (direction : string) : result (list f64) :=
  let s := map to_numeric64 series in
  let med := median64 s in
  let s := map (fun v => if is_nan v then med else v) s in
  let x := if String.eqb direction "negative" then map fneg64 s else s in
  match x with
  | [] => Err ValueError
  | _ =>
    let lo := nanmin64 x in
    let hi := nanmax64 x in
    if negb (is_finite lo) || negb (is_finite hi) || f64_eqb hi lo
    then Ok (map (fun _ => Fin (1 # 2)) series)
    else Ok (map (fun v => fdiv64 (fsub64 v lo) (fsub64 hi lo)) x)
  end.

(** int64 arithmetic wraps around modulo [2^64]. *)
Definition wrap64 (z : Z) : Z := ((z + 2 ^ 63) mod 2 ^ 64 - 2 ^ 63)%Z.

(** The series has int64 dtype when every cell is an integer. *)
Fixpoint int_col (series : list cell) : option (list Z) :=
  match series with
  | [] => Some []
  | CInt z :: r => option_map (cons z) (int_col r)
  | _ => None
  end.

Definition i2f (z : Z) : f64 := ofQ (inject_Z z).

(** [_dirnorm] on an int64 series: [fillna] changes nothing, [-s],
    [x - lo] and [hi - lo] wrap around, and [/] converts both sides to
    float64 before dividing. *)
Definition dirnorm_int64 (zs : list Z) (direction : string) : result (list f64) :=
  let x := if String.eqb direction "negative" then map (fun z => wrap64 (- z)) zs else zs in
  match x with
  | [] => Err ValueError
  | v :: vs =>
    let lo := fold_left Z.min vs v in
    let hi := fold_left Z.max vs v in
    if Z.eqb hi lo then Ok (map (fun _ => Fin (1 # 2)) x)
    else Ok (map (fun y => fdiv64 (i2f (wrap64 (y - lo))) (i2f (wrap64 (hi - lo)))) x)
  end.

(** [_dirnorm] with pandas' dtypes: int64 for a non-empty column of
    integers, float64 otherwise. *)
Definition _dirnorm64 (series : list cell) (direction : string) : result (list f64) :=
  match int_col series with
  | Some ((_ :: _) as zs) => dirnorm_int64 zs direction
  | _ => dirnorm_float64 series direction
  end.

(** A cell whose number is at most [2^1022] in magnitude (below [2^62] for
    an integer): no sum or difference of two such values overflows. *)
Definition bounded_cell (c : cell) : bool :=
  match c with
  | CInt z => (Z.abs z <? 2 ^ 62)%Z
  | CStr s =>
    match py_float_of_string s with
    | Some q => Qle_bool (Qabs q) (pow2 1022)
    | None => match inf_string s with Some _ => false | None => true end
    end
  | _ => match to_numeric c with Some q => Qle_bool (Qabs q) (pow2 1022) | None => true end
  end.

(** A double read from a bounded cell. *)
Definition okv (v : f64) : Prop := exists q, v = Fin q /\ Qabs q <= pow2 1022 /\ on_grid q.

(** A preference with a float64 weight. *)
Record pref_cfg64 : Type := mkCfg64 { weight64 : f64; direction64 : string }.

Definition prefs64 := list (string * pref_cfg64).

Definition fabs64 (x : f64) : f64 :=
  match x with Fin q => Fin (Qabs q) | Inf _ => Inf false | NaN => NaN end.

Definition is_zero64 (x : f64) : bool :=
  match x with Fin q => Qeq_bool q 0 | _ => false end.

(** Python's [sum] of floats (3.12 and later): the running sum [f] and its
    compensation [c] (Neumaier's summation); the compensation is added at
    the end when it is finite and nonzero. The start value [0] is an int,
    so the first float is added to [0.0] directly. *)
Definition neumaier_add (acc : f64 * f64) (x : f64) : f64 * f64 :=
  let '(f, c) := acc in
  let t := fadd64 f x in
  let c := if f64_le (fabs64 x) (fabs64 f)
           then fadd64 c (fadd64 (fsub64 f t) x)
           else fadd64 c (fadd64 (fsub64 x t) f) in
  (t, c).

Definition py_sum64 (l : list f64) : f64 :=
  match l with
  | [] => Fin 0
  | x :: xs =>
    let '(f, c) := fold_left neumaier_add xs (fadd64 (Fin 0) x, Fin 0) in
    if is_finite c && negb (is_zero64 c) then fadd64 f c else f
  end.

(** Lines 107-109 of ranker.py: [sum(...) or 1.0], then each weight divided
    by it. *)
Definition total_w64 (p : prefs64) : f64 :=
  let t := py_sum64 (map (fun kv => weight64 (snd kv)) p) in
  if is_zero64 t then Fin 1 else t.

Definition normalize_weights64 (p : prefs64) : prefs64 :=
  let t := total_w64 p in
  map (fun kv => (fst kv, mkCfg64 (fdiv64 (weight64 (snd kv)) t) (direction64 (snd kv)))) p.

(** Sector neutralization (lines 113-123) with the group transform
    [sector_z64] as a parameter: it maps the sector column and the value
    column to the column of z-scores. *)
Section Neutralize64.

Variable sector_z64 : list cell -> list cell -> list f64.

Definition neutralize_step64 (acc : DataFrame * list (string * string)) (kv : string * pref_cfg64)
  : DataFrame * list (string * string) :=
  let '(w, m) := acc in
  let col := fst kv in
  if has_col col w then
    let z := sector_z64 (get_col "sector" w) (get_col col w) in
    (set_col (zcol_name col) (map cell_of_f64 z) w, m ++ [(col, zcol_name col)])
  else (w, m).

Definition setdefault_step64 (m : list (string * string)) (kv : string * pref_cfg64)
  : list (string * string) :=
  if existsb (fun e => String.eqb (fst e) (fst kv)) m then m
  else m ++ [(fst kv, fst kv)].

Definition neutralize64 (sector_neutral : bool) (p : prefs64) (work : DataFrame)
  : DataFrame * list (string * string) :=
  let '(work, mapped) :=
    if sector_neutral && has_col "sector" work
    then fold_left neutralize_step64 p (work, [])
    else (work, []) in
  (work, fold_left setdefault_step64 p mapped).

End Neutralize64.

Record loop_state64 : Type :=
  mkLS64 { ls_work64 : DataFrame; ls_comp_cols64 : list string; ls_total64 : option (list f64) }.

(** One pass of the scoring loop (lines 127-135) on doubles. *)
Definition score_step64 (mapped : list (string * string)) (st : loop_state64)
           (kv : string * pref_cfg64) : result loop_state64 :=
  let '(col, cfg) := kv in
  let src := lookup_mapped mapped col in
  if negb (has_col src (ls_work64 st)) then Ok st
  else
    comp <- _dirnorm64 (get_col src (ls_work64 st)) (direction64 cfg) ;;
    let cname := ("score__" ++ col)%string in
    let work := set_col cname (map cell_of_f64 comp) (ls_work64 st) in
    let scaled := map (fun c => fmul64 c (weight64 cfg)) comp in
    let total :=
      match ls_total64 st with
      | None => scaled
      | Some t => map (fun ab => fadd64 (fst ab) (snd ab)) (combine t scaled)
      end in
    Ok (mkLS64 work (ls_comp_cols64 st ++ [cname]) (Some total)).

Fixpoint score_loop64 (mapped : list (string * string)) (st : loop_state64)
         (p : prefs64) : result loop_state64 :=
  match p with
  | [] => Ok st
  | kv :: p' => st' <- score_step64 mapped st kv ;; score_loop64 mapped st' p'
  end.

(** Lines 137-138: a NaN score makes [astype(int)] raise; an infinite score
    ranks as a number beyond every double. *)
Definition set_score_and_rank64 (total : option (list f64)) (work : DataFrame) : result DataFrame :=
  set_score_and_rank (option_map (map opt_of_f64) total) work.

(** Lines 106-143 of [rank_from_csv] on doubles: weight normalization,
    neutralization, scoring, rank and ordering. *)
Definition score_and_rank64 (sector_z64 : list cell -> list cell -> list f64) (df : DataFrame)
           (p0 : prefs64) (sector_neutral : bool) : result (DataFrame * prefs64) :=
  let p := normalize_weights64 p0 in
  let '(work, mapped) := neutralize64 sector_z64 sector_neutral p df in
  st <- score_loop64 mapped (mkLS64 work [] None) p ;;
  work <- set_score_and_rank64 (ls_total64 st) (ls_work64 st) ;;
  Ok (order_table (ls_comp_cols64 st) work, p).

(** A double at most [2^1022] in magnitude, or NaN. *)
Definition bounded_f64 (v : f64) : bool :=
  match v with Fin q => Qle_bool (Qabs q) (pow2 1022) | NaN => true | Inf _ => false end.

(** Every cell of the table is bounded. *)
Definition table_bounded (df : DataFrame) : bool :=
  forallb (fun r => forallb (fun kv => bounded_cell (snd kv)) r) (rows df).

(** The double nearest to [1e308], and a table whose column [x] holds
    [1e308] and [-1e308]. *)
Definition d308 : Q := round64 (inject_Z (10 ^ 308)).

Definition big_table : DataFrame :=
  mkDF ["ticker"; "name"; "x"]%string
       [[("ticker", CStr "AAA"); ("name", CStr "AAA"); ("x", CNum d308)];
        [("ticker", CStr "BBB"); ("name", CStr "BBB"); ("x", CNum (- d308))]]%string.

(** The running total while every weight is zero: not yet set, or [n]
    zeros. *)
Definition zero_total64 (n : nat) (t : option (list f64)) : Prop :=
  match t with
  | None => True
  | Some t => List.length t = n /\ forall v, In v t -> v = Fin 0
  end.

(** * Proofs *)

(** ** Numbers *)

Lemma Qltb_iff a b : Qltb a b = true <-> a < b.
Proof.
  unfold Qltb. rewrite negb_true_iff. split.
  - intro H. apply Qnot_le_lt. intro H'. apply Qle_bool_iff in H'. congruence.
  - intro H. destruct (Qle_bool b a) eqn:E; auto.
    apply Qle_bool_iff in E. exfalso. apply (Qlt_not_le _ _ H E).
Qed.

Lemma Qltb_false a b : Qltb a b = false <-> b <= a.
Proof.
  unfold Qltb. rewrite negb_false_iff. apply Qle_bool_iff.
Qed.

(** ** Rounding to binary64 *)

Lemma pow2_Qpower e : pow2 e == (2 # 1) ^ e.
Proof.
  unfold pow2. destruct (Z.leb_spec 0 e) as [H|H].
  - apply Zpower_Qpower. exact H.
  - assert (Hp : (0 < 2 ^ (- e))%Z) by (apply Z.pow_pos_nonneg; lia).
    replace e with (- (- e))%Z at 2 by lia. rewrite Qpower_opp.
    rewrite <- (Zpower_Qpower 2 (- e)) by lia.
    destruct (2 ^ (- e))%Z as [|p|p]; try lia. reflexivity.
Qed.

Lemma pow2_pos e : 0 < pow2 e.
Proof. rewrite pow2_Qpower. apply Qpower_0_lt. reflexivity. Qed.

Lemma pow2_add a b : pow2 (a + b) == pow2 a * pow2 b.
Proof. rewrite !pow2_Qpower. apply Qpower_plus. discriminate. Qed.

Lemma pow2_nonneg e : (0 <= e)%Z -> pow2 e = inject_Z (2 ^ e).
Proof. intros H. unfold pow2. destruct (Z.leb_spec 0 e); [reflexivity|lia]. Qed.

Lemma pow2_le a b : (a <= b)%Z -> pow2 a <= pow2 b.
Proof.
  intros H. rewrite !pow2_Qpower. apply Qpower_le_compat_l; [exact H|discriminate].
Qed.

Lemma pow2_split k e : (0 <= k)%Z -> pow2 (k + e) == inject_Z (2 ^ k) * pow2 e.
Proof. intros H. rewrite pow2_add, pow2_nonneg by exact H. reflexivity. Qed.

Lemma pow2_lt a b : (a < b)%Z -> pow2 a < pow2 b.
Proof.
  intros H. rewrite !pow2_Qpower. apply Qpower_lt_compat_l; [exact H|reflexivity].
Qed.

Lemma flog2_spec q : 0 < q -> pow2 (flog2 q) <= q /\ q < pow2 (flog2 q + 1).
Proof.
  destruct q as [n d]. intros Hq.
  assert (Hn : (0 < n)%Z) by (unfold Qlt in Hq; simpl in Hq; lia).
  set (a := Z.log2 n). set (b := Z.log2 (Zpos d)).
  destruct (Z.log2_spec n Hn) as [Ha1 Ha2]. fold a in Ha1, Ha2.
  destruct (Z.log2_spec (Zpos d) ltac:(lia)) as [Hb1 Hb2]. fold b in Hb1, Hb2.
  assert (Ha0 : (0 <= a)%Z) by apply Z.log2_nonneg.
  assert (Hb0 : (0 <= b)%Z) by apply Z.log2_nonneg.
  assert (Eq : n # d == inject_Z n / inject_Z (Zpos d)) by apply Qmake_Qdiv.
  assert (Hd : 0 < inject_Z (Zpos d)) by (unfold Qlt; simpl; lia).
  assert (HA1 : pow2 a <= inject_Z n) by (rewrite pow2_nonneg by lia; rewrite <- Zle_Qle; lia).
  assert (HA2 : inject_Z n < pow2 (a + 1))
    by (rewrite pow2_nonneg by lia; rewrite <- Zlt_Qlt; rewrite Z.pow_succ_r in Ha2 by lia;
        rewrite Z.pow_add_r by lia; lia).
  assert (HB1 : pow2 b <= inject_Z (Zpos d)) by (rewrite pow2_nonneg by lia; rewrite <- Zle_Qle; lia).
  assert (HB2 : inject_Z (Zpos d) < pow2 (b + 1))
    by (rewrite pow2_nonneg by lia; rewrite <- Zlt_Qlt; rewrite Z.pow_succ_r in Hb2 by lia;
        rewrite Z.pow_add_r by lia; lia).
  (* the two bounds around [a - b] *)
  assert (L1 : pow2 (a - b - 1) <= n # d).
  { rewrite Eq. apply Qle_shift_div_l; [exact Hd|].
    apply Qle_trans with (pow2 (a - b - 1) * pow2 (b + 1)).
    - apply Qmult_le_l; [apply pow2_pos|]. apply Qlt_le_weak. exact HB2.
    - rewrite <- pow2_add. replace (a - b - 1 + (b + 1))%Z with a by lia. exact HA1. }
  assert (L2 : n # d < pow2 (a - b + 1)).
  { rewrite Eq. apply Qlt_shift_div_r; [exact Hd|].
    apply Qlt_le_trans with (pow2 (a + 1)); [exact HA2|].
    replace (a + 1)%Z with (a - b + 1 + b)%Z by lia. rewrite pow2_add.
    apply Qmult_le_l; [apply pow2_pos|]. exact HB1. }
  unfold flog2. cbn [Qnum Qden]. fold a b.
  destruct (Qle_bool (pow2 (a - b)) (n # d)) eqn:E.
  - apply Qle_bool_iff in E. split; [exact E|exact L2].
  - split.
    + exact L1.
    + replace (a - b - 1 + 1)%Z with (a - b)%Z by lia.
      apply Qnot_le_lt. intros H. apply Qle_bool_iff in H. congruence.
Qed.

Lemma flog2_unique q l : pow2 l <= q -> q < pow2 (l + 1) -> flog2 q = l.
Proof.
  intros H1 H2.
  assert (Hq : 0 < q) by (apply Qlt_le_trans with (pow2 l); [apply pow2_pos|exact H1]).
  destruct (flog2_spec q Hq) as [F1 F2].
  destruct (Z.lt_trichotomy (flog2 q) l) as [H|[H|H]]; [|exact H|].
  - exfalso. apply (Qlt_irrefl q). apply Qlt_le_trans with (pow2 (flog2 q + 1)); [exact F2|].
    apply Qle_trans with (pow2 l); [apply pow2_le; lia|exact H1].
  - exfalso. apply (Qlt_irrefl q). apply Qlt_le_trans with (pow2 (l + 1)); [exact H2|].
    apply Qle_trans with (pow2 (flog2 q)); [apply pow2_le; lia|exact F1].
Qed.

Lemma flog2_mono a b : 0 < a -> a <= b -> (flog2 a <= flog2 b)%Z.
Proof.
  intros Ha Hab. assert (Hb : 0 < b) by (apply Qlt_le_trans with a; auto).
  destruct (flog2_spec a Ha) as [A1 A2]. destruct (flog2_spec b Hb) as [B1 B2].
  destruct (Z.le_gt_cases (flog2 a) (flog2 b)) as [H|H]; [exact H|exfalso].
  apply (Qlt_irrefl b). apply Qlt_le_trans with (pow2 (flog2 b + 1)); [exact B2|].
  apply Qle_trans with (pow2 (flog2 a)); [apply pow2_le; lia|].
  apply Qle_trans with a; auto.
Qed.

(** Rounding to an integer *)
Lemma rne_cases x : rne x = Qfloor x \/ rne x = (Qfloor x + 1)%Z.
Proof.
  unfold rne. destruct (Qltb _ _); [left; reflexivity|].
  destruct (Qltb _ _); [right; reflexivity|]. destruct (Z.even _); auto.
Qed.

Lemma rne_Z k : rne (inject_Z k) = k.
Proof.
  unfold rne. rewrite Qfloor_Z.
  replace (Qltb (inject_Z k - inject_Z k) (1 # 2)) with true; [reflexivity|].
  symmetry. apply Qltb_iff. setoid_replace (inject_Z k - inject_Z k) with 0 by ring.
  reflexivity.
Qed.

Lemma rne_mono x y : x <= y -> (rne x <= rne y)%Z.
Proof.
  intros H. assert (Hf := Qfloor_resp_le x y H).
  destruct (Z.lt_ge_cases (Qfloor x) (Qfloor y)) as [Hlt|Hge].
  - destruct (rne_cases x) as [->| ->]; destruct (rne_cases y) as [->| ->]; lia.
  - assert (E : Qfloor x = Qfloor y) by lia.
    unfold rne. rewrite <- E. set (f := Qfloor x) in *.
    assert (Hr : x - inject_Z f <= y - inject_Z f) by lra.
    set (rx := x - inject_Z f) in *. set (ry := y - inject_Z f) in *.
    destruct (Qltb rx (1 # 2)) eqn:X1;
      destruct (Qltb ry (1 # 2)) eqn:Y1;
      try (destruct (Qltb (1 # 2) rx) eqn:X2);
      try (destruct (Qltb (1 # 2) ry) eqn:Y2);
      try (destruct (Z.even f)); try lia;
      repeat match goal with
      | h : Qltb _ _ = true |- _ => apply Qltb_iff in h
      | h : Qltb _ _ = false |- _ => apply Qltb_false in h
      end; exfalso; lra.
Qed.

Lemma rne_resp x y : x == y -> rne x = rne y.
Proof.
  intros H. apply Z.le_antisymm; apply rne_mono; rewrite H; apply Qle_refl.
Qed.

Lemma round_at_mono e a b : a <= b -> round_at e a <= round_at e b.
Proof.
  intros H. unfold round_at. apply Qmult_le_compat_r; [|apply Qlt_le_weak, pow2_pos].
  rewrite <- Zle_Qle. apply rne_mono. unfold Qdiv.
  apply Qmult_le_compat_r; [exact H|]. apply Qlt_le_weak, Qinv_lt_0_compat, pow2_pos.
Qed.

Lemma round_at_fix e k : round_at e (inject_Z k * pow2 e) == inject_Z k * pow2 e.
Proof.
  unfold round_at. rewrite (rne_resp _ (inject_Z k)); [rewrite rne_Z; reflexivity|].
  field. apply Qnot_eq_sym, Qlt_not_eq, pow2_pos.
Qed.

#[local] Instance round_at_Proper e : Proper (Qeq ==> Qeq) (round_at e).
Proof.
  intros a b H. apply Qle_antisym; apply round_at_mono; rewrite H; apply Qle_refl.
Qed.

Lemma round_at_zero e : round_at e 0 == 0.
Proof.
  setoid_replace (0 : Q) with (inject_Z 0 * pow2 e) at 1 by ring.
  rewrite round_at_fix. ring.
Qed.

Lemma round_at_pow2 e l : (e <= l)%Z -> round_at e (pow2 l) == pow2 l.
Proof.
  intros H. replace l with (l - e + e)%Z by lia.
  rewrite pow2_split by lia. apply round_at_fix.
Qed.

Lemma fexp_mono a b : 0 < a -> a <= b -> (fexp a <= fexp b)%Z.
Proof. intros Ha Hab. unfold fexp. pose proof (flog2_mono a b Ha Hab). lia. Qed.

Lemma round_pos_mono a b : 0 < a -> a <= b -> round_pos a <= round_pos b.
Proof.
  intros Ha Hab. unfold round_pos.
  destruct (Z.eq_dec (fexp a) (fexp b)) as [E|Hne].
  - rewrite E. apply round_at_mono. exact Hab.
  - assert (Hlt : (fexp a < fexp b)%Z) by (pose proof (fexp_mono a b Ha Hab); lia).
    assert (Hb : 0 < b) by (apply Qlt_le_trans with a; auto).
    assert (Eb : fexp b = (flog2 b - 52)%Z) by (unfold fexp in *; lia).
    assert (Hl : (flog2 a < flog2 b)%Z) by (unfold fexp in *; lia).
    destruct (flog2_spec a Ha) as [_ A2]. destruct (flog2_spec b Hb) as [B1 _].
    apply Qle_trans with (pow2 (flog2 b)).
    + rewrite <- (round_at_pow2 (fexp a) (flog2 b)) by lia.
      apply round_at_mono. apply Qlt_le_weak. apply Qlt_le_trans with (pow2 (flog2 a + 1)); [exact A2|].
      apply pow2_le. lia.
    + rewrite <- (round_at_pow2 (fexp b) (flog2 b)) at 1 by lia.
      apply round_at_mono. exact B1.
Qed.

Lemma round_pos_nonneg a : 0 < a -> 0 <= round_pos a.
Proof.
  intros Ha. unfold round_pos. rewrite <- (round_at_zero (fexp a)).
  apply round_at_mono. apply Qlt_le_weak. exact Ha.
Qed.

Lemma round64_mono a b : a <= b -> round64 a <= round64 b.
Proof.
  intros H. unfold round64.
  destruct (Qltb 0 a) eqn:A1; destruct (Qltb 0 b) eqn:B1;
    try (destruct (Qltb a 0) eqn:A2); try (destruct (Qltb b 0) eqn:B2);
    repeat match goal with
    | h : Qltb _ _ = true |- _ => apply Qltb_iff in h
    | h : Qltb _ _ = false |- _ => apply Qltb_false in h
    end; try (exfalso; lra).
  all: try (assert (0 <= round_pos (- a)) by (apply round_pos_nonneg; lra));
       try (assert (0 <= round_pos (- b)) by (apply round_pos_nonneg; lra));
       try (assert (0 <= round_pos a) by (apply round_pos_nonneg; lra));
       try (assert (0 <= round_pos b) by (apply round_pos_nonneg; lra));
       try (assert (round_pos a <= round_pos b) by (apply round_pos_mono; lra));
       try (assert (round_pos (- b) <= round_pos (- a)) by (apply round_pos_mono; lra));
       lra.
Qed.

Lemma round64_resp a b : a == b -> round64 a == round64 b.
Proof. intros H. apply Qle_antisym; apply round64_mono; rewrite H; apply Qle_refl. Qed.

#[local] Instance round64_Proper : Proper (Qeq ==> Qeq) round64.
Proof. intros a b H. apply round64_resp. exact H. Qed.

Lemma round64_odd q : round64 (- q) == - round64 q.
Proof.
  unfold round64.
  destruct (Qltb 0 q) eqn:A1; destruct (Qltb 0 (- q)) eqn:B1;
    try (destruct (Qltb q 0) eqn:A2); try (destruct (Qltb (- q) 0) eqn:B2);
    repeat match goal with
    | h : Qltb _ _ = true |- _ => apply Qltb_iff in h
    | h : Qltb _ _ = false |- _ => apply Qltb_false in h
    end; try (exfalso; lra).
  - assert (E : round_pos (- - q) == round_pos q)
      by (apply Qle_antisym; apply round_pos_mono; lra).
    rewrite E. reflexivity.
  - ring.
  - reflexivity.
Qed.

(** Every rounded value is a multiple of the least subnormal [2^-1074]. *)

Lemma on_grid_round_at e q : (-1074 <= e)%Z -> on_grid (round_at e q).
Proof.
  intros He. unfold round_at. exists (rne (q / pow2 e) * 2 ^ (e + 1074))%Z.
  replace e with (e + 1074 + -1074)%Z at 2 by lia. rewrite pow2_split by lia.
  rewrite inject_Z_mult. ring.
Qed.

Lemma on_grid_round64 q : on_grid (round64 q).
Proof.
  unfold round64. destruct (Qltb 0 q); [|destruct (Qltb q 0)].
  - apply on_grid_round_at. unfold fexp. lia.
  - destruct (on_grid_round_at (fexp (- q)) (- q)) as (k & Hk); [unfold fexp; lia|].
    exists (- k)%Z. unfold round_pos. rewrite Hk, inject_Z_opp. ring.
  - exists 0%Z. ring.
Qed.

Lemma on_grid_sub a b : on_grid a -> on_grid b -> on_grid (a - b).
Proof.
  intros [ka Ha] [kb Hb]. exists (ka - kb)%Z. rewrite Ha, Hb. unfold Z.sub. rewrite inject_Z_plus, inject_Z_opp. ring.
Qed.

Lemma on_grid_opp a : on_grid a -> on_grid (- a).
Proof. intros [ka Ha]. exists (- ka)%Z. rewrite Ha, inject_Z_opp. ring. Qed.

Lemma on_grid_pos a : on_grid a -> 0 < a -> pow2 (-1074) <= a.
Proof.
  intros [k Hk] Ha. rewrite Hk in *. assert (Hp := pow2_pos (-1074)).
  set (p := pow2 (-1074)) in *.
  destruct (Z.le_gt_cases k 0) as [H|H].
  - exfalso. rewrite Zle_Qle in H.
    assert (H2 : inject_Z k * p <= inject_Z 0 * p)
      by (apply Qmult_le_compat_r; [exact H|lra]).
    rewrite Qmult_0_l in H2. lra.
  - assert (H1 : (1 <= k)%Z) by lia. rewrite Zle_Qle in H1.
    assert (H2 : inject_Z 1 * p <= inject_Z k * p)
      by (apply Qmult_le_compat_r; [exact H1|lra]).
    rewrite Qmult_1_l in H2. lra.
Qed.

(** ** The stable sort *)

Section SortFacts.
Context {A : Type} (le : A -> A -> bool).

Lemma insert_by_perm x l : Permutation (x :: l) (insert_by le x l).
Proof.
  induction l as [|y l IH]; simpl; auto.
  destruct (le x y); auto.
  eapply perm_trans; [apply perm_swap|]. auto.
Qed.

Lemma sort_by_perm l : Permutation l (sort_by le l).
Proof.
  induction l as [|x l IH]; simpl; auto.
  eapply perm_trans; [|apply insert_by_perm]. auto.
Qed.

Hypothesis le_total : forall a b, le a b = false -> le b a = true.

Lemma insert_by_sorted x l :
  Sorted (fun a b => le a b = true) l -> Sorted (fun a b => le a b = true) (insert_by le x l).
Proof.
  induction 1 as [|y l Hs IH Hhd]; simpl.
  - auto.
  - destruct (le x y) eqn:E.
    + constructor; auto.
    + constructor; auto.
      destruct l as [|z l]; simpl.
      * constructor. apply le_total; auto.
      * inversion Hhd; subst.
        destruct (le x z); constructor; auto.
Qed.

Lemma sort_by_sorted l : Sorted (fun a b => le a b = true) (sort_by le l).
Proof.
  induction l; simpl; auto using insert_by_sorted.
Qed.

(** Stability: an element goes before every later element it is [le] to. *)
Lemma filter_insert_in (P : A -> bool) x l :
  P x = true -> (forall y, In y l -> P y = true -> le x y = true) ->
  filter P (insert_by le x l) = x :: filter P l.
Proof.
  intros Hx. induction l as [|y l IH]; intros Hl; simpl.
  - rewrite Hx. reflexivity.
  - destruct (le x y) eqn:E; simpl.
    + rewrite Hx. reflexivity.
    + destruct (P y) eqn:Py.
      * rewrite (Hl y (or_introl eq_refl) Py) in E. discriminate.
      * apply IH. intros z Hz. apply Hl. right. exact Hz.
Qed.

Lemma filter_insert_out (P : A -> bool) x l :
  P x = false -> filter P (insert_by le x l) = filter P l.
Proof.
  intros Hx. induction l as [|y l IH]; simpl.
  - rewrite Hx. reflexivity.
  - destruct (le x y); simpl.
    + rewrite Hx. reflexivity.
    + destruct (P y); [f_equal|]; exact IH.
Qed.

End SortFacts.

Lemma filter_sort_by_stable {A} (le : A -> A -> bool) (P : A -> bool) l :
  (forall x y, In x l -> In y l -> P x = true -> P y = true -> le x y = true) ->
  filter P (sort_by le l) = filter P l.
Proof.
  induction l as [|x l IH]; intros H; simpl; auto.
  assert (IH' : filter P (sort_by le l) = filter P l).
  { apply IH. intros; apply H; auto; right; auto. }
  destruct (P x) eqn:Px.
  - rewrite filter_insert_in; auto.
    + f_equal. exact IH'.
    + intros y Hy Py. apply H; auto. left; auto. right.
      apply (Permutation_in _ (Permutation_sym (sort_by_perm le l))). exact Hy.
  - rewrite filter_insert_out; auto.
Qed.

(** ** Counting strictly greater values *)

Lemma Qltb_compat q q' y : q == q' -> Qltb q y = Qltb q' y.
Proof.
  intros H. destruct (Qltb q y) eqn:E1, (Qltb q' y) eqn:E2; auto.
  - apply Qltb_iff in E1. apply Qltb_false in E2. exfalso.
    apply (Qlt_not_le _ _ E1). rewrite H. exact E2.
  - apply Qltb_false in E1. apply Qltb_iff in E2. exfalso.
    apply (Qlt_not_le _ _ E2). rewrite <- H. exact E1.
Qed.

Lemma count_gt_app q l1 l2 : count_gt q (l1 ++ l2) = (count_gt q l1 + count_gt q l2)%nat.
Proof. unfold count_gt. rewrite filter_app, length_app. reflexivity. Qed.

Lemma count_gt_perm q l l' : Permutation l l' -> count_gt q l = count_gt q l'.
Proof.
  unfold count_gt. induction 1; simpl; auto.
  - destruct (Qltb q x); simpl; auto.
  - destruct (Qltb q x), (Qltb q y); simpl; auto.
  - congruence.
Qed.

Lemma count_gt_compat q q' l : q == q' -> count_gt q l = count_gt q' l.
Proof.
  intros H. unfold count_gt. f_equal. apply filter_ext. intro y. apply Qltb_compat. exact H.
Qed.

Lemma count_gt_all q l : (forall y, In y l -> q < y) -> count_gt q l = List.length l.
Proof.
  unfold count_gt. induction l as [|y l IH]; intros H; simpl; auto.
  replace (Qltb q y) with true; simpl.
  - f_equal. apply IH. intros; apply H; right; auto.
  - symmetry. apply Qltb_iff. apply H. left; auto.
Qed.

Lemma count_gt_none q l : (forall y, In y l -> y <= q) -> count_gt q l = O.
Proof.
  unfold count_gt. induction l as [|y l IH]; intros H; simpl; auto.
  replace (Qltb q y) with false.
  - apply IH. intros; apply H; right; auto.
  - symmetry. apply Qltb_false. apply H. left; auto.
Qed.

Lemma Sorted_mono {A} (R R' : A -> A -> Prop) l :
  (forall a b, R a b -> R' a b) -> Sorted R l -> Sorted R' l.
Proof.
  intros HR. induction 1 as [|a l Hs IH Hhd]; constructor; auto.
  destruct Hhd; constructor; auto.
Qed.

(** ** [rank_min_desc] is competition ranking *)

Lemma StronglySorted_app_inv {A} (R : A -> A -> Prop) l1 l2 :
  StronglySorted R (l1 ++ l2) ->
  StronglySorted R l2 /\ (forall x y, In x l1 -> In y l2 -> R x y).
Proof.
  induction l1 as [|a l1 IH]; simpl; intros H.
  - split; auto. intros x y [].
  - apply StronglySorted_inv in H as [H1 H2].
    destruct (IH H1) as [IH1 IH2]. split; auto.
    intros x y [<-|Hx] Hy; auto.
    rewrite Forall_forall in H2. apply H2, in_or_app. right; auto.
Qed.

Lemma assign_min_ranks_spec S : forall P pos start prev,
  StronglySorted desc_rel (P ++ S) ->
  pos = List.length P ->
  match prev with
  | None => P = []
  | Some p => (forall x, In x P -> p <= snd x) /\ (exists x, In x P /\ snd x == p)
              /\ start = count_gt p (map snd P)
  end ->
  forall i r, In (i, r) (assign_min_ranks pos start prev S) ->
  exists q, In (i, q) S /\ r = (Z.of_nat (count_gt q (map snd (P ++ S))) + 1)%Z.
Proof.
  induction S as [|[j q] S IH]; intros P pos start prev Hs Hpos Hprev i r Hin.
  - destruct Hin.
  - pose proof (StronglySorted_app_inv _ _ _ Hs) as [Hs2 HPS].
    apply StronglySorted_inv in Hs2 as [_ HS'].
    rewrite Forall_forall in HS'.
    set (start' := match prev with
                   | Some p => if Qeq_bool p q then start else pos
                   | None => pos
                   end).
    assert (HA : start' = count_gt q (map snd P)).
    { unfold start'. destruct prev as [p|].
      - destruct Hprev as (Hge & (x & Hx & Hxp) & Hst).
        assert (Hqx : q <= snd x) by (apply (HPS x (j, q) Hx); left; auto).
        destruct (Qeq_bool p q) eqn:E.
        + rewrite Hst. apply count_gt_compat. apply Qeq_bool_eq. exact E.
        + apply Qeq_bool_neq in E.
          assert (Hqp : q < p).
          { apply Qle_lt_or_eq in Hqx as [Hlt|Heq].
            - rewrite <- Hxp. exact Hlt.
            - exfalso. apply E. rewrite <- Hxp, Heq. reflexivity. }
          rewrite count_gt_all, length_map; auto.
          intros y Hy. apply in_map_iff in Hy as (z & <- & Hz).
          apply Qlt_le_trans with p; auto.
      - subst P. unfold start'. simpl in Hpos. subst pos. reflexivity. }
    simpl in Hin. fold start' in Hin.
    destruct Hin as [Heq|Hin].
    + inversion Heq; subst i r. exists q. split; [left; auto|].
      rewrite map_app, count_gt_app. simpl.
      unfold count_gt at 2. simpl.
      replace (Qltb q q) with false by (symmetry; apply Qltb_false; apply Qle_refl).
      fold (count_gt q (map snd S)).
      rewrite (count_gt_none q (map snd S)).
      * rewrite <- HA. lia.
      * intros y Hy. apply in_map_iff in Hy as (z & <- & Hz). apply (HS' z Hz).
    + destruct (IH (P ++ [(j, q)]) (Nat.succ pos) start' (Some q)) with (i := i) (r := r)
        as (q' & Hq' & Hr).
      * rewrite <- app_assoc. exact Hs.
      * rewrite length_app, Hpos. simpl. rewrite Nat.add_1_r. reflexivity.
      * split; [|split].
        -- intros x Hx. apply in_app_or in Hx as [Hx|[<-|[]]].
           ++ apply (HPS x (j, q) Hx). left; auto.
           ++ apply Qle_refl.
        -- exists (j, q). split; [apply in_or_app; right; left; auto|reflexivity].
        -- rewrite map_app, count_gt_app. unfold count_gt at 2. simpl.
           replace (Qltb q q) with false by (symmetry; apply Qltb_false; apply Qle_refl).
           simpl. rewrite HA. lia.
      * exact Hin.
      * exists q'. split; [right; exact Hq'|]. rewrite Hr, <- app_assoc. reflexivity.
Qed.

Lemma assign_min_ranks_fst S : forall pos start prev,
  map fst (assign_min_ranks pos start prev S) = map fst S.
Proof.
  induction S as [|[j q] S IH]; intros; simpl; auto. f_equal. apply IH.
Qed.

Lemma find_fst_in (L : list (nat * Z)) i :
  In i (map fst L) -> exists r, find (fun e => Nat.eqb (fst e) i) L = Some (i, r) /\ In (i, r) L.
Proof.
  induction L as [|[k r] L IH]; simpl; intros H; [destruct H|].
  destruct (Nat.eqb k i) eqn:E.
  - apply Nat.eqb_eq in E. subst k. exists r. auto.
  - destruct H as [->|H]; [rewrite Nat.eqb_refl in E; discriminate|].
    destruct (IH H) as (r' & H1 & H2). exists r'. auto.
Qed.

Lemma combine_seq_in (V : list Q) : forall k i q,
  In (i, q) (combine (seq k (List.length V)) V) -> (k <= i)%nat /\ nth (i - k) V 0 = q.
Proof.
  induction V as [|v V IH]; intros k i q H; simpl in H; [destruct H|].
  destruct H as [H|H].
  - inversion H; subst. rewrite Nat.sub_diag. simpl. auto.
  - destruct (IH (S k) i q H) as [H1 H2]. split; [lia|].
    replace (i - k)%nat with (S (i - S k)) by lia. exact H2.
Qed.

Lemma combine_seq_fst (V : list Q) : forall k,
  map fst (combine (seq k (List.length V)) V) = seq k (List.length V).
Proof.
  induction V as [|v V IH]; intros k; simpl; auto. f_equal. apply IH.
Qed.

Lemma rank_min_desc_nth (vals : list Q) i :
  (i < List.length vals)%nat ->
  nth i (rank_min_desc vals) 0%Z = (Z.of_nat (count_gt (nth i vals 0%Q) vals) + 1)%Z.
Proof.
  intros Hi. unfold rank_min_desc.
  set (I := combine (seq 0 (List.length vals)) vals).
  set (S := sort_by desc_le I).
  assert (HP : Permutation I S) by apply sort_by_perm.
  assert (HS : StronglySorted desc_rel S).
  { apply Sorted_StronglySorted.
    - intros [a x] [b y] [c z]; unfold desc_rel; simpl. intros H1 H2.
      apply Qle_trans with y; auto.
    - eapply Sorted_mono; [|apply sort_by_sorted].
      + intros [a x] [b y]; unfold desc_le, desc_rel; simpl. apply Qle_bool_imp_le.
      + intros [a x] [b y]; unfold desc_le; simpl. intros H.
        apply Qle_bool_iff. destruct (Qlt_le_dec x y) as [H'|H']; [|exfalso].
        * apply Qlt_le_weak. exact H'.
        * apply Qle_bool_iff in H'. congruence. }
  rewrite nth_indep with (d' := lookup_rank (assign_min_ranks 0 0 None S) 0%nat)
    by (rewrite length_map, length_seq; exact Hi).
  rewrite map_nth, seq_nth by exact Hi. simpl.
  assert (Hin : In i (map fst (assign_min_ranks 0 0 None S))).
  { rewrite assign_min_ranks_fst.
    apply (Permutation_in _ (Permutation_map fst HP)).
    unfold I. rewrite combine_seq_fst. apply in_seq. lia. }
  destruct (find_fst_in _ _ Hin) as (r & Hf & Hr).
  unfold lookup_rank. rewrite Hf.
  destruct (assign_min_ranks_spec S [] 0 0 None HS eq_refl eq_refl i r Hr) as (q & Hq & ->).
  assert (HqI : In (i, q) I) by (apply (Permutation_in _ (Permutation_sym HP)); exact Hq).
  apply combine_seq_in in HqI as [_ Hnth]. rewrite Nat.sub_0_r in Hnth. subst q.
  assert (Hv : map snd I = vals).
  { unfold I. clear. generalize 0%nat. induction vals as [|v V IH]; intros k; simpl; auto.
    f_equal. apply IH. }
  simpl. f_equal. f_equal. symmetry. apply count_gt_perm.
  rewrite <- Hv. apply Permutation_map. exact HP.
Qed.

Lemma count_gt_snoc_le q y l : y <= q -> count_gt q (l ++ [y]) = count_gt q l.
Proof.
  intros H. rewrite count_gt_app. unfold count_gt at 2. simpl.
  replace (Qltb q y) with false by (symmetry; apply Qltb_false; exact H).
  simpl. lia.
Qed.

(** Claim C4: the rank that [Series.rank(ascending=False, method="min")]
    gives each score is one plus the number of strictly greater scores, so
    equal scores share the minimum rank; appending a row whose score repeats
    the score of row [j] gives the new row the rank of row [j] and leaves the
    rank of every row scoring at least as high unchanged, while every rank
    still counts the strictly better rows of the new table plus one. *)
Theorem rank_min_competition (vals : list Q) :
  (forall i, (i < List.length vals)%nat ->
     nth i (rank_min_desc vals) 0%Z = (Z.of_nat (count_gt (nth i vals 0%Q) vals) + 1)%Z) /\
  (forall i j, (i < List.length vals)%nat -> (j < List.length vals)%nat ->
     nth i vals 0 == nth j vals 0 ->
     nth i (rank_min_desc vals) 0%Z = nth j (rank_min_desc vals) 0%Z) /\
  (forall j, (j < List.length vals)%nat ->
     let vals' := vals ++ [nth j vals 0] in
     nth (List.length vals) (rank_min_desc vals') 0%Z = nth j (rank_min_desc vals) 0%Z /\
     (forall i, (i < List.length vals)%nat -> nth j vals 0 <= nth i vals 0 ->
        nth i (rank_min_desc vals') 0%Z = nth i (rank_min_desc vals) 0%Z) /\
     (forall i, (i < List.length vals')%nat ->
        nth i (rank_min_desc vals') 0%Z = (Z.of_nat (count_gt (nth i vals' 0%Q) vals') + 1)%Z)).
Proof.
  split; [|split].
  - apply rank_min_desc_nth.
  - intros i j Hi Hj Heq. rewrite !rank_min_desc_nth by assumption.
    rewrite (count_gt_compat _ _ _ Heq). reflexivity.
  - intros j Hj vals'.
    assert (Hlen : List.length vals' = S (List.length vals))
      by (unfold vals'; rewrite length_app; simpl; lia).
    split; [|split].
    + rewrite rank_min_desc_nth by lia. rewrite rank_min_desc_nth by exact Hj.
      unfold vals'. rewrite nth_middle.
      rewrite count_gt_snoc_le by apply Qle_refl. reflexivity.
    + intros i Hi Hle. rewrite rank_min_desc_nth by lia. rewrite rank_min_desc_nth by exact Hi.
      unfold vals'. rewrite app_nth1 by exact Hi.
      rewrite count_gt_snoc_le by exact Hle. reflexivity.
    + intros i Hi. apply rank_min_desc_nth. exact Hi.
Qed.

Lemma rank_min_competition_witness :
  nth 1 (rank_min_desc [3; 5; 3]%Q) 0%Z = 1%Z /\
  nth 0 (rank_min_desc [3; 5; 3]%Q) 0%Z = nth 2 (rank_min_desc [3; 5; 3]%Q) 0%Z /\
  nth 3 (rank_min_desc ([3; 5; 3] ++ [nth 0 [3; 5; 3] 0])%Q) 0%Z = nth 0 (rank_min_desc [3; 5; 3]%Q) 0%Z.
Proof.
  destruct (rank_min_competition [3; 5; 3]%Q) as (H1 & H2 & H3).
  split; [|split].
  - rewrite (H1 1%nat) by (simpl; lia). vm_compute. reflexivity.
  - apply H2; [simpl; lia | simpl; lia | reflexivity].
  - destruct (H3 0%nat) as (H4 & _ & _); [simpl; lia|]. exact H4.
Defined.

(** ** DataFrame operations *)

Lemma get_assoc_set_same c v r : get c (assoc_set c v r) = v.
Proof.
  unfold get, lookup. induction r as [|[k w] r IH]; simpl.
  - rewrite String.eqb_refl. reflexivity.
  - destruct (String.eqb k c) eqn:E; simpl.
    + rewrite E. reflexivity.
    + rewrite E. exact IH.
Qed.

Lemma get_assoc_set_other c c' v r : c <> c' -> get c' (assoc_set c v r) = get c' r.
Proof.
  intros Hne. unfold get, lookup. induction r as [|[k w] r IH]; simpl.
  - replace (String.eqb c c') with false by (symmetry; apply String.eqb_neq; auto).
    reflexivity.
  - destruct (String.eqb k c) eqn:E; simpl.
    + apply String.eqb_eq in E. subst k.
      replace (String.eqb c c') with false by (symmetry; apply String.eqb_neq; auto).
      reflexivity.
    + destruct (String.eqb k c'); auto.
Qed.

Lemma has_col_set_col_same c vals df : has_col c (set_col c vals df) = true.
Proof.
  unfold set_col, has_col. simpl. destruct (existsb (String.eqb c) (columns df)) eqn:E.
  - exact E.
  - rewrite existsb_app. simpl. rewrite String.eqb_refl. rewrite orb_true_r. reflexivity.
Qed.

Lemma has_col_set_col_keep c c' vals df :
  has_col c df = true -> has_col c (set_col c' vals df) = true.
Proof.
  unfold set_col, has_col. simpl. intros H. destruct (existsb (String.eqb c') (columns df)).
  - exact H.
  - rewrite existsb_app, H. reflexivity.
Qed.

Lemma get_project_row cols c r : In c cols -> get c (project_row cols r) = get c r.
Proof.
  unfold get, lookup, project_row. induction cols as [|c' cols IH]; simpl; intros H; [destruct H|].
  destruct (String.eqb c' c) eqn:E; simpl.
  - apply String.eqb_eq in E. subst. reflexivity.
  - apply IH. destruct H as [->|H]; auto. rewrite String.eqb_refl in E. discriminate.
Qed.

Lemma has_col_In c df : has_col c df = true -> In c (columns df).
Proof.
  unfold has_col. intros H. apply existsb_exists in H as (x & Hx & E).
  apply String.eqb_eq in E. subst. exact Hx.
Qed.

Lemma all_numeric_spec cs v : all_numeric cs = Some v -> map to_numeric cs = map Some v.
Proof.
  revert v. induction cs as [|c cs IH]; simpl; intros v H.
  - inversion H. reflexivity.
  - destruct (to_numeric c) eqn:E1; [|discriminate].
    destruct (all_numeric cs) eqn:E2; [|discriminate].
    inversion H; subst. simpl. f_equal. apply IH. reflexivity.
Qed.

Lemma in_map_combine_nth {A B C} (f : A * B -> C) (la : list A) (lb : list B) da db x :
  List.length la = List.length lb ->
  In x (map f (combine la lb)) ->
  exists k, (k < List.length la)%nat /\ x = f (nth k la da, nth k lb db).
Proof.
  intros Hlen Hx. apply in_map_iff in Hx as ([a b] & <- & Hab).
  apply (In_nth _ _ (da, db)) in Hab as (k & Hk & Hn).
  rewrite length_combine, Hlen, Nat.min_id in Hk.
  rewrite combine_nth in Hn by exact Hlen. inversion Hn; subst.
  exists k. split; [lia|reflexivity].
Qed.

Lemma count_gt_mono q1 q2 l : q1 <= q2 -> (count_gt q2 l <= count_gt q1 l)%nat.
Proof.
  intros H. unfold count_gt. induction l as [|y l IH]; simpl; auto.
  destruct (Qltb q2 y) eqn:E2; simpl.
  - replace (Qltb q1 y) with true; simpl; [lia|].
    symmetry. apply Qltb_iff. apply Qltb_iff in E2. apply Qle_lt_trans with q2; auto.
  - destruct (Qltb q1 y); simpl; lia.
Qed.

Lemma count_gt_strict q1 q2 l : q1 < q2 -> In q2 l -> (count_gt q2 l < count_gt q1 l)%nat.
Proof.
  intros H. unfold count_gt. induction l as [|y l IH]; simpl; intros Hin; [destruct Hin|].
  destruct Hin as [->|Hin].
  - replace (Qltb q2 q2) with false by (symmetry; apply Qltb_false; apply Qle_refl).
    replace (Qltb q1 q2) with true by (symmetry; apply Qltb_iff; exact H). simpl.
    pose proof (count_gt_mono q1 q2 l (Qlt_le_weak _ _ H)). unfold count_gt in H0. lia.
  - specialize (IH Hin).
    destruct (Qltb q2 y) eqn:E2; simpl.
    + replace (Qltb q1 y) with true; simpl; [lia|].
      symmetry. apply Qltb_iff. apply Qltb_iff in E2. apply Qlt_trans with q2; auto.
    + destruct (Qltb q1 y); simpl; lia.
Qed.

Lemma nth_map' {A B} (f : A -> B) l k d d' :
  (k < List.length l)%nat -> nth k (map f l) d' = f (nth k l d).
Proof.
  intros H. rewrite (nth_indep _ d' (f d)) by (rewrite length_map; exact H). apply map_nth.
Qed.

Lemma set_score_and_rank_rows total work w' :
  set_score_and_rank total work = Ok w' ->
  exists v, (forall r, In r (rows w') -> ranked_row v r) /\
            has_col "rank" w' = true /\ has_col "score_total" w' = true.
Proof.
  unfold set_score_and_rank.
  set (w1 := set_col "score_total" _ work).
  destruct (all_numeric (get_col "score_total" w1)) as [v|] eqn:Hv; [|discriminate].
  intros H. inversion H as [Hw]. clear H. exists v.
  split; [|split].
  - intros r Hr. apply all_numeric_spec in Hv.
    assert (Hlen : List.length (rows w1) = List.length v).
    { rewrite <- (length_map Some v), <- Hv. unfold get_col. rewrite !length_map. reflexivity. }
    assert (Hlen2 : List.length (rows w1) = List.length (map CInt (rank_min_desc v))).
    { rewrite length_map. unfold rank_min_desc. rewrite length_map, length_seq. exact Hlen. }
    simpl in Hr.
    destruct (in_map_combine_nth (fun rv => assoc_set "rank" (snd rv) (fst rv))
                (rows w1) _ [] (CInt 0) r Hlen2 Hr) as (k & Hk & ->).
    simpl. exists (nth k v 0). split; [|split].
    + rewrite get_assoc_set_other by discriminate.
      assert (E := f_equal (fun l => nth k l None) Hv). simpl in E.
      unfold get_col in E. rewrite map_map in E.
      rewrite (nth_map' (fun x => to_numeric (get "score_total" x)) (rows w1) k [] None) in E
        by exact Hk.
      rewrite (nth_map' Some v k 0 None) in E by lia.
      exact E.
    + apply nth_In. lia.
    + rewrite get_assoc_set_same.
      rewrite (nth_map' _ _ _ 0%Z) by (unfold rank_min_desc; rewrite length_map, length_seq; lia).
      rewrite rank_min_desc_nth by lia. reflexivity.
  - apply has_col_set_col_same.
  - apply has_col_set_col_keep, has_col_set_col_same.
Qed.

Lemma Qltb_irrefl_eq a b : a == b -> Qltb a b = false.
Proof. intros H. apply Qltb_false. rewrite H. apply Qle_refl. Qed.

Lemma ranked_row_facts v a b :
  ranked_row v a -> ranked_row v b ->
  (row_score a == row_score b -> row_rank a = row_rank b) /\
  (row_score a < row_score b -> (row_rank b < row_rank a)%Z).
Proof.
  intros (qa & Ha1 & Ha2 & Ha3) (qb & Hb1 & Hb2 & Hb3).
  unfold row_score, row_rank. rewrite Ha1, Hb1, Ha3, Hb3. split.
  - intros H. rewrite (count_gt_compat _ _ _ H). reflexivity.
  - intros H. pose proof (count_gt_strict qa qb v H Hb2). lia.
Qed.

Lemma lex_le_ranked v a b :
  ranked_row v a -> ranked_row v b -> lex_le ["rank"; "score_total"]%string a b = true ->
  (row_rank a < row_rank b)%Z \/ (row_rank a = row_rank b /\ row_score b <= row_score a).
Proof.
  intros Ha Hb H.
  destruct (ranked_row_facts v a b Ha Hb) as [_ Hab].
  destruct (ranked_row_facts v b a Hb Ha) as [_ Hba].
  assert (Hle : (row_rank a <= row_rank b)%Z).
  { destruct Ha as (qa & _ & _ & Ha3), Hb as (qb & _ & _ & Hb3).
    unfold row_rank. rewrite Ha3, Hb3. unfold lex_le in H. rewrite Ha3, Hb3 in H. simpl in H.
    destruct (Qltb (inject_Z (Z.of_nat (count_gt qb v) + 1)) (inject_Z (Z.of_nat (count_gt qa v) + 1))) eqn:E.
    - destruct (Qltb (inject_Z (Z.of_nat (count_gt qa v) + 1))
                     (inject_Z (Z.of_nat (count_gt qb v) + 1))) eqn:E'.
      + apply Qltb_iff in E'. rewrite <- Zlt_Qlt in E'. lia.
      + discriminate.
    - apply Qltb_false in E. rewrite <- Zle_Qle in E. exact E. }
  destruct (Z.lt_ge_cases (row_rank a) (row_rank b)) as [Hlt|Hge]; [left; exact Hlt|].
  right. split; [lia|].
  destruct (Qlt_le_dec (row_score a) (row_score b)) as [Hs|Hs]; auto.
  apply Hab in Hs. lia.
Qed.

Lemma lex_le_same_score v a b :
  ranked_row v a -> ranked_row v b -> row_score a == row_score b ->
  lex_le ["rank"; "score_total"]%string a b = true.
Proof.
  intros Ha Hb Hs.
  destruct (ranked_row_facts v a b Ha Hb) as [Hr _].
  specialize (Hr Hs).
  destruct Ha as (qa & Ha1 & _ & Ha3), Hb as (qb & Hb1 & _ & Hb3).
  unfold row_rank in Hr. rewrite Ha3, Hb3 in Hr.
  unfold row_score in Hs. rewrite Ha1, Hb1 in Hs.
  unfold lex_le. rewrite Ha3, Hb3, Ha1, Hb1. simpl. rewrite Hr.
  rewrite (Qltb_irrefl_eq (inject_Z (Z.of_nat (count_gt qb v) + 1))) by reflexivity.
  rewrite (Qltb_irrefl_eq qa qb Hs).
  rewrite (Qltb_irrefl_eq qb qa (Qeq_sym _ _ Hs)).
  reflexivity.
Qed.

Lemma lex_le_total ks a b : lex_le ks a b = false -> lex_le ks b a = true.
Proof.
  induction ks as [|k ks IH]; simpl; [discriminate|].
  destruct (to_numeric (get k a)) as [x|], (to_numeric (get k b)) as [y|]; auto.
  destruct (Qltb x y) eqn:E1; [discriminate|].
  destruct (Qltb y x) eqn:E2; auto.
Qed.

Lemma Sorted_map_in {A B} (R : A -> A -> Prop) (R' : B -> B -> Prop) (f : A -> B) l :
  (forall a b, In a l -> In b l -> R a b -> R' (f a) (f b)) ->
  Sorted R l -> Sorted R' (map f l).
Proof.
  intros HR Hs. induction Hs as [|a l Hs IH Hhd]; simpl; constructor.
  - apply IH. intros x y Hx Hy. apply HR; right; auto.
  - destruct Hhd as [|b l' Hab]; simpl; constructor. apply HR; auto; [left|right; left]; auto.
Qed.

Lemma filter_map_comm {A B} (P : B -> bool) (f : A -> B) l :
  filter P (map f l) = map f (filter (fun x => P (f x)) l).
Proof.
  induction l as [|x l IH]; simpl; auto. destruct (P (f x)); simpl; congruence.
Qed.

(** Claim C3: the table that [rank_from_csv] orders is sorted by rank
    ascending and, within a rank, by [score_total] descending; and for every
    score value, the rows with exactly that score keep the order they had
    in the table before sorting (the output rows are those rows with their
    columns reordered). *)
Theorem rank_order_stable total work w' comp_cols :
  set_score_and_rank total work = Ok w' ->
  let out := order_table comp_cols w' in
  Sorted (fun a b => (row_rank a < row_rank b)%Z \/
                     (row_rank a = row_rank b /\ row_score b <= row_score a)) (rows out) /\
  (forall s, filter (fun r => Qeq_bool (row_score r) s) (rows out) =
             map (project_row (columns out)) (filter (fun r => Qeq_bool (row_score r) s) (rows w'))).
Proof.
  intros H out.
  destruct (set_score_and_rank_rows _ _ _ H) as (v & Hrows & Hrank & Hscore).
  set (cols := columns out).
  assert (Hin : forall c, has_col c w' = true ->
                In c ["rank"; "ticker"; "name"; "score_total"]%string -> In c cols).
  { intros c Hc Hl. unfold cols, out, order_table. simpl. apply in_or_app. left.
    unfold front_cols. apply filter_In. split; auto.
    apply in_or_app. simpl in Hl |- *.
    destruct Hl as [<-|[<-|[<-|[<-|[]]]]]; auto.
    right. apply in_or_app. right. left. reflexivity. }
  assert (Hrk : forall r, row_rank (project_row cols r) = row_rank r).
  { intros r. unfold row_rank. rewrite get_project_row; auto. apply Hin; simpl; auto. }
  assert (Hsc : forall r, row_score (project_row cols r) = row_score r).
  { intros r. unfold row_score. rewrite get_project_row; auto. apply Hin; simpl; auto 6. }
  assert (Hout : rows out = map (project_row cols) (sort_by (lex_le ["rank"; "score_total"]%string) (rows w')))
    by reflexivity.
  split.
  - rewrite Hout. apply Sorted_map_in with (R := fun a b => lex_le ["rank"; "score_total"]%string a b = true).
    + intros a b Ha Hb Hab. rewrite !Hrk, !Hsc.
      assert (Hperm := sort_by_perm (lex_le ["rank"; "score_total"]%string) (rows w')).
      apply (lex_le_ranked v); auto; apply Hrows;
        apply (Permutation_in _ (Permutation_sym Hperm)); auto.
    + apply sort_by_sorted. apply lex_le_total.
  - intros s. rewrite Hout, filter_map_comm. f_equal.
    rewrite (filter_ext (fun x => Qeq_bool (row_score (project_row cols x)) s)
                        (fun r => Qeq_bool (row_score r) s)) by (intro; rewrite Hsc; reflexivity).
    apply filter_sort_by_stable.
    intros x y Hx Hy Px Py. apply (lex_le_same_score v); auto.
    apply Qeq_bool_eq in Px, Py. rewrite Px, Py. reflexivity.
Qed.

(** ** Minimum and maximum folds *)

Lemma fold_min_le_init vs a : fold_left Qmin vs a <= a.
Proof.
  revert a. induction vs as [|y vs IH]; intros a; simpl; [apply Qle_refl|].
  apply Qle_trans with (Qmin a y); [apply IH|apply Q.le_min_l].
Qed.

Lemma fold_min_le_in vs a w : In w vs -> fold_left Qmin vs a <= w.
Proof.
  revert a. induction vs as [|y vs IH]; intros a Hw; simpl; [destruct Hw|].
  destruct Hw as [->|Hw]; auto.
  apply Qle_trans with (Qmin a w); [apply fold_min_le_init|apply Q.le_min_r].
Qed.

Lemma fold_min_glb vs a p : p <= a -> (forall w, In w vs -> p <= w) -> p <= fold_left Qmin vs a.
Proof.
  revert a. induction vs as [|y vs IH]; intros a Ha Hw; simpl; auto.
  apply IH.
  - apply Q.min_glb; auto. apply Hw; left; auto.
  - intros w Hw'. apply Hw; right; auto.
Qed.

Lemma fold_max_ge_init vs a : a <= fold_left Qmax vs a.
Proof.
  revert a. induction vs as [|y vs IH]; intros a; simpl; [apply Qle_refl|].
  apply Qle_trans with (Qmax a y); [apply Q.le_max_l|apply IH].
Qed.

Lemma fold_max_ge_in vs a w : In w vs -> w <= fold_left Qmax vs a.
Proof.
  revert a. induction vs as [|y vs IH]; intros a Hw; simpl; [destruct Hw|].
  destruct Hw as [->|Hw]; auto.
  apply Qle_trans with (Qmax a w); [apply Q.le_max_r|apply fold_max_ge_init].
Qed.

Lemma fold_max_lub vs a p : a <= p -> (forall w, In w vs -> w <= p) -> fold_left Qmax vs a <= p.
Proof.
  revert a. induction vs as [|y vs IH]; intros a Ha Hw; simpl; auto.
  apply IH.
  - apply Q.max_lub; auto. apply Hw; left; auto.
  - intros w Hw'. apply Hw; right; auto.
Qed.

Lemma nanmin_le s lo w : nanmin s = Some lo -> In (Some w) s -> lo <= w.
Proof.
  unfold nanmin. intros H Hw.
  assert (Hp : In w (present s)).
  { unfold present. apply in_flat_map. exists (Some w). simpl; auto. }
  destruct (present s) as [|v vs]; [destruct Hp|].
  inversion H; subst. destruct Hp as [<-|Hp]; [apply fold_min_le_init|apply fold_min_le_in; auto].
Qed.

Lemma nanmax_ge s hi w : nanmax s = Some hi -> In (Some w) s -> w <= hi.
Proof.
  unfold nanmax. intros H Hw.
  assert (Hp : In w (present s)).
  { unfold present. apply in_flat_map. exists (Some w). simpl; auto. }
  destruct (present s) as [|v vs]; [destruct Hp|].
  inversion H; subst. destruct Hp as [<-|Hp]; [apply fold_max_ge_init|apply fold_max_ge_in; auto].
Qed.

Lemma sort_by_length {A} (le : A -> A -> bool) l : List.length (sort_by le l) = List.length l.
Proof. symmetry. apply Permutation_length, sort_by_perm. Qed.

Lemma median_None s : median s = None -> present s = [].
Proof.
  unfold median. cbv zeta. rewrite sort_by_length.
  destruct (present s) as [|v vs]; auto.
  intros H. exfalso. revert H.
  case (Nat.even (List.length (v :: vs))); discriminate.
Qed.

(** A missing entry survives [fillna] only when the median is NaN, that is
    when every entry is missing; so [nanmin] of the filled series is then
    NaN. *)
Lemma filled_None s x :
  x = map (fun o => match o with Some v => Some v | None => median s end) s ->
  In None x -> present x = [].
Proof.
  intros -> Hn. apply in_map_iff in Hn as (o & Ho & _).
  destruct o; [discriminate|].
  pose proof (median_None s Ho) as Hp.
  rewrite Ho. clear Ho.
  induction s as [|[v|] s IH]; simpl in *; auto. discriminate.
Qed.

Lemma present_map_opt (f : Q -> Q) l :
  present (map (option_map f) l) = map f (present l).
Proof. induction l as [|[v|] l IH]; simpl; congruence. Qed.

Lemma in_present s w : In w (present s) <-> In (Some w) s.
Proof.
  induction s as [|[v|] s IH]; simpl; [tauto| |].
  - rewrite IH. split; intros [H|H]; auto; left; congruence.
  - rewrite IH. split; auto. intros [H|H]; [discriminate|auto].
Qed.

Lemma norm_bounds lo hi w : lo <= w -> w <= hi -> ~ hi == lo ->
  0 <= (w - lo) / (hi - lo) <= 1.
Proof.
  intros H1 H2 H3.
  assert (Hd : 0 < hi - lo).
  { assert (lo < hi) by (apply Qle_lteq in H1 as [?|?]; apply Qle_lteq in H2 as [?|?];
      [eapply Qlt_trans; eauto|rewrite <- H0; auto|rewrite H; auto|
       exfalso; apply H3; rewrite <- H0, H; reflexivity]).
    unfold Qminus. rewrite <- (Qplus_opp_r lo). apply Qplus_lt_l. auto. }
  split.
  - apply Qle_shift_div_l; auto. rewrite Qmult_0_l.
    unfold Qminus. rewrite <- (Qplus_opp_r lo). apply Qplus_le_l. auto.
  - apply Qle_shift_div_r; auto. rewrite Qmult_1_l.
    unfold Qminus. apply Qplus_le_l. auto.
Qed.

Lemma dirnorm_shape series d : series <> [] ->
  exists g, _dirnorm series d = Ok (map g (map to_numeric series)) /\
  forall o, In o (map to_numeric series) -> exists v, g o = Some v /\ 0 <= v <= 1.
Proof.
  intros Hne. unfold _dirnorm. cbv zeta.
  set (s := map to_numeric series).
  set (fill := fun o => match o with Some v => Some v | None => median s end).
  set (h := fun o : option Q => if String.eqb d "negative" then option_map Qopp o else o).
  assert (Hx : (if String.eqb d "negative" then map (option_map Qopp) (map fill s) else map fill s)
               = map (fun o => h (fill o)) s).
  { unfold h. destruct (String.eqb d "negative"); [rewrite map_map|]; reflexivity. }
  change (map (fun o => match o with Some v => Some v | None => median s end) s) with (map fill s).
  rewrite Hx.
  assert (HxNone : In None (map (fun o => h (fill o)) s) -> present (map (fun o => h (fill o)) s) = []).
  { intros Hn. rewrite <- Hx. rewrite <- Hx in Hn.
    assert (Hf : In None (map fill s) -> present (map fill s) = []) by (apply (filled_None s); reflexivity).
    destruct (String.eqb d "negative").
    - rewrite present_map_opt, Hf; auto.
      apply in_map_iff in Hn as ([v|] & Hv & Hin); [discriminate|exact Hin].
    - auto. }
  assert (Hne' : map (fun o => h (fill o)) s <> []).
  { unfold s. destruct series; [contradiction|discriminate]. }
  destruct (map (fun o => h (fill o)) s) as [|a l] eqn:E; [contradiction|].
  rewrite <- E. rewrite <- E in HxNone.
  assert (Hhalf : exists g, Ok (map (fun _ : cell => Some (1 # 2)) series) = Ok (map g s) /\
            forall o, In o s -> exists v, g o = Some v /\ 0 <= v <= 1).
  { exists (fun _ => Some (1 # 2)). split; [unfold s; rewrite map_map; reflexivity|].
    intros o _. eexists; split; [reflexivity|]. split; unfold Qle; simpl; lia. }
  destruct (nanmin (map (fun o => h (fill o)) s)) as [lo|] eqn:Hlo; [|exact Hhalf].
  destruct (nanmax (map (fun o => h (fill o)) s)) as [hi|] eqn:Hhi; [|exact Hhalf].
  destruct (Qeq_bool hi lo) eqn:Heq; [exact Hhalf|].
  exists (fun o => option_map (fun v => (v - lo) / (hi - lo)) (h (fill o))).
  split; [rewrite map_map; reflexivity|].
  intros o Ho.
  assert (Hin : In (h (fill o)) (map (fun o => h (fill o)) s)) by (apply (in_map (fun o => h (fill o))); auto).
  destruct (h (fill o)) as [w|] eqn:Ew.
  - eexists; split; [reflexivity|]. apply norm_bounds.
    + eapply nanmin_le; eauto.
    + eapply nanmax_ge; eauto.
    + apply Qeq_bool_neq; auto.
  - unfold nanmin in Hlo. rewrite HxNone in Hlo; auto. discriminate.
Qed.

Lemma fold_min_le_cons y0 ys w : In w (y0 :: ys) -> fold_left Qmin ys y0 <= w.
Proof.
  intros [<-|H]; [apply fold_min_le_init|apply fold_min_le_in; auto].
Qed.

Lemma fold_max_ge_cons y0 ys w : In w (y0 :: ys) -> w <= fold_left Qmax ys y0.
Proof.
  intros [<-|H]; [apply fold_max_ge_init|apply fold_max_ge_in; auto].
Qed.

(** The last step of [_dirnorm] on a series whose entries are all the same:
    either all NaN, or [lo == hi]; both give the neutral 0.5. *)
Lemma dirnorm_tail (series : list cell) (X : list (option Q)) e0 :
  X <> [] -> (forall e, In e X -> e = e0) ->
  (match X with
   | [] => Err ValueError
   | _ =>
     match nanmin X, nanmax X with
     | Some lo, Some hi =>
       if Qeq_bool hi lo then Ok (map (fun _ => Some (1 # 2)) series)
       else Ok (map (option_map (fun v => (v - lo) / (hi - lo))) X)
     | _, _ => Ok (map (fun _ => Some (1 # 2)) series)
     end
   end) = Ok (map (fun _ => Some (1 # 2)) series).
Proof.
  intros Hne Hall. destruct X as [|a X]; [contradiction|].
  destruct (nanmin (a :: X)) as [lo|] eqn:Hlo; [|reflexivity].
  destruct (nanmax (a :: X)) as [hi|] eqn:Hhi; [|reflexivity].
  destruct e0 as [c|].
  - assert (Hq : hi == lo).
    { unfold nanmin in Hlo. unfold nanmax in Hhi.
      assert (Hp : forall w, In w (present (a :: X)) -> w = c).
      { intros w Hw. apply in_present, Hall in Hw. congruence. }
      destruct (present (a :: X)) as [|v vs]; [discriminate|].
      injection Hlo as <-. injection Hhi as <-.
      assert (Hv : v = c) by (apply Hp; left; auto).
      assert (Hvs : forall w, In w vs -> w = c) by (intros; apply Hp; right; auto).
      subst v.
      assert (Hc : c <= fold_left Qmin vs c)
        by (apply fold_min_glb; [apply Qle_refl|intros w Hw; rewrite (Hvs w Hw); apply Qle_refl]).
      apply Qle_antisym.
      - apply fold_max_lub; auto. intros w Hw. rewrite (Hvs w Hw). auto.
      - apply Qle_trans with c; [apply fold_min_le_init|apply fold_max_ge_init]. }
    apply Qeq_bool_iff in Hq. rewrite Hq. reflexivity.
  - exfalso. unfold nanmin in Hlo.
    assert (Hp : present (a :: X) = []).
    { destruct (present (a :: X)) as [|w ws] eqn:E; auto.
      assert (Hw : In (Some w) (a :: X)) by (apply in_present; rewrite E; left; auto).
      apply Hall in Hw. discriminate. }
    rewrite Hp in Hlo. discriminate.
Qed.




(** ** Attributes absent from the table *)

Lemma in_set_col_rows c vals df r :
  In r (rows (set_col c vals df)) ->
  exists r0 v, In r0 (rows df) /\ In v vals /\ r = assoc_set c v r0.
Proof.
  unfold set_col. simpl. intros H. apply in_map_iff in H as ([r0 v] & <- & Hin).
  exists r0, v. split; [eapply in_combine_l; eauto|]. split; [eapply in_combine_r; eauto|].
  reflexivity.
Qed.

Lemma lookup_mapped_diag m col :
  (forall e, In e m -> fst e = snd e) -> lookup_mapped m col = col.
Proof.
  intros H. unfold lookup_mapped.
  destruct (find (fun e => String.eqb (fst e) col) m) as [[a b]|] eqn:E; auto.
  apply find_some in E as [Hin Heq]. apply H in Hin. simpl in *.
  apply String.eqb_eq in Heq. congruence.
Qed.

Lemma setdefault_diag (p : prefs) m :
  (forall e, In e m -> fst e = snd e) ->
  forall e, In e (fold_left (fun m kv =>
                               if existsb (fun e => String.eqb (fst e) (fst kv)) m then m
                               else m ++ [(fst kv, fst kv)]) p m) -> fst e = snd e.
Proof.
  revert m. induction p as [|kv p IH]; simpl; intros m Hm; auto.
  apply IH. destruct (existsb _ m); auto.
  intros e He. apply in_app_or in He as [He|[<-|[]]]; auto.
Qed.

Lemma fold_left_fixed {A B} (f : A -> B -> A) l a :
  (forall b, In b l -> f a b = a) -> fold_left f l a = a.
Proof.
  induction l as [|b l IH]; simpl; intros H; auto.
  rewrite H by auto. apply IH. intros; apply H; auto.
Qed.

Lemma neutralize_absent qsqrt sn (p : prefs) df :
  (forall kv, In kv p -> has_col (fst kv) df = false) ->
  fst (neutralize qsqrt sn p df) = df /\
  forall col, lookup_mapped (snd (neutralize qsqrt sn p df)) col = col.
Proof.
  intros Habs. unfold neutralize.
  assert (Hm : forall col, lookup_mapped (fold_left (fun (m : list (string * string)) (kv : string * pref_cfg) =>
                               if existsb (fun e => String.eqb (fst e) (fst kv)) m then m
                               else m ++ [(fst kv, fst kv)]) p []) col = col).
  { intros col. apply lookup_mapped_diag. apply setdefault_diag. intros e []. }
  destruct (sn && has_col "sector" df); [|simpl; auto].
  rewrite (fold_left_fixed _ p (df, [])); [simpl; auto|].
  intros kv Hkv. unfold neutralize_step. cbn beta iota zeta. rewrite (Habs kv Hkv). reflexivity.
Qed.

Lemma score_step_skip mapped st col cfg :
  has_col (lookup_mapped mapped col) (ls_work st) = false ->
  score_step mapped st (col, cfg) = Ok st.
Proof. intros H. unfold score_step. rewrite H. reflexivity. Qed.

Lemma score_loop_absent mapped st (p : prefs) :
  (forall kv, In kv p -> has_col (lookup_mapped mapped (fst kv)) (ls_work st) = false) ->
  score_loop mapped st p = Ok st.
Proof.
  induction p as [|[col cfg] p IH]; intros H; [reflexivity|]. cbn [score_loop].
  rewrite score_step_skip by (apply (H (col, cfg)); left; auto). simpl.
  apply IH. intros kv Hkv. apply H. right. exact Hkv.
Qed.

Lemma all_numeric_zeros cs :
  (forall c, In c cs -> c = CNum 0) -> all_numeric cs = Some (map (fun _ => 0) cs).
Proof.
  induction cs as [|c cs IH]; simpl; intros H; auto.
  rewrite (H c (or_introl eq_refl)), IH by auto. reflexivity.
Qed.

(** With no [total], every row gets [score_total] 0.0 and rank 1. *)
Lemma set_score_and_rank_none work :
  exists w', set_score_and_rank None work = Ok w' /\
  has_col "rank" w' = true /\ has_col "score_total" w' = true /\
  forall r, In r (rows w') -> get "score_total" r = CNum 0 /\ get "rank" r = CInt 1.
Proof.
  unfold set_score_and_rank.
  set (w1 := set_col "score_total" (map (fun _ => CNum 0) (rows work)) work).
  assert (Hz : forall r, In r (rows w1) -> get "score_total" r = CNum 0).
  { intros r Hr. apply in_set_col_rows in Hr as (r0 & v & _ & Hv & ->).
    rewrite get_assoc_set_same. apply in_map_iff in Hv as (? & <- & _). reflexivity. }
  assert (Hc : forall c, In c (get_col "score_total" w1) -> c = CNum 0).
  { intros c Hc. unfold get_col in Hc. apply in_map_iff in Hc as (r & <- & Hr). auto. }
  rewrite (all_numeric_zeros _ Hc).
  set (v := map (fun _ => 0) (get_col "score_total" w1)).
  eexists. split; [reflexivity|]. split; [apply has_col_set_col_same|].
  split; [apply has_col_set_col_keep, has_col_set_col_same|].
  intros r Hr. apply in_set_col_rows in Hr as (r1 & x & Hr1 & Hx & ->).
  rewrite get_assoc_set_other by discriminate. rewrite get_assoc_set_same.
  split; [auto|].
  apply in_map_iff in Hx as (z & <- & Hz').
  apply (In_nth _ _ 0%Z) in Hz' as (i & Hi & <-).
  assert (Hi' : (i < List.length v)%nat)
    by (unfold rank_min_desc in Hi; rewrite length_map, length_seq in Hi; exact Hi).
  rewrite rank_min_desc_nth by exact Hi'.
  rewrite count_gt_none; [reflexivity|].
  intros y Hy. unfold v in Hy |- *. apply in_map_iff in Hy as (? & <- & _).
  rewrite (nth_map' _ _ _ CNaN) by (unfold v in Hi'; rewrite length_map in Hi'; exact Hi').
  apply Qle_refl.
Qed.

Lemma order_table_get comp_cols w c r :
  has_col c w = true -> In c ["rank"; "ticker"; "name"; "score_total"]%string ->
  In r (rows (order_table comp_cols w)) ->
  exists r', In r' (rows w) /\ get c r = get c r'.
Proof.
  intros Hc Hl Hr. unfold order_table, project, sort_values in Hr. cbn [rows] in Hr.
  apply in_map_iff in Hr as (r' & <- & Hr').
  exists r'. split.
  - apply (Permutation_in _ (Permutation_sym
             (sort_by_perm (lex_le ["rank"; "score_total"]%string) (rows w)))).
    exact Hr'.
  - apply get_project_row. apply in_or_app. left.
    unfold front_cols. apply filter_In. split; auto.
    apply in_or_app. simpl in Hl |- *.
    destruct Hl as [<-|[<-|[<-|[<-|[]]]]]; auto.
    right. apply in_or_app. right. left. reflexivity.
Qed.

(** * C7: an attribute whose (mapped) source column is not in the working
    table is skipped by the scoring loop, which carries its state on
    unchanged (no error); and when no attribute of the spec is a column of
    the table, [score_and_rank] succeeds and every row of the result has
    [score_total] 0.0 and rank 1. *)
Theorem absent_attributes_skipped qsqrt df (p0 : prefs) sn :
  (forall kv, In kv p0 -> has_col (fst kv) df = false) ->
  (forall mapped st col cfg, has_col (lookup_mapped mapped col) (ls_work st) = false ->
     score_step mapped st (col, cfg) = Ok st) /\
  exists out p, score_and_rank qsqrt df p0 sn = Ok (out, p) /\
    forall r, In r (rows out) -> get "score_total" r = CNum 0 /\ get "rank" r = CInt 1.
Proof.
  intros Habs. split; [exact score_step_skip|].
  unfold score_and_rank.
  assert (Habs' : forall kv, In kv (normalize_weights p0) -> has_col (fst kv) df = false).
  { intros kv Hkv. unfold normalize_weights in Hkv. apply in_map_iff in Hkv as (kv0 & <- & H0).
    simpl. apply (Habs kv0 H0). }
  destruct (neutralize_absent qsqrt sn _ df Habs') as [Hw Hm].
  destruct (neutralize qsqrt sn (normalize_weights p0) df) as [work mapped].
  simpl in Hw, Hm. subst work.
  rewrite score_loop_absent by (intros kv Hkv; simpl; rewrite Hm; apply Habs'; exact Hkv).
  simpl.
  destruct (set_score_and_rank_none df) as (w' & Hw' & Hrk & Hsc & Hrows).
  rewrite Hw'. simpl. eexists _, _. split; [reflexivity|].
  intros r Hr. split.
  - destruct (order_table_get [] w' "score_total" r Hsc ltac:(simpl; auto 6) Hr) as (r' & Hr' & ->).
    apply Hrows; auto.
  - destruct (order_table_get [] w' "rank" r Hrk ltac:(simpl; auto 6) Hr) as (r' & Hr' & ->).
    apply Hrows; auto.
Qed.

(** ** Sector neutralization *)

Lemma string_length_append (s1 s2 : string) :
  String.length (s1 ++ s2) = (String.length s1 + String.length s2)%nat.
Proof. induction s1 as [|a s1 IH]; simpl; auto. Qed.

Lemma string_append_inj_l (s : string) : forall c1 c2, (c1 ++ s)%string = (c2 ++ s)%string -> c1 = c2.
Proof.
  induction c1 as [|a c1 IH]; destruct c2 as [|b c2]; simpl; intros H; auto.
  - exfalso. apply (f_equal String.length) in H. simpl in H.
    rewrite string_length_append in H. lia.
  - exfalso. apply (f_equal String.length) in H. simpl in H.
    rewrite string_length_append in H. lia.
  - injection H as -> H. f_equal. apply IH. exact H.
Qed.

Lemma zcol_name_inj c1 c2 : zcol_name c1 = zcol_name c2 -> c1 = c2.
Proof. apply string_append_inj_l. Qed.

Lemma zcol_name_not_sector c : zcol_name c <> "sector"%string.
Proof.
  intros H. apply (f_equal String.length) in H. unfold zcol_name in H.
  rewrite string_length_append in H. simpl in H. lia.
Qed.

Lemma find_app_some {A} (f : A -> bool) l1 l2 e :
  find f l1 = Some e -> find f (l1 ++ l2) = Some e.
Proof.
  induction l1 as [|x l1 IH]; simpl; intros H; [discriminate|].
  destruct (f x); auto.
Qed.

Lemma find_app_none {A} (f : A -> bool) l1 l2 :
  find f l1 = None -> find f (l1 ++ l2) = find f l2.
Proof.
  induction l1 as [|x l1 IH]; simpl; intros H; auto.
  destruct (f x); [discriminate|auto].
Qed.

Lemma setdefault_app (p : prefs) m :
  exists s, fold_left setdefault_step p m = m ++ s.
Proof.
  revert m. induction p as [|kv p IH]; simpl; intros m; [exists []; symmetry; apply app_nil_r|].
  unfold setdefault_step at 2. destruct (existsb _ m); [apply IH|].
  destruct (IH (m ++ [(fst kv, fst kv)])) as (s & ->). exists ((fst kv, fst kv) :: s).
  rewrite <- app_assoc. reflexivity.
Qed.

Lemma map_snd_combine {A B} (l1 : list A) (l2 : list B) :
  List.length l1 = List.length l2 -> map snd (combine l1 l2) = l2.
Proof.
  revert l2. induction l1 as [|a l1 IH]; destruct l2 as [|b l2]; simpl; intros H; auto; try lia.
  f_equal. apply IH. lia.
Qed.

Lemma map_fst_combine {A B} (l1 : list A) (l2 : list B) :
  (List.length l1 <= List.length l2)%nat -> map fst (combine l1 l2) = l1.
Proof.
  revert l2. induction l1 as [|a l1 IH]; destruct l2 as [|b l2]; simpl; intros H; auto; try lia.
  f_equal. apply IH. lia.
Qed.

Lemma set_col_rows_length c vals w :
  (List.length (rows w) <= List.length vals)%nat ->
  List.length (rows (set_col c vals w)) = List.length (rows w).
Proof. intros H. unfold set_col. simpl. rewrite length_map, length_combine. lia. Qed.

Lemma get_col_set_col_same c vals w :
  List.length (rows w) = List.length vals -> get_col c (set_col c vals w) = vals.
Proof.
  intros H. unfold get_col, set_col. simpl. rewrite map_map.
  rewrite (map_ext _ snd) by (intros [r v]; apply get_assoc_set_same).
  apply map_snd_combine. exact H.
Qed.

Lemma get_col_set_col_other c c' vals w :
  c <> c' -> (List.length (rows w) <= List.length vals)%nat ->
  get_col c' (set_col c vals w) = get_col c' w.
Proof.
  intros Hne H. unfold get_col, set_col. simpl. rewrite map_map.
  rewrite (map_ext _ (fun rv => get c' (fst rv))) by (intros [r v]; apply get_assoc_set_other; auto).
  rewrite <- (map_map fst (get c')), map_fst_combine by exact H. reflexivity.
Qed.

Lemma has_col_set_col_other c c' vals w :
  c <> c' -> has_col c' (set_col c vals w) = has_col c' w.
Proof.
  intros Hne. unfold set_col, has_col. cbn [columns].
  destruct (existsb (String.eqb c) (columns w)); [reflexivity|].
  rewrite existsb_app. simpl. replace (String.eqb c' c) with false
    by (symmetry; apply String.eqb_neq; auto). rewrite orb_false_r. reflexivity.
Qed.

Lemma sector_z_length qsqrt sectors col :
  List.length (sector_z qsqrt sectors col) = Nat.min (List.length sectors) (List.length col).
Proof. unfold sector_z. rewrite length_map, length_combine, length_map. reflexivity. Qed.

Lemma neutralize_step_rows qsqrt w m kv :
  List.length (rows (fst (neutralize_step qsqrt (w, m) kv))) = List.length (rows w).
Proof.
  unfold neutralize_step. simpl. destruct (has_col (fst kv) w); [|reflexivity].
  apply set_col_rows_length. rewrite length_map, sector_z_length.
  unfold get_col. rewrite !length_map. lia.
Qed.

Lemma neutralize_fold_keep qsqrt (p : prefs) : forall w m n,
  (forall kv, In kv p -> zcol_name (fst kv) <> n) ->
  get_col n (fst (fold_left (neutralize_step qsqrt) p (w, m))) = get_col n w /\
  exists s, snd (fold_left (neutralize_step qsqrt) p (w, m)) = m ++ s.
Proof.
  induction p as [|kv p IH]; cbn [fold_left]; intros w m n H.
  - split; auto. exists []. symmetry. apply app_nil_r.
  - destruct (neutralize_step qsqrt (w, m) kv) as [w1 m1] eqn:E.
    assert (Hw1 : get_col n w1 = get_col n w /\ exists s, m1 = m ++ s).
    { unfold neutralize_step in E. cbv zeta in E. destruct (has_col (fst kv) w); injection E as <- <-.
      - split; [|eexists; reflexivity].
        apply get_col_set_col_other; [apply H; left; reflexivity|].
        rewrite length_map, sector_z_length. unfold get_col. rewrite !length_map. lia.
      - split; auto. exists []. symmetry. apply app_nil_r. }
    destruct Hw1 as [Hg (s1 & ->)].
    destruct (IH w1 (m ++ s1) n) as [Hg' (s2 & Hs2)]; [intros kv' Hkv'; apply H; right; exact Hkv'|].
    split; [congruence|]. exists (s1 ++ s2). rewrite app_assoc. exact Hs2.
Qed.

Lemma neutralize_fold_spec qsqrt df (p : prefs) : forall w m,
  NoDup (map fst p) ->
  (forall c1 c2, In c1 (map fst p) -> In c2 (map fst p) -> zcol_name c1 <> c2) ->
  List.length (rows w) = List.length (rows df) ->
  get_col "sector" w = get_col "sector" df ->
  (forall c, In c (map fst p) -> get_col c w = get_col c df /\ has_col c w = has_col c df) ->
  (forall c, In c (map fst p) -> find (fun e => String.eqb (fst e) c) m = None) ->
  forall c, In c (map fst p) -> has_col c df = true ->
  find (fun e => String.eqb (fst e) c) (snd (fold_left (neutralize_step qsqrt) p (w, m)))
    = Some (c, zcol_name c) /\
  get_col (zcol_name c) (fst (fold_left (neutralize_step qsqrt) p (w, m)))
    = map cell_of_opt (sector_z qsqrt (get_col "sector" df) (get_col c df)).
Proof.
  induction p as [|[c0 cfg] p IH]; cbn [fold_left map fst In]; intros w m Hnd Hz Hlen Hsec Hcol Hm c Hc Hdf;
    [destruct Hc|].
  inversion Hnd as [|? ? Hnin Hnd']; subst.
  destruct (Hcol c0 (or_introl eq_refl)) as [Hg0 Hh0].
  assert (Hsame : forall c, In c (map fst p) -> c0 <> c) by (intros c' Hc' ->; contradiction).
  destruct (has_col c0 w) eqn:Hc0.
  - set (z0 := sector_z qsqrt (get_col "sector" w) (get_col c0 w)).
    assert (Hl0 : List.length (rows w) = List.length (map cell_of_opt z0)).
    { unfold z0. rewrite length_map, sector_z_length. unfold get_col. rewrite !length_map. lia. }
    set (w1 := set_col (zcol_name c0) (map cell_of_opt z0) w).
    replace (neutralize_step qsqrt (w, m) (c0, cfg)) with (w1, m ++ [(c0, zcol_name c0)])
      by (unfold neutralize_step; simpl; rewrite Hc0; reflexivity).
    assert (Hsec1 : get_col "sector" w1 = get_col "sector" df).
    { unfold w1. rewrite get_col_set_col_other; auto; [apply zcol_name_not_sector|lia]. }
    destruct Hc as [<-|Hc].
    + destruct (neutralize_fold_keep qsqrt p w1 (m ++ [(c0, zcol_name c0)]) (zcol_name c0))
        as [Hg (s & Hs)].
      { intros kv Hkv Heq. apply zcol_name_inj in Heq.
        apply Hnin. rewrite <- Heq. apply in_map. exact Hkv. }
      split.
      * rewrite Hs. apply find_app_some. rewrite find_app_none by (apply Hm; left; auto).
        simpl. rewrite String.eqb_refl. reflexivity.
      * rewrite Hg. unfold w1. rewrite get_col_set_col_same by exact Hl0.
        unfold z0. rewrite Hsec, Hg0. reflexivity.
    + apply IH; [exact Hnd'| | | exact Hsec1 | | | exact Hc | exact Hdf].
      * intros c1 c2 H1 H2. apply Hz; right; auto.
      * unfold w1. rewrite set_col_rows_length; [exact Hlen|lia].
      * intros c' Hc'. destruct (Hcol c' (or_intror Hc')) as [Hg' Hh'].
        assert (Hne : zcol_name c0 <> c') by (apply Hz; [left; reflexivity|right; exact Hc']).
        unfold w1. rewrite get_col_set_col_other, has_col_set_col_other; auto. lia.
      * intros c' Hc'. rewrite find_app_none by (apply Hm; right; exact Hc'). simpl.
        replace (String.eqb c0 c') with false by (symmetry; apply String.eqb_neq; auto).
        reflexivity.
  - replace (neutralize_step qsqrt (w, m) (c0, cfg)) with (w, m)
      by (unfold neutralize_step; simpl; rewrite Hc0; reflexivity).
    destruct Hc as [<-|Hc]; [congruence|].
    apply IH; [exact Hnd'| |exact Hlen|exact Hsec| | |exact Hc|exact Hdf].
    + intros c1 c2 H1 H2. apply Hz; right; auto.
    + intros c' Hc'. apply Hcol. right. exact Hc'.
    + intros c' Hc'. apply Hm. right. exact Hc'.
Qed.

(** With [sector_neutral] and a [sector] column, every attribute of the spec
    that is a column is mapped to its [__sector_z] column, which holds the
    within-sector z-scores of the original column. *)
Lemma neutralize_maps qsqrt (p : prefs) df c :
  NoDup (map fst p) ->
  (forall c1 c2, In c1 (map fst p) -> In c2 (map fst p) -> zcol_name c1 <> c2) ->
  has_col "sector" df = true -> In c (map fst p) -> has_col c df = true ->
  lookup_mapped (snd (neutralize qsqrt true p df)) c = zcol_name c /\
  get_col (zcol_name c) (fst (neutralize qsqrt true p df))
    = map cell_of_opt (sector_z qsqrt (get_col "sector" df) (get_col c df)).
Proof.
  intros Hnd Hz Hs Hc Hdf. unfold neutralize. rewrite Hs. simpl.
  destruct (neutralize_fold_spec qsqrt df p df [] Hnd Hz eq_refl eq_refl
              (fun c _ => conj eq_refl eq_refl) (fun c _ => eq_refl) c Hc Hdf) as [Hf Hg].
  destruct (fold_left (neutralize_step qsqrt) p (df, [])) as [w m]. simpl in *.
  split; [|exact Hg].
  destruct (setdefault_app p m) as (s & ->).
  unfold lookup_mapped. rewrite (find_app_some _ _ _ _ Hf). reflexivity.
Qed.

Lemma key_eqb_refl k : k <> CNaN -> key_eqb k k = true.
Proof.
  destruct k as [q|z|s|]; simpl; intros H.
  - apply Qeq_bool_iff. reflexivity.
  - apply Z.eqb_refl.
  - apply String.eqb_refl.
  - contradiction.
Qed.

Lemma in_group_values key sectors vals k x :
  List.length sectors = List.length vals -> (k < List.length vals)%nat ->
  nth k sectors CNaN = key -> key <> CNaN -> nth k vals None = Some x ->
  In x (group_values key sectors vals).
Proof.
  intros Hl Hk Hs Hn Hx. unfold group_values. apply in_present.
  apply in_map_iff. exists (key, Some x). split; [reflexivity|].
  apply filter_In. split; [|simpl; apply key_eqb_refl; exact Hn].
  rewrite <- Hs, <- Hx, <- combine_nth by exact Hl. apply nth_In.
  rewrite length_combine. lia.
Qed.

Lemma sector_z_nth qsqrt sectors col k key x :
  List.length sectors = List.length col -> (k < List.length col)%nat ->
  nth k sectors CNaN = key -> key <> CNaN -> to_numeric (nth k col CNaN) = Some x ->
  let g := group_values key sectors (map to_numeric col) in
  exists m, mean g = Some m /\
  nth k (sector_z qsqrt sectors col) None = Some ((x - m) / std_or_one qsqrt g m).
Proof.
  intros Hl Hk Hs Hn Hx g.
  assert (Hxg : In x g).
  { apply (in_group_values key sectors (map to_numeric col) k x); auto; rewrite ?length_map; auto.
    rewrite (nth_map' _ _ _ CNaN) by exact Hk. exact Hx. }
  destruct g as [|y g'] eqn:Eg; [destruct Hxg|].
  eexists. split; [reflexivity|]. rewrite <- Eg.
  unfold sector_z.
  rewrite (nth_map' _ _ _ (CNaN, None)) by (rewrite length_combine, length_map; lia).
  rewrite combine_nth by (rewrite length_map; exact Hl).
  rewrite Hs, (nth_map' _ _ _ CNaN) by exact Hk. rewrite Hx.
  fold g. rewrite Eg.
  destruct key; [| | |contradiction]; reflexivity.
Qed.

Lemma fold_plus_const l c : forall a, (forall v, In v l -> v == c) ->
  fold_left Qplus l a == a + inject_Z (Z.of_nat (List.length l)) * c.
Proof.
  induction l as [|v l IH]; intros a H; cbn [fold_left List.length].
  - simpl. ring.
  - rewrite IH by (intros; apply H; right; auto).
    rewrite Nat2Z.inj_succ, <- Z.add_1_r, inject_Z_plus.
    rewrite (H v (or_introl eq_refl)). ring.
Qed.

Lemma len_pos_Q {A} (l : list A) : l <> [] -> ~ inject_Z (Z.of_nat (List.length l)) == 0.
Proof.
  destruct l; [contradiction|]. intros _. unfold Qeq. simpl. lia.
Qed.

(** A group whose present values are all equal to [c]: its mean is [c] and,
    the square root of 0 being 0, [std_or_one] falls back to 1. *)
Lemma group_degenerate qsqrt g m c :
  (forall y, y == 0 -> qsqrt y == 0) -> (forall v, In v g -> v == c) ->
  mean g = Some m -> m == c /\ std_or_one qsqrt g m = 1.
Proof.
  intros Hsq Hc Hm.
  assert (Hne : g <> []) by (intros ->; discriminate).
  assert (Hm' : m = sum_Q g / inject_Z (Z.of_nat (List.length g)))
    by (destruct g; [contradiction|]; injection Hm as <-; reflexivity).
  subst m.
  assert (Hmc : sum_Q g / inject_Z (Z.of_nat (List.length g)) == c).
  { unfold sum_Q. rewrite (fold_plus_const g c 0 Hc). field. apply len_pos_Q; auto. }
  split; [exact Hmc|].
  unfold std_or_one.
  assert (Hv : pvar g (sum_Q g / inject_Z (Z.of_nat (List.length g))) == 0).
  { unfold pvar, sum_Q.
    rewrite (fold_plus_const _ 0 0).
    - rewrite length_map. field. apply len_pos_Q; auto.
    - intros w Hw. apply in_map_iff in Hw as (v & <- & Hv). rewrite Hmc, (Hc v Hv). ring. }
  apply Hsq in Hv. apply Qeq_bool_iff in Hv. rewrite Hv. reflexivity.
Qed.

(** * C8 (corrected): with [sector_neutral] and a [sector] column (and
    spec keys that are distinct and are not one another's [__sector_z]
    name), every attribute of the spec that is a column is read, before
    normalization, from its [__sector_z] column, which holds
    [(x - mean) / std_or_one] over the attribute's sector, with the
    population variance [pvar]; two rows of one sector with the same value
    get the same standardized value (they tie); and when the sector's values
    are all equal, exact arithmetic gives a zero standard deviation, so the
    divisor is 1 and the standardized value is 0. In binary64 the computed
    standard deviation of equal values need not be zero (see
    [sector_z_f64_nonzero]). *)
Theorem sector_neutral_zscore qsqrt (p : prefs) df :
  NoDup (map fst p) ->
  (forall c1 c2, In c1 (map fst p) -> In c2 (map fst p) -> zcol_name c1 <> c2) ->
  has_col "sector" df = true ->
  (forall c, In c (map fst p) -> has_col c df = true ->
     lookup_mapped (snd (neutralize qsqrt true p df)) c = zcol_name c /\
     get_col (zcol_name c) (fst (neutralize qsqrt true p df))
       = map cell_of_opt (sector_z qsqrt (get_col "sector" df) (get_col c df))) /\
  (forall col k x,
     List.length col = List.length (rows df) -> (k < List.length col)%nat ->
     let sectors := get_col "sector" df in
     nth k sectors CNaN <> CNaN -> to_numeric (nth k col CNaN) = Some x ->
     let g := group_values (nth k sectors CNaN) sectors (map to_numeric col) in
     exists m, mean g = Some m /\
       nth k (sector_z qsqrt sectors col) None = Some ((x - m) / std_or_one qsqrt g m) /\
       (forall j, (j < List.length col)%nat -> nth j sectors CNaN = nth k sectors CNaN ->
          to_numeric (nth j col CNaN) = Some x ->
          nth j (sector_z qsqrt sectors col) None = nth k (sector_z qsqrt sectors col) None) /\
       ((forall y, y == 0 -> qsqrt y == 0) -> (forall v, In v g -> v == x) ->
          std_or_one qsqrt g m = 1 /\ (x - m) / std_or_one qsqrt g m == 0)).
Proof.
  intros Hnd Hz Hs. split.
  - intros c Hc Hdf. apply neutralize_maps; auto.
  - intros col k x Hl Hk sectors Hkey Hx g.
    assert (Hls : List.length sectors = List.length col)
      by (unfold sectors, get_col; rewrite length_map; auto).
    destruct (sector_z_nth qsqrt sectors col k _ x Hls Hk eq_refl Hkey Hx) as (m & Hm & Hz_k).
    exists m. split; [exact Hm|]. split; [exact Hz_k|]. split.
    + intros j Hj Hsj Hxj.
      destruct (sector_z_nth qsqrt sectors col j _ x Hls Hj Hsj Hkey Hxj) as (m' & Hm' & Hz_j).
      rewrite Hz_k, Hz_j. unfold g in Hm. rewrite Hm in Hm'. injection Hm' as <-. reflexivity.
    + intros Hsq Hall.
      destruct (group_degenerate qsqrt g m x Hsq Hall Hm) as [Hmx H1].
      split; [exact H1|]. rewrite H1, Hmx. field.
Qed.

(** Counterexample to C8 in binary64: a sector of three rows with the value
    0.1 has mean 0.10000000000000002 and population standard deviation
    2^-56, not 0, so the divisor is not 1.0 and every standardized value
    is -1.0 instead of 0.0. *)
Lemma sector_z_f64_nonzero :
  let g := [f64_0_1; f64_0_1; f64_0_1] in
  std0_f64 g == 1 # 2 ^ 56 /\ zscore_f64 g f64_0_1 == -1.
Proof. vm_compute. split; reflexivity. Qed.

(** ** Row counts and an all-zero total *)

Lemma neutralize_fold_rows qsqrt (p : prefs) : forall acc,
  List.length (rows (fst (fold_left (neutralize_step qsqrt) p acc))) = List.length (rows (fst acc)).
Proof.
  induction p as [|kv p IH]; intros [w m]; simpl; auto.
  rewrite IH. apply neutralize_step_rows.
Qed.

Lemma neutralize_rows qsqrt sn (p : prefs) df :
  List.length (rows (fst (neutralize qsqrt sn p df))) = List.length (rows df).
Proof.
  unfold neutralize.
  destruct (sn && has_col "sector" df); [|reflexivity].
  pose proof (neutralize_fold_rows qsqrt p (df, [])) as H.
  destruct (fold_left (neutralize_step qsqrt) p (df, [])) as [w m]. exact H.
Qed.

Lemma all_numeric_some (t : list (option Q)) :
  (forall o, In o t -> exists q, o = Some q) -> exists v, all_numeric (map cell_of_opt t) = Some v.
Proof.
  induction t as [|o t IH]; intros H; [exists []; reflexivity|].
  destruct (H o (or_introl eq_refl)) as (q & ->).
  destruct IH as (v & Hv); [intros o' Ho'; apply H; right; exact Ho'|].
  exists (q :: v). simpl. rewrite Hv. reflexivity.
Qed.

Lemma set_score_and_rank_zero total work :
  zero_total (List.length (rows work)) total ->
  exists w', set_score_and_rank total work = Ok w' /\
    has_col "rank" w' = true /\ has_col "score_total" w' = true /\
    forall r, In r (rows w') -> exists q, to_numeric (get "score_total" r) = Some q /\ q == 0.
Proof.
  destruct total as [t|]; cbn [zero_total]; intros Ht.
  - destruct Ht as [Htl Htz].
    unfold set_score_and_rank.
    set (w1 := set_col "score_total" (map cell_of_opt t) work).
    assert (Hg : get_col "score_total" w1 = map cell_of_opt t)
      by (apply get_col_set_col_same; rewrite length_map; auto).
    rewrite Hg.
    destruct (all_numeric_some t) as (v & Hv);
      [intros o Ho; destruct (Htz o Ho) as (q & -> & _); exists q; reflexivity|].
    rewrite Hv. eexists. split; [reflexivity|]. split; [apply has_col_set_col_same|].
    split; [apply has_col_set_col_keep, has_col_set_col_same|].
    intros r Hr. apply in_set_col_rows in Hr as (r0 & x & Hr0 & _ & ->).
    rewrite get_assoc_set_other by discriminate.
    apply in_set_col_rows in Hr0 as (r1 & c & _ & Hc & ->).
    rewrite get_assoc_set_same.
    apply in_map_iff in Hc as (o & <- & Ho). destruct (Htz o Ho) as (q & -> & Hq).
    exists q. split; [reflexivity|exact Hq].
  - destruct (set_score_and_rank_none work) as (w' & Hw' & Hrk & Hsc & Hrows).
    exists w'. split; [exact Hw'|]. split; [exact Hrk|]. split; [exact Hsc|].
    intros r Hr. destruct (Hrows r Hr) as [-> _]. exists 0. split; reflexivity.
Qed.

(** * C9: when the sanitized spec is empty, [rank_from_csv] raises (the
    [RuntimeError] of line 104, or the [ValueError] of line 100 when the
    table lacks [ticker] or [name]) and writes no file; the ranking branch
    of the shell returns that error and keeps its state. *)
Theorem empty_spec_aborts qsqrt df api_key_set resp top_n sn out_path fs :
  prefs_from_text_llm api_key_set resp df = Ok [] ->
  rank_from_csv qsqrt df api_key_set resp top_n sn out_path fs
    = (Err (if has_col "ticker" df && has_col "name" df then RuntimeError else ValueError), fs) /\
  forall TOP st,
    handle_list_request qsqrt df api_key_set resp TOP st fs
      = (Err (if has_col "ticker" df && has_col "name" df then RuntimeError else ValueError), st, fs).
Proof.
  intros H.
  assert (R : forall top sn' out,
             rank_from_csv qsqrt df api_key_set resp top sn' out fs
             = (Err (if has_col "ticker" df && has_col "name" df then RuntimeError else ValueError), fs)).
  { intros top sn' out. unfold rank_from_csv.
    destruct (has_col "ticker" df && has_col "name" df); cbn [negb]; [rewrite H|]; reflexivity. }
  split; [apply R|]. intros TOP st. unfold handle_list_request. rewrite R. reflexivity.
Qed.

Lemma empty_spec_aborts_witness :
  rank_from_csv sqrt_of_square example_table true (Ok "{}"%string) 20 true (Some "out.csv"%string) []
  = (Err RuntimeError, []).
Proof.
  exact (proj1 (empty_spec_aborts sqrt_of_square example_table true (Ok "{}"%string) 20 true
                  (Some "out.csv"%string) [] eq_refl)).
Defined.

(** * C2 (a divergence of the code): [prefs_from_text_llm] parses the reply
    with the strict [json.loads]; a reply that wraps the spec object in
    other text makes the request fail with [JSONDecodeError], although the
    object alone yields a spec and [_safe_parse_json] of main.py recovers
    it from the wrapped reply. *)
Theorem strict_parse_rejects_wrapped_reply :
  let resp := ("Sure! " ++ example_reply)%string in
  prefs_from_text_llm true (Ok resp) example_table = Err JSONDecodeError /\
  fst (rank_from_csv sqrt_of_square example_table true (Ok resp) 20 true None []) = Err JSONDecodeError /\
  prefs_from_text_llm true (Ok example_reply) example_table
    = Ok [("beta"%string, mkCfg 1 "negative")] /\
  _safe_parse_json resp = json_loads example_reply.
Proof. vm_compute. split; [|split; [|split]]; reflexivity. Qed.

(** ** Witnesses of C3, C7 and C8 *)

Lemma rank_order_stable_witness :
  exists w', set_score_and_rank (Some [Some 1; Some 2; Some 1]) example_table = Ok w' /\
    Sorted (fun a b => (row_rank a < row_rank b)%Z \/
                       (row_rank a = row_rank b /\ row_score b <= row_score a))
           (rows (order_table [] w')).
Proof.
  destruct (set_score_and_rank (Some [Some 1; Some 2; Some 1]) example_table) as [w'|e] eqn:E;
    [|vm_compute in E; discriminate E].
  exists w'. split; [reflexivity|]. exact (proj1 (rank_order_stable _ _ _ [] E)).
Defined.

Lemma absent_attributes_skipped_witness :
  exists out p, score_and_rank sqrt_of_square example_table [("esg"%string, mkCfg 1 "negative")] true
                = Ok (out, p) /\
    forall r, In r (rows out) -> get "score_total" r = CNum 0 /\ get "rank" r = CInt 1.
Proof.
  exact (proj2 (absent_attributes_skipped sqrt_of_square example_table
                  [("esg"%string, mkCfg 1 "negative")] true
                  ltac:(intros kv [<-|[]]; reflexivity))).
Defined.

Lemma sector_neutral_zscore_witness :
  lookup_mapped (snd (neutralize sqrt_of_square true [("beta"%string, mkCfg 1 "negative")]
                        (mkDF ["sector"; "beta"]%string [[("sector"%string, CStr "Tech"); ("beta"%string, CNum 1)]])))
                "beta" = zcol_name "beta".
Proof.
  destruct (sector_neutral_zscore sqrt_of_square [("beta"%string, mkCfg 1 "negative")]
              (mkDF ["sector"; "beta"]%string [[("sector"%string, CStr "Tech"); ("beta"%string, CNum 1)]])
              ltac:(constructor; [intros []|constructor])
              ltac:(intros c1 c2 [<-|[]] [<-|[]]; discriminate)
              eq_refl) as [H1 _].
  exact (proj1 (H1 "beta"%string (or_introl eq_refl) eq_refl)).
Defined.

(** ** The sanitized spec *)

Lemma NoDup_snoc {A} (l : list A) x : NoDup l -> ~ In x l -> NoDup (l ++ [x]).
Proof.
  intros H Hx. apply (Permutation_NoDup (Permutation_cons_append l x)). constructor; auto.
Qed.

Lemma dict_set_inv {V} k (v : V) d :
  NoDup (map fst d) ->
  NoDup (map fst (dict_set k v d)) /\
  forall e, In e (dict_set k v d) -> In e d \/ e = (k, v).
Proof.
  intros Hnd. unfold dict_set.
  destruct (existsb (fun e => String.eqb (fst e) k) d) eqn:E.
  - split.
    + rewrite map_map.
      rewrite (map_ext _ fst); [exact Hnd|].
      intros [a b]. simpl. destruct (String.eqb a k) eqn:Ea; [|reflexivity].
      apply String.eqb_eq in Ea. simpl. congruence.
    + intros e He. apply in_map_iff in He as (e0 & <- & He0).
      destruct (String.eqb (fst e0) k); auto.
  - split.
    + rewrite map_app. apply NoDup_snoc; [exact Hnd|].
      intros Hin. apply in_map_iff in Hin as (e & He & Hin).
      assert (Ht : existsb (fun e => String.eqb (fst e) k) d = true).
      { apply existsb_exists. exists e. split; auto. apply String.eqb_eq. exact He. }
      congruence.
    + intros e He. apply in_app_or in He as [He|[<-|[]]]; auto.
Qed.

Lemma sanitize_direction_pos_neg v :
  sanitize_direction v = "positive"%string \/ sanitize_direction v = "negative"%string.
Proof.
  unfold sanitize_direction.
  set (d := match v with None => "positive"%string | Some (JStr s) => str_lower s | Some _ => EmptyString end).
  destruct (String.eqb d "positive") eqn:E1; [left; apply String.eqb_eq; exact E1|].
  destruct (String.eqb d "negative") eqn:E2; simpl; [right; apply String.eqb_eq; exact E2|left; reflexivity].
Qed.

(** What [sanitize] keeps: distinct keys, each an allowed column, with a
    nonnegative weight and the direction [positive] or [negative]. *)
Lemma sanitize_ok allowed data p :
  sanitize allowed data = Ok p ->
  NoDup (map fst p) /\
  forall kv, In kv p -> In (fst kv) allowed /\ 0 <= weight (snd kv) /\
    (direction (snd kv) = "positive"%string \/ direction (snd kv) = "negative"%string).
Proof.
  intros H. unfold sanitize in H.
  match type of H with context [fold_left ?F _ []] => set (G := F) in H end.
  pose (Inv := fun c : prefs => NoDup (map fst c) /\
    forall kv, In kv c -> In (fst kv) allowed /\ 0 <= weight (snd kv) /\
      (direction (snd kv) = "positive"%string \/ direction (snd kv) = "negative"%string)).
  assert (Hg : forall l c, Inv c -> Inv (fold_left G l c)).
  { induction l as [|[col cfg] l IH]; intros c Hc; [exact Hc|].
    cbn [fold_left]. apply IH. unfold G.
    destruct cfg as [|b|q|s|l0|kvs]; try exact Hc.
    destruct (existsb (String.eqb col) allowed) eqn:Ea; [|exact Hc].
    destruct Hc as [Hnd Hall].
    destruct (dict_set_inv col (mkCfg (Qmax 0 (sanitize_weight (dict_get "weight" kvs)))
                                      (sanitize_direction (dict_get "direction" kvs))) c Hnd)
      as [Hnd' Hin].
    split; [exact Hnd'|].
    intros kv Hkv. destruct (Hin kv Hkv) as [Hkv' | ->]; [apply Hall; exact Hkv'|].
    cbn [fst snd weight direction]. split; [|split].
    - apply existsb_exists in Ea as (x & Hx & Hex). apply String.eqb_eq in Hex. subst x. exact Hx.
    - apply Q.le_max_l.
    - apply sanitize_direction_pos_neg. }
  assert (H0 : Inv []) by (split; [constructor|intros kv []]).
  destruct data as [|b|q|s|l0|kvs]; cbn iota in H;
    try (injection H as <-; exact H0).
  destruct (dict_get "preferences" kvs) as [v|]; [|injection H as <-; exact H0].
  destruct v; try discriminate H. injection H as <-. exact (Hg _ _ H0).
Qed.

Lemma prefs_from_text_llm_ok api_key_set resp df p :
  prefs_from_text_llm api_key_set resp df = Ok p ->
  NoDup (map fst p) /\
  forall kv, In kv p -> In (fst kv) (numeric_cols df) /\ 0 <= weight (snd kv) /\
    (direction (snd kv) = "positive"%string \/ direction (snd kv) = "negative"%string).
Proof.
  unfold prefs_from_text_llm. destruct api_key_set; [|discriminate]. cbn [negb].
  destruct resp as [text|e]; [|discriminate]. cbn [bind_r].
  destruct (json_loads text) as [data|e]; [|discriminate]. cbn [bind_r].
  apply sanitize_ok.
Qed.



(** ** Scores of a successful ranking *)

Lemma dirnorm_nil d : _dirnorm [] d = Err ValueError.
Proof. unfold _dirnorm. simpl. destruct (String.eqb d "negative"); reflexivity. Qed.

Lemma dirnorm_ok series d comp :
  _dirnorm series d = Ok comp ->
  List.length comp = List.length series /\
  forall o, In o comp -> exists v, o = Some v /\ 0 <= v <= 1.
Proof.
  destruct series as [|c cs]; [rewrite dirnorm_nil; discriminate|].
  destruct (dirnorm_shape (c :: cs) d ltac:(discriminate)) as (g & -> & Hg).
  intros E. assert (Ec : comp = map g (map to_numeric (c :: cs))) by congruence. subst comp.
  split; [rewrite !length_map; reflexivity|].
  intros o Ho. apply in_map_iff in Ho as (y & <- & Hy). apply Hg. exact Hy.
Qed.

Lemma in_firstn_in {A} n (l : list A) x : In x (firstn n l) -> In x l.
Proof. intros H. rewrite <- (firstn_skipn n l). apply in_or_app. left. exact H. Qed.

(** ** Ranks of a successful ranking *)

Lemma set_score_and_rank_cols total work w' :
  set_score_and_rank total work = Ok w' ->
  exists v, (forall r, In r (rows w') -> ranked_row v r) /\
            map to_numeric (get_col "score_total" w') = map Some v /\
            has_col "rank" w' = true /\ has_col "score_total" w' = true.
Proof.
  unfold set_score_and_rank.
  set (w1 := set_col "score_total" _ work).
  destruct (all_numeric (get_col "score_total" w1)) as [v|] eqn:Hv; [|discriminate].
  intros H. inversion H as [Hw]. clear H. exists v.
  apply all_numeric_spec in Hv.
  assert (Hlen : List.length (rows w1) = List.length v).
  { rewrite <- (length_map Some v), <- Hv. unfold get_col. rewrite !length_map. reflexivity. }
  assert (Hlen2 : List.length (rows w1) = List.length (map CInt (rank_min_desc v))).
  { rewrite length_map. unfold rank_min_desc. rewrite length_map, length_seq. exact Hlen. }
  split; [|split; [|split]].
  - intros r Hr. simpl in Hr.
    destruct (in_map_combine_nth (fun rv => assoc_set "rank" (snd rv) (fst rv))
                (rows w1) _ [] (CInt 0) r Hlen2 Hr) as (k & Hk & ->).
    simpl. exists (nth k v 0). split; [|split].
    + rewrite get_assoc_set_other by discriminate.
      assert (E := f_equal (fun l => nth k l None) Hv). simpl in E.
      unfold get_col in E. rewrite map_map in E.
      rewrite (nth_map' (fun x => to_numeric (get "score_total" x)) (rows w1) k [] None) in E
        by exact Hk.
      rewrite (nth_map' Some v k 0 None) in E by lia.
      exact E.
    + apply nth_In. lia.
    + rewrite get_assoc_set_same.
      rewrite (nth_map' _ _ _ 0%Z) by (unfold rank_min_desc; rewrite length_map, length_seq; lia).
      rewrite rank_min_desc_nth by lia. reflexivity.
  - rewrite get_col_set_col_other by (discriminate || lia). exact Hv.
  - apply has_col_set_col_same.
  - apply has_col_set_col_keep, has_col_set_col_same.
Qed.

Lemma count_gt_lt_in q l : In q l -> (count_gt q l < List.length l)%nat.
Proof.
  unfold count_gt. induction l as [|y l IH]; intros H; [destruct H|].
  assert (Hf : (List.length (filter (fun y => Qltb q y) l) <= List.length l)%nat).
  { clear. induction l as [|z l IH]; simpl; [lia|]. destruct (Qltb q z); simpl; lia. }
  destruct H as [-> | H]; cbn [filter List.length].
  - rewrite (Qltb_irrefl_eq q q) by reflexivity. lia.
  - specialize (IH H). destruct (Qltb q y); cbn [List.length]; lia.
Qed.

Lemma fold_max_in y0 ys : In (fold_left Qmax ys y0) (y0 :: ys).
Proof.
  revert y0. induction ys as [|y ys IH]; intros y0; [left; reflexivity|].
  cbn [fold_left]. destruct (IH (Qmax y0 y)) as [E|E].
  - rewrite <- E. unfold Qmax, GenericMinMax.gmax.
    destruct (Qcompare y0 y); [left|right; left|left]; reflexivity.
  - right; right; exact E.
Qed.

Lemma order_table_cols_in comp_cols w c :
  In c ["rank"; "ticker"; "name"; "score_total"]%string -> has_col c w = true ->
  In c (columns (order_table comp_cols w)).
Proof.
  intros Hl Hc. unfold order_table. simpl. apply in_or_app. left.
  unfold front_cols. apply filter_In. split; auto.
  apply in_or_app. simpl in Hl |- *.
  destruct Hl as [<-|[<-|[<-|[<-|[]]]]]; auto.
  right. apply in_or_app. right. left. reflexivity.
Qed.

(** Extra: in the table that [score_and_rank] returns, every rank is an
    integer between 1 and the number of rows, and the first row has rank
    1. *)
Theorem score_and_rank_ranks qsqrt df (p : prefs) sn out p' :
  score_and_rank qsqrt df p sn = Ok (out, p') ->
  (forall r, In r (rows out) ->
     exists k, get "rank" r = CInt k /\ (1 <= k <= Z.of_nat (List.length (rows out)))%Z) /\
  (forall r0 rest, rows out = r0 :: rest -> get "rank" r0 = CInt 1).
Proof.
  intros H. unfold score_and_rank in H.
  destruct (neutralize qsqrt sn (normalize_weights p) df) as [work mapped].
  destruct (score_loop mapped (mkLS work [] None) (normalize_weights p)) as [st|e]; [|discriminate].
  cbn [bind_r] in H.
  destruct (set_score_and_rank (ls_total st) (ls_work st)) as [w'|e] eqn:Ew; [|discriminate].
  cbn [bind_r] in H. injection H as Hout _. subst out.
  set (cc := ls_comp_cols st).
  destruct (set_score_and_rank_cols _ _ _ Ew) as (v & Hrows & Hmap & Hrk & Hsc).
  set (ks := ["rank"; "score_total"]%string).
  set (cols := columns (order_table cc w')).
  assert (Hout : rows (order_table cc w') = map (project_row cols) (sort_by (lex_le ks) (rows w')))
    by reflexivity.
  assert (Hlen : List.length (rows (order_table cc w')) = List.length v).
  { rewrite Hout, length_map, sort_by_length.
    rewrite <- (length_map Some v), <- Hmap. unfold get_col. rewrite !length_map. reflexivity. }
  assert (Hproj : forall r, get "rank" (project_row cols r) = get "rank" r).
  { intros r. apply get_project_row. apply order_table_cols_in; [simpl; auto|exact Hrk]. }
  assert (Hperm := sort_by_perm (lex_le ks) (rows w')).
  assert (P1 : forall r, In r (rows (order_table cc w')) ->
     exists k, get "rank" r = CInt k /\ (1 <= k <= Z.of_nat (List.length (rows (order_table cc w'))))%Z).
  { intros r Hr.
    destruct (order_table_get cc w' "rank" r Hrk ltac:(simpl; auto) Hr) as (r' & Hr' & ->).
    destruct (Hrows r' Hr') as (q & _ & Hq & ->).
    eexists. split; [reflexivity|]. pose proof (count_gt_lt_in q v Hq). rewrite Hlen. lia. }
  split; [exact P1|].
  intros r0 rest Hr0.
  (* A row of rank 1: the one with the largest score. *)
  assert (Hv : v <> []).
  { intros E. rewrite E in Hlen. rewrite Hr0 in Hlen. discriminate. }
  destruct v as [|y0 ys]; [contradiction|].
  set (qm := fold_left Qmax ys y0).
  assert (Hqm : In (Some qm) (map to_numeric (get_col "score_total" w'))).
  { rewrite Hmap. apply in_map. apply fold_max_in. }
  apply in_map_iff in Hqm as (x & Hx & Hxin).
  unfold get_col in Hxin. apply in_map_iff in Hxin as (rs & <- & Hrs).
  assert (Hrs1 : get "rank" rs = CInt 1).
  { destruct (Hrows rs Hrs) as (q & Hq & _ & ->). rewrite Hx in Hq. injection Hq as <-.
    rewrite count_gt_none; [reflexivity|]. intros y Hy. apply fold_max_ge_cons. exact Hy. }
  assert (Hin1 : In (project_row cols rs) (rows (order_table cc w'))).
  { rewrite Hout. apply in_map. apply (Permutation_in _ Hperm). exact Hrs. }
  (* The output is sorted by rank. *)
  assert (Hsorted : Sorted (fun a b => (row_rank a <= row_rank b)%Z) (rows (order_table cc w'))).
  { rewrite Hout. apply Sorted_map_in with (R := fun a b => lex_le ks a b = true).
    - intros a b Ha Hb Hab. unfold row_rank. rewrite !Hproj. fold (row_rank a) (row_rank b).
      destruct (lex_le_ranked (y0 :: ys) a b) as [Hl|[Hl _]]; auto; try lia;
        apply Hrows; apply (Permutation_in _ (Permutation_sym Hperm)); auto.
    - apply sort_by_sorted. apply lex_le_total. }
  apply Sorted_StronglySorted in Hsorted; [|intros a b c; lia].
  rewrite Hr0 in Hsorted, Hin1. apply StronglySorted_inv in Hsorted as [_ Hall].
  destruct (P1 r0 ltac:(rewrite Hr0; left; reflexivity)) as (k & Hk & Hk1 & _).
  assert (Hle : (row_rank r0 <= 1)%Z).
  { destruct Hin1 as [E|E].
    - unfold row_rank. rewrite E, Hproj, Hrs1. lia.
    - rewrite Forall_forall in Hall. specialize (Hall _ E).
      unfold row_rank at 2 in Hall. rewrite Hproj, Hrs1 in Hall. exact Hall. }
  unfold row_rank in Hle. rewrite Hk in Hle |- *. f_equal. lia.
Qed.

Lemma score_and_rank_ranks_witness :
  exists out p', score_and_rank sqrt_of_square example_table [("beta"%string, mkCfg 1 "negative")] true
                 = Ok (out, p') /\
    forall r0 rest, rows out = r0 :: rest -> get "rank" r0 = CInt 1.
Proof.
  destruct (score_and_rank sqrt_of_square example_table [("beta"%string, mkCfg 1 "negative")] true)
    as [[out p']|e] eqn:E; [|vm_compute in E; discriminate E].
  exists out, p'. split; [reflexivity|]. exact (proj2 (score_and_rank_ranks _ _ _ _ _ _ E)).
Defined.

(** ** The input columns survive the ranking *)

Lemma neutralize_fold_has_col qsqrt (p : prefs) : forall w m c,
  (forall kv, In kv p -> zcol_name (fst kv) <> c) ->
  has_col c (fst (fold_left (neutralize_step qsqrt) p (w, m))) = has_col c w.
Proof.
  induction p as [|kv p IH]; cbn [fold_left]; intros w m c H; [reflexivity|].
  destruct (neutralize_step qsqrt (w, m) kv) as [w1 m1] eqn:E.
  rewrite IH by (intros kv' Hkv'; apply H; right; exact Hkv').
  unfold neutralize_step in E. cbv zeta in E.
  destruct (has_col (fst kv) w); injection E as <- _; [|reflexivity].
  apply has_col_set_col_other. apply H. left. reflexivity.
Qed.

Lemma neutralize_keep qsqrt sn (p : prefs) df c :
  (forall col, c <> zcol_name col) ->
  get_col c (fst (neutralize qsqrt sn p df)) = get_col c df /\
  has_col c (fst (neutralize qsqrt sn p df)) = has_col c df.
Proof.
  intros Hz. unfold neutralize.
  assert (Hz' : forall kv, In kv p -> zcol_name (fst kv) <> c)
    by (intros kv _ E; apply (Hz (fst kv)); symmetry; exact E).
  destruct (sn && has_col "sector" df); [|split; reflexivity].
  pose proof (proj1 (neutralize_fold_keep qsqrt p df [] c Hz')) as Hg.
  pose proof (neutralize_fold_has_col qsqrt p df [] c Hz') as Hh.
  destruct (fold_left (neutralize_step qsqrt) p (df, [])) as [w m]. split; assumption.
Qed.

Lemma score_step_keep mapped st col cfg st' c :
  c <> ("score__" ++ col)%string ->
  total_len (List.length (rows (ls_work st))) (ls_total st) ->
  score_step mapped st (col, cfg) = Ok st' ->
  get_col c (ls_work st') = get_col c (ls_work st) /\
  has_col c (ls_work st') = has_col c (ls_work st) /\
  List.length (rows (ls_work st')) = List.length (rows (ls_work st)) /\
  total_len (List.length (rows (ls_work st'))) (ls_total st').
Proof.
  intros Hc Ht. unfold score_step.
  destruct (has_col (lookup_mapped mapped col) (ls_work st)); cbn [negb];
    [|intros E; injection E as <-; auto].
  destruct (_dirnorm (get_col (lookup_mapped mapped col) (ls_work st)) (direction cfg)) as [comp|e]
    eqn:Ed; [|discriminate]. cbn [bind_r].
  intros E. injection E as <-. cbn [ls_work ls_total].
  apply dirnorm_ok in Ed as [Hl _]. unfold get_col in Hl. rewrite length_map in Hl.
  assert (Hv : (List.length (rows (ls_work st)) <= List.length (map cell_of_opt comp))%nat)
    by (rewrite length_map; lia).
  rewrite set_col_rows_length by exact Hv.
  split; [apply get_col_set_col_other; [intros E; apply Hc; symmetry; exact E|exact Hv]|].
  split; [apply has_col_set_col_other; intros E; apply Hc; symmetry; exact E|].
  split; [reflexivity|].
  cbn [total_len]. destruct (ls_total st) as [t|]; cbn [total_len] in Ht.
  - rewrite length_map, length_combine, Ht. unfold scale. rewrite length_map. lia.
  - unfold scale. rewrite length_map. exact Hl.
Qed.

Lemma score_loop_keep mapped (p : prefs) c : forall st st',
  (forall kv, In kv p -> c <> ("score__" ++ fst kv)%string) ->
  total_len (List.length (rows (ls_work st))) (ls_total st) ->
  score_loop mapped st p = Ok st' ->
  get_col c (ls_work st') = get_col c (ls_work st) /\
  has_col c (ls_work st') = has_col c (ls_work st) /\
  List.length (rows (ls_work st')) = List.length (rows (ls_work st)) /\
  total_len (List.length (rows (ls_work st'))) (ls_total st').
Proof.
  induction p as [|[col cfg] p IH]; intros st st' Hc Ht E.
  - injection E as <-. auto.
  - cbn [score_loop] in E.
    destruct (score_step mapped st (col, cfg)) as [st1|e] eqn:E1; [|discriminate]. cbn [bind_r] in E.
    destruct (score_step_keep mapped st col cfg st1 c (Hc (col, cfg) (or_introl eq_refl)) Ht E1)
      as (H1 & H2 & H3 & H4).
    destruct (IH st1 st' ltac:(intros kv Hkv; apply Hc; right; exact Hkv) H4 E) as (H5 & H6 & H7 & H8).
    split; [congruence|]. split; [congruence|]. split; [congruence|exact H8].
Qed.

Lemma set_score_and_rank_keep total work w' c :
  total_len (List.length (rows work)) total ->
  set_score_and_rank total work = Ok w' ->
  c <> "rank"%string -> c <> "score_total"%string ->
  get_col c w' = get_col c work /\ has_col c w' = has_col c work /\
  List.length (rows w') = List.length (rows work).
Proof.
  intros Ht. unfold set_score_and_rank.
  set (vals := match total with Some t => map cell_of_opt t | None => map (fun _ => CNum 0) (rows work) end).
  assert (Hvl : List.length vals = List.length (rows work)).
  { unfold vals. destruct total as [t|]; rewrite length_map; [exact Ht|reflexivity]. }
  set (w1 := set_col "score_total" vals work).
  destruct (all_numeric (get_col "score_total" w1)) as [v|] eqn:Hv; [|discriminate].
  intros E Hr Hs. injection E as <-.
  apply all_numeric_spec in Hv.
  assert (Hl1 : List.length (rows w1) = List.length (rows work))
    by (apply set_col_rows_length; lia).
  assert (Hlv : List.length (rows w1) = List.length v).
  { rewrite <- (length_map Some v), <- Hv. unfold get_col. rewrite !length_map. reflexivity. }
  assert (Hrl : (List.length (rows w1) <= List.length (map CInt (rank_min_desc v)))%nat).
  { rewrite length_map. unfold rank_min_desc. rewrite length_map, length_seq. lia. }
  split; [|split].
  - rewrite get_col_set_col_other by (auto || (intros E; apply Hr; symmetry; exact E)).
    apply get_col_set_col_other; [intros E; apply Hs; symmetry; exact E|lia].
  - rewrite has_col_set_col_other by (intros E; apply Hr; symmetry; exact E).
    apply has_col_set_col_other. intros E; apply Hs; symmetry; exact E.
  - rewrite set_col_rows_length by exact Hrl. exact Hl1.
Qed.

Lemma order_table_col_perm comp_cols w c :
  has_col c w = true -> Permutation (get_col c (order_table comp_cols w)) (get_col c w).
Proof.
  intros Hc. set (ks := ["rank"; "score_total"]%string).
  set (cols := columns (order_table comp_cols w)).
  assert (Hin : In c cols).
  { unfold cols, order_table. cbn [columns project].
    set (front := front_cols comp_cols w).
    destruct (existsb (String.eqb c) front) eqn:E.
    - apply in_or_app. left. apply existsb_exists in E as (x & Hx & Hex).
      apply String.eqb_eq in Hex. subst x. exact Hx.
    - apply in_or_app. right. apply filter_In. split; [apply has_col_In; exact Hc|].
      rewrite E. reflexivity. }
  unfold get_col at 1.
  change (rows (order_table comp_cols w)) with (map (project_row cols) (sort_by (lex_le ks) (rows w))).
  rewrite map_map.
  rewrite (map_ext (fun x => get c (project_row cols x)) (get c)) by (intros r; apply get_project_row; exact Hin).
  unfold get_col. apply Permutation_map. apply Permutation_sym. apply sort_by_perm.
Qed.

(** Extra: the table that [score_and_rank] returns has as many rows as the
    input table, and every input column other than the generated ones
    ([rank], [score_total], [score__*] and [*__sector_z]) holds the same
    values as in the input, only reordered. *)
Theorem score_and_rank_keeps_columns qsqrt df (p : prefs) sn out p' :
  score_and_rank qsqrt df p sn = Ok (out, p') ->
  List.length (rows out) = List.length (rows df) /\
  forall c, has_col c df = true -> c <> "rank"%string -> c <> "score_total"%string ->
    (forall col, c <> ("score__" ++ col)%string) -> (forall col, c <> zcol_name col) ->
    Permutation (get_col c out) (get_col c df).
Proof.
  intros H. unfold score_and_rank in H.
  pose proof (neutralize_rows qsqrt sn (normalize_weights p) df) as Hn.
  pose proof (fun c => neutralize_keep qsqrt sn (normalize_weights p) df c) as Hk.
  destruct (neutralize qsqrt sn (normalize_weights p) df) as [work mapped]. cbn [fst] in Hn, Hk.
  destruct (score_loop mapped (mkLS work [] None) (normalize_weights p)) as [st|e] eqn:El;
    [|discriminate]. cbn [bind_r] in H.
  destruct (set_score_and_rank (ls_total st) (ls_work st)) as [w'|e] eqn:Ew; [|discriminate].
  cbn [bind_r] in H. injection H as Hout _. subst out.
  destruct (score_loop_keep mapped (normalize_weights p) "rank" (mkLS work [] None) st ltac:(intros kv _; discriminate) I El)
    as (_ & _ & Hl1 & Ht1). cbn [ls_work] in Hl1.
  destruct (set_score_and_rank_keep _ _ _ "ticker" Ht1 Ew ltac:(discriminate) ltac:(discriminate))
    as (_ & _ & Hl2).
  split.
  - unfold order_table, project. cbn [rows]. rewrite length_map. unfold sort_values. cbn [rows].
    rewrite sort_by_length. lia.
  - intros c Hc Hr Hs Hsc Hz.
    destruct (Hk c Hz) as [Hg0 Hh0].
    destruct (score_loop_keep mapped (normalize_weights p) c (mkLS work [] None) st ltac:(intros kv _; apply Hsc) I El)
      as (Hg1 & Hh1 & _ & _). cbn [ls_work] in Hg1, Hh1.
    destruct (set_score_and_rank_keep _ _ _ c Ht1 Ew Hr Hs) as (Hg2 & Hh2 & _).
    rewrite <- Hg0, <- Hg1, <- Hg2. apply order_table_col_perm. congruence.
Qed.

Lemma score_and_rank_keeps_columns_witness :
  exists out p', score_and_rank sqrt_of_square example_table [("beta"%string, mkCfg 1 "negative")] true
                 = Ok (out, p') /\
    Permutation (get_col "ticker" out) (get_col "ticker" example_table).
Proof.
  destruct (score_and_rank sqrt_of_square example_table [("beta"%string, mkCfg 1 "negative")] true)
    as [[out p']|e] eqn:E; [|vm_compute in E; discriminate E].
  exists out, p'. split; [reflexivity|].
  apply (proj2 (score_and_rank_keeps_columns _ _ _ _ _ _ E)); [reflexivity|discriminate|discriminate| |].
  - intros col Hc. apply (f_equal String.length) in Hc. cbn in Hc. lia.
  - intros col Hc. apply (f_equal String.length) in Hc. unfold zcol_name in Hc.
    rewrite string_length_append in Hc. cbn in Hc. lia.
Defined.

(** ** Recovering the object from a wrapped reply *)

Lemma list_ascii_app (s1 s2 : string) :
  list_ascii_of_string (s1 ++ s2) = list_ascii_of_string s1 ++ list_ascii_of_string s2.
Proof. induction s1 as [|a s1 IH]; simpl; congruence. Qed.

Lemma from_char_skip c (P S : list ascii) :
  (forall d, In d P -> d <> c) -> from_char c (P ++ S) = from_char c S.
Proof.
  induction P as [|d P IH]; intros H; [reflexivity|]. cbn [app from_char].
  replace ((d =? c)%char) with false by (symmetry; apply Ascii.eqb_neq; apply H; left; reflexivity).
  apply IH. intros d' Hd'. apply H. right. exact Hd'.
Qed.

Lemma drop_space_snoc l c :
  is_py_space c = false -> exists l', drop_space (l ++ [c]) = l' ++ [c].
Proof.
  intros Hc. induction l as [|d l IH]; cbn [app drop_space].
  - rewrite Hc. exists []. reflexivity.
  - destruct (is_py_space d); [exact IH|]. exists (d :: l). reflexivity.
Qed.

Lemma py_strip_head s c :
  hd_error (list_ascii_of_string s) = Some c -> is_py_space c = false ->
  exists r, list_ascii_of_string (py_strip s) = c :: r.
Proof.
  intros Hh Hc. unfold py_strip.
  destruct (list_ascii_of_string s) as [|c0 r] eqn:E; [discriminate Hh|].
  injection Hh as ->. cbn [drop_space]. rewrite Hc. cbn [rev].
  destruct (drop_space_snoc (rev r) c Hc) as (l' & ->).
  rewrite rev_app_distr. cbn [rev app]. rewrite list_ascii_of_string_of_list_ascii.
  eexists. reflexivity.
Qed.

Lemma letter_not_space c : ascii_letter c = true -> is_py_space c = false.
Proof.
  destruct c as [[] [] [] [] [] [] [] []]; vm_compute; congruence.
Qed.

(** [json.loads] reads no value from a text that starts with a letter
    other than those of [true], [false], [null], [NaN] and [Infinity]. *)
Lemma p_value_letter fuel c r :
  ascii_letter c = true -> ~ In c ["t"; "f"; "n"; "N"; "I"]%char ->
  p_value fuel (c :: r) = None.
Proof.
  intros Hl Hn. destruct fuel as [|f]; [reflexivity|].
  destruct c as [[] [] [] [] [] [] [] []];
    try (vm_compute in Hl; discriminate Hl);
    try (exfalso; apply Hn; cbn; tauto);
    reflexivity.
Qed.

Lemma json_loads_letter s c :
  hd_error (list_ascii_of_string s) = Some c ->
  ascii_letter c = true -> ~ In c ["t"; "f"; "n"; "N"; "I"]%char ->
  json_loads (py_strip s) = Err JSONDecodeError.
Proof.
  intros Hh Hl Hn. destruct (py_strip_head s c Hh (letter_not_space c Hl)) as (r & E).
  unfold json_loads. rewrite E. rewrite (p_value_letter _ c r Hl Hn). reflexivity.
Qed.

(** Extra: when the text starts with an ASCII letter other than [t], [f],
    [n], [N] and [I], the strict parse of the stripped text fails (in
    Python too: no JSON value starts there), and [_safe_parse_json] parses
    the span from the first [{] to the last [}]: for a text
    [pre ++ "{" ++ mid ++ "}" ++ post] where [pre] starts with such a
    letter and has no [{], and [post] has no [}], the result is that of
    parsing ["{" ++ mid ++ "}"], whatever [mid] holds. *)
Theorem safe_parse_recovers pre mid post c :
  hd_error (list_ascii_of_string pre) = Some c ->
  ascii_letter c = true -> ~ In c ["t"; "f"; "n"; "N"; "I"]%char ->
  (forall c, In c (list_ascii_of_string pre) -> c <> "{"%char) ->
  (forall c, In c (list_ascii_of_string post) -> c <> "}"%char) ->
  _safe_parse_json (pre ++ "{" ++ mid ++ "}" ++ post) = json_loads ("{" ++ mid ++ "}").
Proof.
  intros Hh Hl Hn Hpre Hpost. unfold _safe_parse_json.
  assert (Hh' : hd_error (list_ascii_of_string (pre ++ "{" ++ mid ++ "}" ++ post)) = Some c).
  { rewrite list_ascii_app. destruct (list_ascii_of_string pre); [discriminate Hh|exact Hh]. }
  rewrite (json_loads_letter _ c Hh' Hl Hn).
  unfold regex_object.
  rewrite list_ascii_app, from_char_skip by exact Hpre.
  cbn [list_ascii_of_string append from_char]. rewrite Ascii.eqb_refl.
  rewrite list_ascii_app. cbn [list_ascii_of_string].
  rewrite rev_app_distr. cbn [rev]. rewrite <- app_assoc. cbn [app].
  rewrite from_char_skip by (intros d Hd; apply Hpost; apply in_rev; exact Hd).
  cbn [from_char]. rewrite Ascii.eqb_refl. rewrite rev_involutive.
  f_equal. cbn [string_of_list_ascii]. f_equal.
  rewrite <- (string_of_list_ascii_of_string (mid ++ "}")). f_equal.
  rewrite list_ascii_app. reflexivity.
Qed.

Lemma safe_parse_recovers_witness :
  _safe_parse_json ("Sure! " ++ example_reply ++ " Done.") = json_loads example_reply.
Proof.
  set (mid := (jstr "preferences" ++ ": {" ++ jstr "beta" ++ ": {" ++ jstr "weight" ++ ": 1, "
               ++ jstr "direction" ++ ": " ++ jstr "negative" ++ "}}")%string).
  assert (E : example_reply = ("{" ++ mid ++ "}")%string) by (vm_compute; reflexivity).
  rewrite E.
  apply (safe_parse_recovers "Sure! " mid " Done." "S"%char eq_refl eq_refl).
  - cbn. intros H. repeat (destruct H as [H|H]; [discriminate H|]). exact H.
  - intros c Hc. cbn in Hc. repeat (destruct Hc as [<-|Hc]; [discriminate|]). destruct Hc.
  - intros c Hc. cbn in Hc. repeat (destruct Hc as [<-|Hc]; [discriminate|]). destruct Hc.
Defined.

(** ** The criteria slug and the export file name *)

Lemma sub_unsafe_runs_chars b s : forall c, In c (sub_unsafe_runs b s) -> slug_char c = true.
Proof.
  revert b. induction s as [|d s IH]; intros b c Hc; [destruct Hc|]. cbn [sub_unsafe_runs] in Hc.
  destruct (slug_char d) eqn:Ed; [destruct Hc as [<-|Hc]; [exact Ed|exact (IH _ _ Hc)]|].
  destruct b; [exact (IH _ _ Hc)|]. destruct Hc as [<-|Hc]; [reflexivity|exact (IH _ _ Hc)].
Qed.

Lemma sub_unsafe_runs_nonempty s : s <> [] -> sub_unsafe_runs false s <> [].
Proof. destruct s as [|d s]; [contradiction|]. cbn. destruct (slug_char d); discriminate. Qed.

Lemma length_string_of_list_ascii l : String.length (string_of_list_ascii l) = List.length l.
Proof. induction l as [|a l IH]; simpl; congruence. Qed.

(** Extra: every character of [_criteria_slug spec max_len] is a letter, a
    digit, [_], [.] or [-]; the slug is at most [max_len] characters long,
    and it is never empty when [max_len > 0]. *)
Theorem criteria_slug_safe (spec : prefs) max_len :
  (forall c, In c (list_ascii_of_string (_criteria_slug spec max_len)) -> slug_char c = true) /\
  (String.length (_criteria_slug spec max_len) <= max_len)%nat /\
  ((0 < max_len)%nat -> _criteria_slug spec max_len <> EmptyString).
Proof.
  unfold _criteria_slug.
  set (slug := String.concat "_" _).
  set (slug' := if String.eqb slug EmptyString then "criteria"%string else slug).
  rewrite list_ascii_of_string_of_list_ascii, length_string_of_list_ascii.
  split; [|split].
  - intros c Hc. apply in_firstn_in in Hc. exact (sub_unsafe_runs_chars _ _ _ Hc).
  - apply firstn_le_length.
  - intros Hm.
    assert (Hne : slug' <> EmptyString).
    { unfold slug'. destruct (String.eqb slug EmptyString) eqn:E; [discriminate|].
      apply String.eqb_neq in E. exact E. }
    assert (Hl : list_ascii_of_string slug' <> []) by (destruct slug'; [contradiction|discriminate]).
    apply sub_unsafe_runs_nonempty in Hl.
    destruct (sub_unsafe_runs false (list_ascii_of_string slug')) as [|a l]; [contradiction|].
    destruct max_len as [|k]; [lia|]. discriminate.
Qed.

Lemma digits_of_nat_chars fuel : forall n acc c,
  In c (digits_of_nat fuel n acc) -> In c acc \/ (48 <= nat_of_ascii c <= 57)%nat.
Proof.
  induction fuel as [|f IH]; intros n acc c H; [left; exact H|]. cbn [digits_of_nat] in H.
  assert (Hd : forall c', In c' (ascii_of_nat (48 + n mod 10) :: acc) ->
                          In c' acc \/ (48 <= nat_of_ascii c' <= 57)%nat).
  { intros c' [<-|Hc']; [right|left; exact Hc'].
    pose proof (Nat.mod_upper_bound n 10 ltac:(discriminate)).
    rewrite nat_ascii_embedding by lia. lia. }
  destruct (n <? 10)%nat; [exact (Hd c H)|].
  destruct (IH _ _ c H) as [H'|H']; [exact (Hd c H')|right; exact H'].
Qed.

Lemma string_of_nat_chars n c :
  In c (list_ascii_of_string (string_of_nat n)) -> (48 <= nat_of_ascii c <= 57)%nat.
Proof.
  unfold string_of_nat. rewrite list_ascii_of_string_of_list_ascii. intros H.
  destruct (digits_of_nat_chars _ _ _ _ H) as [[]|H']. exact H'.
Qed.




(** ** Affirmative replies in the shell *)

Lemma is_word_char_lower c : is_word_char (ascii_lower c) = is_word_char c.
Proof. destruct c as [[] [] [] [] [] [] [] []]; reflexivity. Qed.

Lemma ascii_lower_idem c : ascii_lower (ascii_lower c) = ascii_lower c.
Proof. destruct c as [[] [] [] [] [] [] [] []]; reflexivity. Qed.

Lemma ci_prefix_lower (W Q : list ascii) : ci_prefix (map ascii_lower W) (W ++ Q) = Some Q.
Proof.
  induction W as [|a W IH]; [reflexivity|]. cbn [map app ci_prefix].
  rewrite ascii_lower_idem, Ascii.eqb_refl. exact IH.
Qed.

Lemma last_char_map (f : ascii -> ascii) l : forall d,
  last_char (map f l) (option_map f d) = option_map f (last_char l d).
Proof.
  unfold last_char. induction l as [|a l IH]; intros d; [reflexivity|].
  cbn [map fold_left]. exact (IH (Some a)).
Qed.

Lemma last_char_indep (l : list ascii) d d' : l <> [] -> last_char l d = last_char l d'.
Proof. destruct l as [|a l]; [contradiction|]. intros _. reflexivity. Qed.

Lemma firstn_length_app {A} (l1 l2 : list A) : firstn (List.length l1) (l1 ++ l2) = l1.
Proof. induction l1 as [|a l1 IH]; [reflexivity|]. cbn. f_equal. exact IH. Qed.

(** [\b w \b] matches at a place where the text continues with [W ++ Q],
    [W] spells [w] in any letter case, [w] starts and ends with a word
    character, and neither the character before nor the one after is a
    word character. *)
Lemma match_word_at_intro prev (W Q w : list ascii) :
  w = map ascii_lower W -> word_at (hd_error w) = true -> word_at (last_char w None) = true ->
  word_at prev = false -> word_at (hd_error Q) = false ->
  match_word_at prev w (W ++ Q) = true.
Proof.
  intros Hw Hhd Hlast Hprev HQ. subst w.
  destruct W as [|a W']; [discriminate Hhd|].
  unfold match_word_at. rewrite ci_prefix_lower.
  rewrite length_map, firstn_length_app.
  cbn [hd_error app map word_at] in Hhd |- *. rewrite is_word_char_lower in Hhd.
  unfold word_boundary. rewrite Hprev, HQ.
  change (word_at (Some a)) with (is_word_char a). rewrite Hhd.
  rewrite <- (last_char_indep _ (option_map ascii_lower prev)) in Hlast by discriminate.
  change (ascii_lower a :: map ascii_lower W') with (map ascii_lower (a :: W')) in Hlast.
  rewrite last_char_map in Hlast.
  destruct (last_char (a :: W') prev) as [c|]; [|discriminate Hlast].
  cbn [option_map] in Hlast. change (word_at (Some (ascii_lower c))) with (is_word_char (ascii_lower c)) in Hlast.
  change (word_at (Some c)) with (is_word_char c).
  rewrite is_word_char_lower in Hlast. rewrite Hlast.
  reflexivity.
Qed.

Lemma re_search_words_here words prev s w :
  In w words -> match_word_at prev (list_ascii_of_string w) s = true ->
  re_search_words words prev s = true.
Proof.
  intros Hw Hm. destruct s; cbn [re_search_words]; apply orb_true_intro; left;
    apply existsb_exists; exists w; auto.
Qed.

Lemma re_search_words_app words prev (P s : list ascii) :
  re_search_words words (last_char P prev) s = true -> re_search_words words prev (P ++ s) = true.
Proof.
  revert prev. induction P as [|c P IH]; intros prev H; [exact H|].
  cbn [app re_search_words]. apply orb_true_intro. right. apply IH. exact H.
Qed.

Lemma affirm_words_ends w :
  In w AFFIRM_WORDS ->
  word_at (hd_error (list_ascii_of_string w)) = true /\
  word_at (last_char (list_ascii_of_string w) None) = true.
Proof.
  intros Hw. unfold AFFIRM_WORDS in Hw.
  repeat (destruct Hw as [<-|Hw]; [split; reflexivity|]). destruct Hw.
Qed.

Lemma affirmative_word_search pre W post w :
  In w AFFIRM_WORDS ->
  map ascii_lower (list_ascii_of_string W) = list_ascii_of_string w ->
  word_at (last_char (list_ascii_of_string pre) None) = false ->
  word_at (hd_error (list_ascii_of_string post)) = false ->
  is_affirmative (pre ++ W ++ post) = true.
Proof.
  intros Hw HW Hpre Hpost. unfold is_affirmative. rewrite !list_ascii_app.
  apply re_search_words_app. apply (re_search_words_here _ _ _ w Hw).
  destruct (affirm_words_ends w Hw) as [H1 H2].
  apply match_word_at_intro; auto.
Qed.

(** Extra: an ASCII message is affirmative when it contains one of the
    words of [AFFIRM_WORDS] in any letter case, as a whole word: preceded by
    the start of the text or a character that is not a letter, digit or
    [_], and followed by the end of the text or such a character. *)
Theorem affirmative_whole_word pre W post w :
  ascii_text (pre ++ W ++ post) = true ->
  In w AFFIRM_WORDS ->
  map ascii_lower (list_ascii_of_string W) = list_ascii_of_string w ->
  word_at (last_char (list_ascii_of_string pre) None) = false ->
  word_at (hd_error (list_ascii_of_string post)) = false ->
  is_affirmative (pre ++ W ++ post) = true.
Proof. intros _. exact (affirmative_word_search pre W post w). Qed.

Lemma affirmative_whole_word_witness :
  is_affirmative ("Looks right, " ++ "Go Ahead" ++ "!") = true.
Proof.
  exact (affirmative_whole_word "Looks right, " "Go Ahead" "!" "go ahead"
           eq_refl ltac:(cbn; tauto) eq_refl eq_refl eq_refl).
Defined.

(** Extra: after a ranking, an ASCII message with an affirmative word
    exports the stored ranking and answers with the export's message, or
    raises the export's exception; whatever the model would reply, no
    completion is used, nothing is ranked again, and the shell state stays
    as it was. *)
Theorem affirmative_exports qsqrt df api_key_set TOP_N_DEFAULT EXPORT_DIR o pre W post w st fs ranked :
  ascii_text (pre ++ W ++ post) = true ->
  In w AFFIRM_WORDS ->
  map ascii_lower (list_ascii_of_string W) = list_ascii_of_string w ->
  word_at (last_char (list_ascii_of_string pre) None) = false ->
  word_at (hd_error (list_ascii_of_string post)) = false ->
  last_ranked st = Some ranked ->
  handle_input qsqrt df api_key_set TOP_N_DEFAULT EXPORT_DIR o (pre ++ W ++ post) st fs
  = (m <- fst (_export_last_csv EXPORT_DIR (fun spec => _criteria_slug spec 80) st fs) ;;
     Ok (RText m), st,
     snd (_export_last_csv EXPORT_DIR (fun spec => _criteria_slug spec 80) st fs)).
Proof.
  intros _ Hw HW Hpre Hpost Hr. unfold handle_input.
  rewrite (affirmative_word_search pre W post w Hw HW Hpre Hpost), Hr. cbn [andb].
  destruct (_export_last_csv EXPORT_DIR (fun spec => _criteria_slug spec 80) st fs). reflexivity.
Qed.

Lemma affirmative_exports_witness :
  handle_input sqrt_of_square example_table true 20 "exports"
    (mkOracle (Ok "{}"%string) (Ok example_reply) (Ok "none"%string) (Ok tt) (Ok "ok"%string) (Ok "hi"%string)) ("" ++ "yes" ++ "")
              (mkShell (Some example_table) (Some (SSpec [("beta"%string, mkCfg 1 "negative")])) (Some 1%nat)) []
            = (Ok (RText "Saved CSV: exports/top1_beta-neg.csv"),
               mkShell (Some example_table) (Some (SSpec [("beta"%string, mkCfg 1 "negative")])) (Some 1%nat),
               to_csv "exports/top1_beta-neg.csv" (shown_view example_table 1) []).
Proof.
  rewrite (affirmative_exports sqrt_of_square example_table true 20 "exports"
             (mkOracle (Ok "{}"%string) (Ok example_reply) (Ok "none"%string) (Ok tt) (Ok "ok"%string) (Ok "hi"%string)) "" "yes" "" "yes"
             (mkShell (Some example_table) (Some (SSpec [("beta"%string, mkCfg 1 "negative")])) (Some 1%nat))
             [] example_table eq_refl ltac:(cbn; tauto) eq_refl eq_refl eq_refl eq_refl).
  vm_compute. reflexivity.
Defined.

(** ** The criteria lines of a sanitized spec *)

Lemma string_app_assoc (a b c : string) : ((a ++ b) ++ c)%string = (a ++ b ++ c)%string.
Proof. induction a as [|x a IH]; simpl; congruence. Qed.

Lemma py_rstrip_list s (l : list ascii) c :
  list_ascii_of_string s = l ++ [c; " "%char] -> is_py_space c = false ->
  py_rstrip s = string_of_list_ascii (l ++ [c]).
Proof.
  intros Hs Hc. unfold py_rstrip. rewrite Hs, rev_app_distr. cbn [rev app drop_space].
  replace (is_py_space " "%char) with true by reflexivity. cbn [drop_space]. rewrite Hc.
  cbn [rev]. rewrite rev_involutive. reflexivity.
Qed.

Lemma criteria_line_plain kv :
  direction (snd kv) = "positive"%string \/ direction (snd kv) = "negative"%string ->
  criteria_line kv = ("- " ++ fst kv ++ ": " ++ direction (snd kv))%string.
Proof.
  destruct kv as [col [w d]]. cbn [fst snd direction]. unfold criteria_line. cbn [snd direction fst].
  intros Hd.
  assert (Hd' : exists t c, list_ascii_of_string d = t ++ [c] /\ is_py_space c = false /\
                  String.eqb d "higher" = false /\ String.eqb d "lower" = false).
  { destruct Hd as [-> | ->];
      [exists (list_ascii_of_string "positiv"), "e"%char|exists (list_ascii_of_string "negativ"), "e"%char];
      repeat split. }
  destruct Hd' as (t & c & Ht & Hc & Hh & Hl).
  rewrite Hh, Hl. cbn [orb]. unfold _arrow. rewrite Hh, Hl.
  rewrite (py_rstrip_list _ (list_ascii_of_string ("- " ++ col ++ ": ") ++ t) c).
  - rewrite <- app_assoc, <- Ht, <- list_ascii_app.
    rewrite string_of_list_ascii_of_string. cbn [append]. f_equal.
    f_equal. apply string_app_assoc.
  - rewrite !list_ascii_app. cbn [list_ascii_of_string append app].
    rewrite Ht. rewrite <- !app_assoc. reflexivity.
  - exact Hc.
Qed.

(** Extra: for a spec that [prefs_from_text_llm] returns, the criteria block
    of the shell's ranking reply is one line ["- col: direction"] per entry,
    in spec order: the directions are [positive] or [negative], so the lines
    carry neither "prefers" nor an arrow, and no weight. *)
Theorem criteria_block_sanitized api_key_set resp df p :
  prefs_from_text_llm api_key_set resp df = Ok p -> p <> [] ->
  criteria_block p = String.concat newline (map (fun kv => ("- " ++ fst kv ++ ": " ++ direction (snd kv))%string) p).
Proof.
  intros H Hne. destruct (prefs_from_text_llm_ok _ _ _ _ H) as [_ Hall].
  unfold criteria_block.
  rewrite (map_ext_in criteria_line (fun kv => ("- " ++ fst kv ++ ": " ++ direction (snd kv))%string))
    by (intros kv Hkv; apply criteria_line_plain; apply Hall; exact Hkv).
  destruct p as [|kv p]; [contradiction|]. reflexivity.
Qed.

Lemma criteria_block_sanitized_witness :
  criteria_block [("beta"%string, mkCfg 1 "negative")] = "- beta: negative"%string.
Proof.
  exact (criteria_block_sanitized true (Ok example_reply) example_table
           [("beta"%string, mkCfg 1 "negative")] ltac:(vm_compute; reflexivity) ltac:(discriminate)).
Defined.

(** ** Files written by the shell *)

Lemma rank_from_csv_no_path_files qsqrt df api_key_set resp top_n sn fs :
  snd (rank_from_csv qsqrt df api_key_set resp top_n sn None fs) = fs.
Proof.
  unfold rank_from_csv.
  destruct (negb (has_col "ticker" df && has_col "name" df)); [reflexivity|].
  destruct (prefs_from_text_llm api_key_set resp df) as [[|kv l]|e]; try reflexivity.
  destruct (score_and_rank qsqrt df (kv :: l) sn) as [[ordered p']|e]; reflexivity.
Qed.

(** Extra: [handle_input] writes a file only in its export branch: when the
    message is an ASCII text that is not affirmative, or no ranking is
    stored, the files after the call are the files before it, whatever the
    model replies. *)
Theorem handle_input_files qsqrt df api_key_set TOP_N_DEFAULT EXPORT_DIR o user_input st fs :
  (ascii_text user_input = true /\ is_affirmative user_input = false) \/ last_ranked st = None ->
  snd (handle_input qsqrt df api_key_set TOP_N_DEFAULT EXPORT_DIR o user_input st fs) = fs.
Proof.
  intros H. unfold handle_input.
  replace (is_affirmative user_input && match last_ranked st with Some _ => true | None => false end)
    with false by (destruct H as [[_ ->] | ->]; [reflexivity|symmetry; apply andb_false_r]).
  destruct (match is_asking_for_list (intent_reply o) with Some true => true | _ => false end).
  - pose proof (rank_from_csv_no_path_files qsqrt df api_key_set (prefs_reply o)
                  (Nat.max TOP_N_DEFAULT 100) true fs) as Hf.
    destruct (rank_from_csv qsqrt df api_key_set (prefs_reply o) (Nat.max TOP_N_DEFAULT 100) true None fs)
      as [[[ranked spec]|e] fs']; exact Hf.
  - destruct (ticker_reply o) as [t|e]; [|reflexivity].
    destruct (extract_ticker t) as [ticker|]; [|reflexivity].
    destruct (String.eqb ticker EmptyString); reflexivity.
Qed.

Lemma handle_input_files_witness :
  snd (handle_input sqrt_of_square example_table true 20 "exports"%string
         (mkOracle (Ok "{}"%string) (Ok example_reply) (Ok "none"%string) (Ok tt) (Ok "ok"%string) (Ok "hi"%string))
         "rank by beta please"%string (mkShell None None None) []) = [].
Proof.
  exact (handle_input_files sqrt_of_square example_table true 20 "exports"%string
           (mkOracle (Ok "{}"%string) (Ok example_reply) (Ok "none"%string) (Ok tt) (Ok "ok"%string) (Ok "hi"%string))
           "rank by beta please"%string (mkShell None None None) [] (or_intror eq_refl)).
Defined.

(** ** The minimum of a fold *)

Lemma fold_min_in y0 ys : In (fold_left Qmin ys y0) (y0 :: ys).
Proof.
  revert y0. induction ys as [|y ys IH]; intros y0; [left; reflexivity|].
  cbn [fold_left]. destruct (IH (Qmin y0 y)) as [E|E].
  - rewrite <- E. unfold Qmin, GenericMinMax.gmin.
    destruct (Qcompare y0 y); [left|left|right; left]; reflexivity.
  - right; right; exact E.
Qed.

(** ** The size of the returned view *)

Lemma score_and_rank_rows qsqrt df (p : prefs) sn out p' :
  score_and_rank qsqrt df p sn = Ok (out, p') ->
  List.length (rows out) = List.length (rows df).
Proof.
  intros H. unfold score_and_rank in H.
  pose proof (neutralize_rows qsqrt sn (normalize_weights p) df) as Hn.
  destruct (neutralize qsqrt sn (normalize_weights p) df) as [work mapped]. cbn [fst] in Hn.
  destruct (score_loop mapped (mkLS work [] None) (normalize_weights p)) as [st|e] eqn:El;
    [|discriminate]. cbn [bind_r] in H.
  destruct (set_score_and_rank (ls_total st) (ls_work st)) as [w'|e] eqn:Ew; [|discriminate].
  cbn [bind_r] in H. injection H as Hout _. subst out.
  destruct (score_loop_keep mapped (normalize_weights p) "rank" (mkLS work [] None) st ltac:(intros kv _; discriminate) I El)
    as (_ & _ & Hl1 & Ht1). cbn [ls_work] in Hl1.
  destruct (set_score_and_rank_keep _ _ _ "ticker" Ht1 Ew ltac:(discriminate) ltac:(discriminate))
    as (_ & _ & Hl2).
  unfold order_table, project. cbn [rows]. rewrite length_map. unfold sort_values. cbn [rows].
  rewrite sort_by_length. lia.
Qed.

(** Extra: a successful [rank_from_csv] returns [min(top_n, n)] rows, [n]
    being the number of rows of the input table. *)
Theorem rank_from_csv_view_rows qsqrt df api_key_set resp top_n sn out_path fs view p fs' :
  rank_from_csv qsqrt df api_key_set resp top_n sn out_path fs = (Ok (view, p), fs') ->
  List.length (rows view) = Nat.min top_n (List.length (rows df)).
Proof.
  unfold rank_from_csv.
  destruct (negb (has_col "ticker" df && has_col "name" df)); [discriminate|].
  destruct (prefs_from_text_llm api_key_set resp df) as [[|kv l]|e]; try discriminate.
  destruct (score_and_rank qsqrt df (kv :: l) sn) as [[ordered p']|e] eqn:E; [|discriminate].
  intros H. injection H as <- _ _.
  pose proof (score_and_rank_rows _ _ _ _ _ _ E) as Hl.
  unfold head. cbn [rows]. rewrite length_firstn, Hl. reflexivity.
Qed.

Lemma rank_from_csv_view_rows_witness :
  exists view p fs', rank_from_csv sqrt_of_square example_table true (Ok example_reply) 1 false None []
                     = (Ok (view, p), fs') /\ List.length (rows view) = 1%nat.
Proof.
  destruct (rank_from_csv sqrt_of_square example_table true (Ok example_reply) 1 false None [])
    as [[[view p]|e] fs'] eqn:E; [|vm_compute in E; discriminate E].
  exists view, p, fs'. split; [reflexivity|]. exact (rank_from_csv_view_rows _ _ _ _ _ _ _ _ _ _ _ E).
Defined.

(** ** The file written by a ranking and by the shell's export *)

Lemma dict_get_notin {V : Type} k (d : list (string * V)) :
  ~ In k (map fst d) -> dict_get k d = None.
Proof.
  intros H. unfold dict_get.
  destruct (find (fun e => String.eqb (fst e) k) d) as [[k' v]|] eqn:E; [|reflexivity].
  apply find_some in E as [Hin Hk]. apply String.eqb_eq in Hk. cbn in Hk. subst k'.
  exfalso. apply H. apply in_map_iff. exists (k, v). auto.
Qed.

Lemma score_and_rank_spec qsqrt df (p : prefs) sn out p' :
  score_and_rank qsqrt df p sn = Ok (out, p') -> p' = normalize_weights p.
Proof.
  unfold score_and_rank.
  destruct (neutralize qsqrt sn (normalize_weights p) df) as [work mapped].
  destruct (score_loop mapped (mkLS work [] None) (normalize_weights p)) as [st|e]; [|discriminate].
  cbn [bind_r].
  destruct (set_score_and_rank (ls_total st) (ls_work st)) as [w'|e]; [|discriminate].
  cbn [bind_r]. intros H. injection H as _ <-. reflexivity.
Qed.

(** The spec a successful ranking returns names columns of the table. *)
Lemma rank_from_csv_spec_cols qsqrt df api_key_set resp top_n sn out_path fs view spec fs' :
  rank_from_csv qsqrt df api_key_set resp top_n sn out_path fs = (Ok (view, spec), fs') ->
  forall k, In k (map fst spec) -> In k (columns df).
Proof.
  unfold rank_from_csv.
  destruct (negb (has_col "ticker" df && has_col "name" df)); [discriminate|].
  destruct (prefs_from_text_llm api_key_set resp df) as [[|kv l]|e] eqn:Hp; try discriminate.
  destruct (score_and_rank qsqrt df (kv :: l) sn) as [[ordered p']|e] eqn:E; [|discriminate].
  intros H. injection H as _ <- _. apply score_and_rank_spec in E. subst p'.
  intros k Hk. unfold normalize_weights in Hk. rewrite map_map in Hk. cbn [fst] in Hk.
  apply in_map_iff in Hk as (kv' & <- & Hin).
  destruct (proj2 (prefs_from_text_llm_ok _ _ _ _ Hp) kv' Hin) as [Hc _].
  unfold numeric_cols in Hc. apply filter_In in Hc. exact (proj1 Hc).
Qed.

Lemma has_col_false c df : has_col c df = false -> ~ In c (columns df).
Proof.
  unfold has_col. intros H Hin.
  assert (E : existsb (String.eqb c) (columns df) = true).
  { apply existsb_exists. exists c. split; [exact Hin|apply String.eqb_refl]. }
  congruence.
Qed.




(** ** Doubles with overflow and NaN *)

Lemma round64_0 : round64 0 = 0.
Proof. reflexivity. Qed.

Lemma round64_pow2 l : (-1074 <= l)%Z -> round64 (pow2 l) == pow2 l.
Proof.
  intros Hl. unfold round64.
  assert (Hp := pow2_pos l).
  replace (Qltb 0 (pow2 l)) with true by (symmetry; apply Qltb_iff; exact Hp).
  unfold round_pos. apply round_at_pow2. unfold fexp.
  rewrite (flog2_unique (pow2 l) l); [lia|apply Qle_refl|apply pow2_lt; lia].
Qed.

Lemma round64_1 : round64 1 == 1.
Proof. exact (round64_pow2 0 ltac:(lia)). Qed.

Lemma pow2_double l : pow2 (l + 1) == 2 * pow2 l.
Proof. rewrite Z.add_comm, pow2_add. reflexivity. Qed.

Lemma round64_abs_le q l : (-1074 <= l)%Z -> Qabs q <= pow2 l -> Qabs (round64 q) <= pow2 l.
Proof.
  intros Hl Hq. apply Qabs_Qle_condition in Hq as [H1 H2].
  apply Qabs_Qle_condition.
  pose proof (round64_mono _ _ H1). pose proof (round64_mono _ _ H2).
  pose proof (round64_odd (pow2 l)). pose proof (round64_pow2 l Hl).
  split; lra.
Qed.

Lemma ofQ_fin q : Qabs q <= pow2 1023 -> ofQ q = Fin (round64 q).
Proof.
  intros Hq. pose proof (round64_abs_le q 1023 ltac:(lia) Hq) as Hr.
  apply Qabs_Qle_condition in Hr as [H1 H2].
  pose proof (pow2_lt 1023 1024 ltac:(lia)).
  unfold ofQ, ovf.
  destruct (Qle_bool (pow2 1024) (round64 q)) eqn:E1;
    [apply Qle_bool_iff in E1; lra|].
  destruct (Qle_bool (round64 q) (- pow2 1024)) eqn:E2;
    [apply Qle_bool_iff in E2; lra|].
  reflexivity.
Qed.

Lemma one_le_pow2_1023 : 1 <= pow2 1023.
Proof. exact (pow2_le 0 1023 ltac:(lia)). Qed.

Lemma ratio_fin u D : 0 <= u -> u <= D -> D <= pow2 1023 -> pow2 (-1074) <= D ->
  fdiv64 (ofQ u) (ofQ D) = Fin (round64 (round64 u / round64 D)) /\
  0 <= round64 (round64 u / round64 D) <= 1.
Proof.
  intros H0 H1 H2 H3.
  assert (Hp := pow2_pos (-1074)).
  rewrite (ofQ_fin u), (ofQ_fin D) by (apply Qabs_Qle_condition; lra).
  assert (HD : pow2 (-1074) <= round64 D).
  { pose proof (round64_mono _ _ H3). pose proof (round64_pow2 (-1074) ltac:(lia)). lra. }
  assert (Hu0 : 0 <= round64 u) by (pose proof (round64_mono _ _ H0) as H; rewrite round64_0 in H; exact H).
  assert (Hud : round64 u <= round64 D) by (apply round64_mono; exact H1).
  assert (Hr0 : 0 <= round64 u / round64 D) by (apply Qle_shift_div_l; lra).
  assert (Hr1 : round64 u / round64 D <= 1) by (apply Qle_shift_div_r; lra).
  cbn [fdiv64].
  destruct (Qeq_bool (round64 D) 0) eqn:E; [apply Qeq_bool_iff in E; lra|].
  pose proof one_le_pow2_1023.
  rewrite ofQ_fin by (apply Qabs_Qle_condition; lra).
  split; [reflexivity|].
  pose proof (round64_mono _ _ Hr0). pose proof (round64_mono _ _ Hr1).
  rewrite round64_0 in *. pose proof round64_1. lra.
Qed.

Lemma ratio_mono u1 u2 D : u1 <= u2 -> pow2 (-1074) <= D ->
  round64 (round64 u1 / round64 D) <= round64 (round64 u2 / round64 D).
Proof.
  intros H1 H2. apply round64_mono.
  assert (Hp := pow2_pos (-1074)).
  assert (HD : pow2 (-1074) <= round64 D).
  { pose proof (round64_mono _ _ H2). pose proof (round64_pow2 (-1074) ltac:(lia)). lra. }
  unfold Qdiv. apply Qmult_le_compat_r; [apply round64_mono; exact H1|].
  apply Qinv_le_0_compat. lra.
Qed.


Lemma bounded_cell_abs c a : bounded_cell c = true -> to_numeric c = Some a -> Qabs a <= pow2 1022.
Proof.
  destruct c as [q|z|s|]; cbn [bounded_cell to_numeric]; intros Hb Ha.
  - injection Ha as <-. apply Qle_bool_iff. exact Hb.
  - injection Ha as <-. apply Z.ltb_lt in Hb.
    assert (Hp : (2 ^ 62 <= 2 ^ 1022)%Z) by (apply Z.pow_le_mono_r; lia).
    rewrite pow2_nonneg by lia. apply Qabs_Qle_condition.
    rewrite <- inject_Z_opp, <- !Zle_Qle. lia.
  - rewrite Ha in Hb. apply Qle_bool_iff. exact Hb.
  - discriminate.
Qed.

Lemma to_numeric64_some c a : bounded_cell c = true -> to_numeric c = Some a ->
  to_numeric64 c = Fin (round64 a) /\ Qabs (round64 a) <= pow2 1022 /\ on_grid (round64 a).
Proof.
  intros Hb Ha. pose proof (bounded_cell_abs c a Hb Ha) as Hq.
  pose proof (pow2_le 1022 1023 ltac:(lia)).
  unfold to_numeric64. rewrite Ha. split; [apply ofQ_fin; lra|].
  split; [apply round64_abs_le; [lia|exact Hq]|apply on_grid_round64].
Qed.

Lemma to_numeric64_ok c : bounded_cell c = true -> to_numeric64 c = NaN \/ okv (to_numeric64 c).
Proof.
  intros Hb. destruct (to_numeric c) as [a|] eqn:Ha.
  - right. destruct (to_numeric64_some c a Hb Ha) as (-> & H1 & H2). exists (round64 a). auto.
  - left. unfold to_numeric64. rewrite Ha. destruct c as [| |s|]; try reflexivity.
    cbn [bounded_cell to_numeric] in Hb, Ha. rewrite Ha in Hb.
    destruct (inf_string s); [discriminate Hb|reflexivity].
Qed.

Lemma okv_neg v : okv v -> okv (fneg64 v).
Proof.
  intros (q & -> & H1 & H2). exists (- q). split; [reflexivity|].
  split; [rewrite Qabs_opp; exact H1|apply on_grid_opp; exact H2].
Qed.

Lemma present64_nil s : present64 s = [] -> forall v, In v s -> v = NaN.
Proof.
  intros H v Hv. destruct v; auto; exfalso;
    assert (Hi : In _ (present64 s)) by (apply filter_In; split; [exact Hv|reflexivity]);
    rewrite H in Hi; exact Hi.
Qed.

Lemma present64_all_nan s : (forall v, In v s -> v = NaN) -> present64 s = [].
Proof.
  induction s as [|v s IH]; intros H; [reflexivity|].
  cbn [present64 filter]. rewrite (H v (or_introl eq_refl)). cbn [is_nan negb].
  apply IH. intros w Hw. apply H. right. exact Hw.
Qed.

Lemma present64_fin xs : present64 (map Fin xs) = map Fin xs.
Proof. induction xs as [|x xs IH]; [reflexivity|]. cbn. f_equal. exact IH. Qed.

Lemma median64_ok s : (forall v, In v s -> v = NaN \/ okv v) ->
  (present64 s = [] /\ median64 s = NaN) \/ (present64 s <> [] /\ okv (median64 s)).
Proof.
  intros Hs.
  assert (Hv : forall v, In v (sort_by f64_le (present64 s)) -> okv v).
  { intros v Hin. apply (Permutation_in _ (Permutation_sym (sort_by_perm f64_le _))) in Hin.
    apply filter_In in Hin as [Hin Hn]. destruct (Hs v Hin) as [->|H]; [discriminate|exact H]. }
  unfold median64.
  pose proof (sort_by_length f64_le (present64 s)) as Hl.
  destruct (present64 s) as [|p ps] eqn:Hp; [left; split; reflexivity|right; split; [discriminate|]].
  set (v := sort_by f64_le (p :: ps)) in *.
  destruct (List.length v) as [|m] eqn:Hn; [cbn in Hl; discriminate|].
  assert (Hd : (S m / 2 < S m)%nat) by (apply Nat.div_lt; lia).
  destruct (Nat.even (S m)).
  - assert (Ha := Hv _ (nth_In v NaN (n := S m / 2 - 1) ltac:(lia))).
    assert (Hb := Hv _ (nth_In v NaN (n := S m / 2) ltac:(lia))).
    destruct Ha as (a & -> & Ha1 & Ha2). destruct Hb as (b & -> & Hb1 & Hb2).
    apply Qabs_Qle_condition in Ha1, Hb1.
    assert (E2 : pow2 1023 == 2 * pow2 1022) by exact (pow2_double 1022).
    pose proof (pow2_pos 1022).
    cbn [fadd64]. rewrite ofQ_fin by (apply Qabs_Qle_condition; lra).
    assert (Hr : Qabs (round64 (a + b)) <= pow2 1023)
      by (apply round64_abs_le; [lia|apply Qabs_Qle_condition; lra]).
    apply Qabs_Qle_condition in Hr.
    cbn [fdiv64]. replace (Qeq_bool 2 0) with false by reflexivity.
    assert (Hh : Qabs (round64 (a + b) / 2) <= pow2 1022).
    { apply Qabs_Qle_condition. unfold Qdiv.
      replace (/ 2) with (1 # 2) by reflexivity. lra. }
    rewrite ofQ_fin by (pose proof (pow2_le 1022 1023 ltac:(lia)); apply Qabs_Qle_condition;
                        apply Qabs_Qle_condition in Hh; lra).
    eexists. split; [reflexivity|]. split; [apply round64_abs_le; [lia|exact Hh]|apply on_grid_round64].
  - apply Hv, nth_In. lia.
Qed.

Lemma okv_list l : (forall v, In v l -> okv v) ->
  exists xs, l = map Fin xs /\ forall q, In q xs -> Qabs q <= pow2 1022 /\ on_grid q.
Proof.
  induction l as [|v l IH]; intros H; [exists []; split; [reflexivity|intros _ []]|].
  destruct (H v (or_introl eq_refl)) as (q & -> & Hq1 & Hq2).
  destruct IH as (xs & -> & Hxs); [intros w Hw; apply H; right; exact Hw|].
  exists (q :: xs). split; [reflexivity|]. intros q' [<-|Hq']; auto.
Qed.

Lemma fold_fmin_fin xs : forall m,
  fold_left (fun m y => if f64_lt y m then y else m) (map Fin xs) (Fin m) = Fin (fold_left Qmin xs m).
Proof.
  induction xs as [|y xs IH]; intros m; [reflexivity|].
  cbn [map fold_left]. rewrite <- IH. f_equal.
  cbn [f64_lt]. unfold Qltb, Qmin, GenericMinMax.gmin.
  destruct (Qcompare m y) eqn:E.
  - apply Qeq_alt in E. replace (Qle_bool m y) with true by (symmetry; apply Qle_bool_iff; rewrite E; apply Qle_refl).
    reflexivity.
  - apply Qlt_alt in E. replace (Qle_bool m y) with true by (symmetry; apply Qle_bool_iff; apply Qlt_le_weak; exact E).
    reflexivity.
  - apply Qgt_alt in E. destruct (Qle_bool m y) eqn:E'; [apply Qle_bool_iff in E'; exfalso; apply (Qlt_not_le _ _ E E')|].
    reflexivity.
Qed.

Lemma fold_fmax_fin xs : forall m,
  fold_left (fun m y => if f64_lt m y then y else m) (map Fin xs) (Fin m) = Fin (fold_left Qmax xs m).
Proof.
  induction xs as [|y xs IH]; intros m; [reflexivity|].
  cbn [map fold_left]. rewrite <- IH. f_equal.
  cbn [f64_lt]. unfold Qltb, Qmax, GenericMinMax.gmax.
  destruct (Qcompare m y) eqn:E.
  - apply Qeq_alt in E. replace (Qle_bool y m) with true by (symmetry; apply Qle_bool_iff; rewrite E; apply Qle_refl).
    reflexivity.
  - apply Qlt_alt in E. destruct (Qle_bool y m) eqn:E'; [apply Qle_bool_iff in E'; exfalso; apply (Qlt_not_le _ _ E E')|].
    reflexivity.
  - apply Qgt_alt in E. replace (Qle_bool y m) with true by (symmetry; apply Qle_bool_iff; apply Qlt_le_weak; exact E).
    reflexivity.
Qed.

Lemma nanmin64_cons x0 xs : nanmin64 (Fin x0 :: map Fin xs) = Fin (fold_left Qmin xs x0).
Proof. unfold nanmin64. change (Fin x0 :: map Fin xs) with (map Fin (x0 :: xs)). rewrite present64_fin. apply fold_fmin_fin. Qed.

Lemma nanmax64_cons x0 xs : nanmax64 (Fin x0 :: map Fin xs) = Fin (fold_left Qmax xs x0).
Proof. unfold nanmax64. change (Fin x0 :: map Fin xs) with (map Fin (x0 :: xs)). rewrite present64_fin. apply fold_fmax_fin. Qed.

Lemma nth_map_fin {B} (g : Q -> B) (L : list Q) i q d :
  nth i (map Fin L) NaN = Fin q -> nth i (map g L) d = g q /\ (i < List.length L)%nat.
Proof.
  intros H. destruct (Nat.lt_ge_cases i (List.length L)) as [Hi|Hi].
  - rewrite (nth_map' _ _ _ 0) in H by exact Hi. injection H as <-.
    split; [apply nth_map'; exact Hi|exact Hi].
  - rewrite nth_overflow in H by (rewrite length_map; exact Hi). discriminate.
Qed.

Lemma in_map_Fin q L : In (Fin q) (map Fin L) <-> In q L.
Proof.
  split; [|apply in_map]. intros H. apply in_map_iff in H as (q' & E & H). injection E as <-. exact H.
Qed.

Lemma round64_tiny D : pow2 (-1074) <= D -> 0 < round64 D.
Proof.
  intros H. apply Qlt_le_trans with (pow2 (-1074)); [apply pow2_pos|].
  rewrite <- (round64_pow2 (-1074)) by lia. apply round64_mono. exact H.
Qed.

(** The largest value of a non-constant series divides to exactly 1, the
    smallest to exactly 0. *)
Lemma ratio_top t D : t == D -> 0 < round64 D -> round64 (round64 t / round64 D) == 1.
Proof.
  intros E HD. rewrite (round64_resp t D E).
  apply (Qeq_trans _ (round64 1)); [|apply round64_1]. apply round64_resp.
  unfold Qdiv. apply Qmult_inv_r. intros E'. rewrite E' in HD. exact (Qlt_irrefl 0 HD).
Qed.

Lemma ratio_bottom t D : t == 0 -> round64 (round64 t / D) == 0.
Proof.
  intros E. rewrite (round64_resp t 0 E), round64_0.
  apply (Qeq_trans _ (round64 0)); [apply round64_resp; unfold Qdiv; apply Qmult_0_l|].
  rewrite round64_0. reflexivity.
Qed.

(** What the last lines of [_dirnorm] compute on the float path, once [x]
    holds only bounded doubles or only NaN. *)
Lemma dirnorm_tail64 (series : list cell) (x : list f64) :
  List.length x = List.length series -> x <> [] ->
  (forall v, In v x -> okv v) \/ (forall v, In v x -> v = NaN) ->
  exists out (h : Q -> Q),
    (match x with
     | [] => Err ValueError
     | _ =>
       let lo := nanmin64 x in
       let hi := nanmax64 x in
       if negb (is_finite lo) || negb (is_finite hi) || f64_eqb hi lo
       then Ok (map (fun _ => Fin (1 # 2)) series)
       else Ok (map (fun v => fdiv64 (fsub64 v lo) (fsub64 hi lo)) x)
     end) = Ok out /\
    List.length out = List.length series /\
    (forall v, In v out -> exists q, v = Fin q /\ 0 <= q <= 1) /\
    (forall a b, a <= b -> h a <= h b) /\
    (forall q1 q2, In (Fin q1) x -> In (Fin q2) x -> q1 < q2 ->
       forall q, In (Fin q) x ->
         ((forall q', In (Fin q') x -> q' <= q) -> h q == 1) /\
         ((forall q', In (Fin q') x -> q <= q') -> h q == 0)) /\
    (forall i q, nth i x NaN = Fin q -> nth i out NaN = Fin (h q)).
Proof.
  intros Hl Hne [Hok|Hnan].
  - destruct (okv_list x Hok) as (xs & -> & Hxs).
    destruct xs as [|x0 xs']; [contradiction|].
    cbn [map]. rewrite nanmin64_cons, nanmax64_cons.
    set (lo := fold_left Qmin xs' x0). set (hi := fold_left Qmax xs' x0).
    assert (Hlo : forall q, In q (x0 :: xs') -> lo <= q) by (intros q Hq; apply fold_min_le_cons; exact Hq).
    assert (Hhi : forall q, In q (x0 :: xs') -> q <= hi) by (intros q Hq; apply fold_max_ge_cons; exact Hq).
    assert (Hlh : lo <= hi) by (apply (Qle_trans _ x0); [apply Hlo|apply Hhi]; left; reflexivity).
    cbn [is_finite negb orb].
    destruct (f64_eqb (Fin hi) (Fin lo)) eqn:Eq.
    + eexists; exists (fun _ => 1 # 2). split; [reflexivity|].
      rewrite length_map. split; [reflexivity|]. split.
      { intros v Hv. apply in_map_iff in Hv as (? & <- & _). exists (1 # 2). split; [reflexivity|].
        split; discriminate. }
      split; [intros; apply Qle_refl|].
      split.
      { intros q1 q2 H1 H2 H12. exfalso.
        change (Fin x0 :: map Fin xs') with (map Fin (x0 :: xs')) in H1, H2.
        apply in_map_Fin in H1, H2.
        assert (Hhl : hi <= lo).
        { destruct (Qlt_le_dec lo hi) as [H|H]; [|exact H]. exfalso.
          unfold f64_eqb, f64_le, f64_lt in Eq. rewrite (proj2 (Qltb_iff lo hi) H) in Eq.
          discriminate Eq. }
        pose proof (Hlo q1 H1). pose proof (Hhi q2 H2). lra. }
      intros i q Hi. change (Fin x0 :: map Fin xs') with (map Fin (x0 :: xs')) in Hi.
      destruct (nth_map_fin (fun _ => tt) _ _ _ tt Hi) as [_ Hi'].
      rewrite (nth_map' _ _ _ CNaN); [reflexivity|]. rewrite length_map in Hl. rewrite <- Hl. exact Hi'.
    + assert (Hlt : lo < hi).
      { destruct (Qlt_le_dec lo hi) as [H|H]; [exact H|].
        exfalso. unfold f64_eqb, f64_le, f64_lt in Eq.
        rewrite (proj2 (Qltb_false lo hi) H), (proj2 (Qltb_false hi lo) Hlh) in Eq. discriminate. }
      assert (Hb : forall q, In q (x0 :: xs') -> - pow2 1022 <= q <= pow2 1022)
        by (intros q Hq; apply Qabs_Qle_condition, Hxs, Hq).
      assert (Hlo' := Hb lo (fold_min_in x0 xs')).
      assert (Hhi' := Hb hi (fold_max_in x0 xs')).
      assert (E2 : pow2 1023 == 2 * pow2 1022) by exact (pow2_double 1022).
      assert (Hgrid : pow2 (-1074) <= hi - lo).
      { apply on_grid_pos; [apply on_grid_sub|lra];
          apply Hxs; [apply fold_max_in|apply fold_min_in]. }
      set (h := fun q => round64 (round64 (q + - lo) / round64 (hi + - lo))).
      assert (Hmap : forall q, In q (x0 :: xs') ->
                fdiv64 (fsub64 (Fin q) (Fin lo)) (fsub64 (Fin hi) (Fin lo)) = Fin (h q) /\ 0 <= h q <= 1).
      { intros q Hq. apply ratio_fin.
        - pose proof (Hlo q Hq). lra.
        - pose proof (Hhi q Hq). lra.
        - lra.
        - exact Hgrid. }
      exists (map (fun q => Fin (h q)) (x0 :: xs')), h. split.
      { f_equal. change (Fin x0 :: map Fin xs') with (map Fin (x0 :: xs')).
        rewrite map_map.
        apply (map_ext_in (fun q => fdiv64 (fsub64 (Fin q) (Fin lo)) (fsub64 (Fin hi) (Fin lo)))
                          (fun q => Fin (h q)) (x0 :: xs')).
        intros q Hq. apply Hmap. exact Hq. }
      split; [rewrite length_map; rewrite length_map in Hl; exact Hl|]. split.
      { intros v Hv. apply in_map_iff in Hv as (q & <- & Hq). exists (h q). split; [reflexivity|].
        apply Hmap. exact Hq. }
      split; [intros a b Hab; apply ratio_mono; [lra|exact Hgrid]|].
      split.
      { intros _ _ _ _ _ q Hq.
        change (Fin x0 :: map Fin xs') with (map Fin (x0 :: xs')) in Hq |- *.
        apply in_map_Fin in Hq.
        assert (HR : 0 < round64 (hi + - lo)) by (apply round64_tiny; exact Hgrid).
        split; intros Hall; unfold h.
        - apply ratio_top; [|exact HR].
          assert (E : q == hi).
          { apply Qle_antisym; [apply Hhi, Hq|]. apply Hall, in_map_Fin, fold_max_in. }
          rewrite E. reflexivity.
        - apply ratio_bottom.
          assert (E : q == lo).
          { apply Qle_antisym; [apply Hall, in_map_Fin, fold_min_in|apply Hlo, Hq]. }
          rewrite E. ring. }
      intros i q Hi. change (Fin x0 :: map Fin xs') with (map Fin (x0 :: xs')) in Hi.
      exact (proj1 (nth_map_fin (fun q => Fin (h q)) _ _ _ NaN Hi)).
  - destruct x as [|v0 vr] eqn:Ex; [contradiction|]. rewrite <- Ex.
    assert (Hp : present64 x = []) by (apply present64_all_nan; rewrite Ex; exact Hnan).
    unfold nanmin64 at 1. rewrite Hp. cbn [is_finite negb orb].
    eexists; exists (fun _ => 1 # 2). split; [reflexivity|].
    rewrite length_map. split; [reflexivity|]. split.
    { intros v Hv. apply in_map_iff in Hv as (? & <- & _). exists (1 # 2). split; [reflexivity|].
      split; discriminate. }
    split; [intros; apply Qle_refl|].
    split; [intros q1 q2 H1; exfalso; rewrite Ex in H1; discriminate (Hnan _ H1)|].
    intros i q Hi. exfalso. rewrite <- Ex in Hnan.
    destruct (Nat.lt_ge_cases i (List.length x)) as [Hi'|Hi'].
    + rewrite (Hnan _ (nth_In x NaN Hi')) in Hi. discriminate.
    + rewrite nth_overflow in Hi by exact Hi'. discriminate.
Qed.

Lemma nth_some_lt (series : list cell) i a :
  to_numeric (nth i series CNaN) = Some a -> (i < List.length series)%nat.
Proof.
  intros H. destruct (Nat.lt_ge_cases i (List.length series)) as [Hi|Hi]; [exact Hi|].
  rewrite nth_overflow in H by exact Hi. discriminate.
Qed.

Lemma dirnorm_float64_spec series d : series <> [] -> forallb bounded_cell series = true ->
  exists out (f : Q -> Q), dirnorm_float64 series d = Ok out /\
    List.length out = List.length series /\
    (forall v, In v out -> exists q, v = Fin q /\ 0 <= q <= 1) /\
    (forall a b, a <= b -> if String.eqb d "negative" then f b <= f a else f a <= f b) /\
    ((forall c, In c series -> to_numeric c <> None) ->
     (exists b c, In (Some b) (map to_numeric series) /\ In (Some c) (map to_numeric series) /\
                  round64 b < round64 c) ->
     forall a, In (Some a) (map to_numeric series) ->
       ((forall b, In (Some b) (map to_numeric series) -> b <= a) ->
          f a == (if String.eqb d "negative" then 0 else 1)) /\
       ((forall b, In (Some b) (map to_numeric series) -> a <= b) ->
          f a == (if String.eqb d "negative" then 1 else 0))) /\
    (forall i a, to_numeric (nth i series CNaN) = Some a -> exists q, nth i out NaN = Fin q /\ q == f a).
Proof.
  intros Hne Hb. rewrite forallb_forall in Hb.
  set (s0 := map to_numeric64 series).
  assert (Hs0 : forall v, In v s0 -> v = NaN \/ okv v).
  { intros v Hv. apply in_map_iff in Hv as (c & <- & Hc). apply to_numeric64_ok, Hb, Hc. }
  set (med := median64 s0).
  set (s1 := map (fun v => if is_nan v then med else v) s0).
  set (x := if String.eqb d "negative" then map fneg64 s1 else s1).
  assert (Hxl : List.length x = List.length series)
    by (unfold x, s1, s0; destruct (String.eqb d "negative"); rewrite !length_map; reflexivity).
  assert (Hxne : x <> []) by (intros E; rewrite E in Hxl; destruct series; [contradiction|discriminate]).
  assert (Hcase : (forall v, In v x -> okv v) \/ (forall v, In v x -> v = NaN)).
  { destruct (median64_ok s0 Hs0) as [[Hp Hm]|[Hp Hm]].
    - right. pose proof (present64_nil s0 Hp) as Hn.
      assert (H1 : forall v, In v s1 -> v = NaN).
      { intros v Hv. unfold s1 in Hv. apply in_map_iff in Hv as (w & <- & Hw).
        rewrite (Hn w Hw). exact Hm. }
      unfold x. destruct (String.eqb d "negative"); [|exact H1].
      intros v Hv. apply in_map_iff in Hv as (w & <- & Hw). rewrite (H1 w Hw). reflexivity.
    - left. assert (H1 : forall v, In v s1 -> okv v).
      { intros v Hv. unfold s1 in Hv. apply in_map_iff in Hv as (w & <- & Hw).
        destruct (Hs0 w Hw) as [->|Hw']; [exact Hm|].
        destruct Hw' as (q & -> & Hq). exists q. auto. }
      unfold x. destruct (String.eqb d "negative"); [|exact H1].
      intros v Hv. apply in_map_iff in Hv as (w & <- & Hw). apply okv_neg, H1, Hw. }
  destruct (dirnorm_tail64 series x Hxl Hxne Hcase) as (out & h & E & Hol & Hin & Hmono & Hext & Hnth).
  exists out, (fun a => if String.eqb d "negative" then h (- round64 a) else h (round64 a)).
  split; [exact E|]. split; [exact Hol|]. split; [exact Hin|].
  split; [intros a b Hab; pose proof (round64_mono _ _ Hab);
          destruct (String.eqb d "negative"); apply Hmono; lra|].
  split.
  - intros Hnum (b & c & Hb1 & Hc1 & Hbc) a Ha.
    assert (Hmem0 : forall q, In (Fin q) s0 <->
                      exists a', In (Some a') (map to_numeric series) /\ q = round64 a').
    { intros q. unfold s0. split.
      - intros Hq. apply in_map_iff in Hq as (c0 & Ec & Hc0).
        destruct (to_numeric c0) as [a'|] eqn:Ea; [|exfalso; exact (Hnum c0 Hc0 Ea)].
        destruct (to_numeric64_some c0 a' (Hb c0 Hc0) Ea) as (Hv & _).
        rewrite Hv in Ec. injection Ec as <-. exists a'. split; [|reflexivity].
        rewrite <- Ea. apply in_map. exact Hc0.
      - intros (a' & Ha' & ->). apply in_map_iff in Ha' as (c0 & Ea & Hc0).
        destruct (to_numeric64_some c0 a' (Hb c0 Hc0) Ea) as (Hv & _).
        rewrite <- Hv. apply in_map. exact Hc0. }
    assert (Hs1 : s1 = s0).
    { unfold s1. rewrite <- (map_id s0) at 2. apply map_ext_in. intros v Hv.
      unfold s0 in Hv. apply in_map_iff in Hv as (c0 & <- & Hc0).
      destruct (to_numeric c0) as [a'|] eqn:Ea; [|exfalso; exact (Hnum c0 Hc0 Ea)].
      destruct (to_numeric64_some c0 a' (Hb c0 Hc0) Ea) as (Hv & _). rewrite Hv. reflexivity. }
    assert (Hmemx : forall q, In (Fin q) x <->
                      exists a', In (Some a') (map to_numeric series) /\
                        q = (if String.eqb d "negative" then - round64 a' else round64 a')).
    { intros q. unfold x. rewrite Hs1. destruct (String.eqb d "negative").
      - split.
        + intros Hq. apply in_map_iff in Hq as (w & Ew & Hw).
          destruct w as [r| |]; cbn [fneg64] in Ew; try discriminate.
          injection Ew as <-. destruct (proj1 (Hmem0 r) Hw) as (a' & Ha' & ->). exists a'. auto.
        + intros (a' & Ha' & ->). apply (in_map fneg64 _ (Fin (round64 a'))). apply Hmem0. eauto.
      - apply Hmem0. }
    revert Hmemx. cbv beta. destruct (String.eqb d "negative"); cbv beta iota; intros Hmemx.
    + assert (Hm : forall a', In (Some a') (map to_numeric series) -> In (Fin (- round64 a')) x)
        by (intros a' H'; apply Hmemx; exists a'; auto).
      assert (Hcb : - round64 c < - round64 b) by lra.
      destruct (Hext _ _ (Hm c Hc1) (Hm b Hb1) Hcb _ (Hm a Ha)) as [Htop Hbot].
      split; intros Hall; [apply Hbot|apply Htop]; intros q' Hq';
        destruct (proj1 (Hmemx q') Hq') as (a' & Ha' & ->); pose proof (Hall a' Ha') as Hle;
        pose proof (round64_mono _ _ Hle); lra.
    + assert (Hm : forall a', In (Some a') (map to_numeric series) -> In (Fin (round64 a')) x)
        by (intros a' H'; apply Hmemx; exists a'; auto).
      destruct (Hext _ _ (Hm b Hb1) (Hm c Hc1) Hbc _ (Hm a Ha)) as [Htop Hbot].
      split; intros Hall; [apply Htop|apply Hbot]; intros q' Hq';
        destruct (proj1 (Hmemx q') Hq') as (a' & Ha' & ->); pose proof (Hall a' Ha') as Hle;
        apply round64_mono; exact Hle.
  - intros i a Ha.
    pose proof (nth_some_lt _ _ _ Ha) as Hi.
    destruct (to_numeric64_some _ a (Hb _ (nth_In _ CNaN Hi)) Ha) as (Hv & _ & _).
    assert (Hs1 : nth i s1 NaN = Fin (round64 a)).
    { unfold s1. rewrite (nth_map' _ _ _ NaN) by (unfold s0; rewrite length_map; exact Hi).
      unfold s0. rewrite (nth_map' _ _ _ CNaN) by exact Hi. rewrite Hv. reflexivity. }
    eexists. split; [|reflexivity].
    unfold x in Hnth. destruct (String.eqb d "negative").
    + apply Hnth. rewrite (nth_map' _ _ _ NaN) by (unfold s1, s0; rewrite !length_map; exact Hi).
      rewrite Hs1. reflexivity.
    + apply Hnth. exact Hs1.
Qed.

Lemma wrap64_id z : (- 2 ^ 63 <= z < 2 ^ 63)%Z -> wrap64 z = z.
Proof.
  intros H. unfold wrap64.
  assert (E : (2 ^ 64 = 2 * 2 ^ 63)%Z) by reflexivity.
  rewrite Z.mod_small by lia. lia.
Qed.

Lemma zfold_min_spec l : forall a,
  (forall w, In w (a :: l) -> (fold_left Z.min l a <= w)%Z) /\ In (fold_left Z.min l a) (a :: l).
Proof.
  induction l as [|b l IH]; intros a; cbn [fold_left].
  - split; [intros w [<-|[]]; lia|left; reflexivity].
  - destruct (IH (Z.min a b)) as [H1 H2].
    assert (H0 := H1 _ (or_introl eq_refl)). split.
    + intros w [<-|[<-|Hw]]; [lia|lia|apply H1; right; exact Hw].
    + destruct H2 as [E|E]; [|right; right; exact E].
      rewrite <- E. destruct (Z.min_spec a b) as [[_ ->]|[_ ->]]; [left|right; left]; reflexivity.
Qed.

Lemma zfold_max_spec l : forall a,
  (forall w, In w (a :: l) -> (w <= fold_left Z.max l a)%Z) /\ In (fold_left Z.max l a) (a :: l).
Proof.
  induction l as [|b l IH]; intros a; cbn [fold_left].
  - split; [intros w [<-|[]]; lia|left; reflexivity].
  - destruct (IH (Z.max a b)) as [H1 H2].
    assert (H0 := H1 _ (or_introl eq_refl)). split.
    + intros w [<-|[<-|Hw]]; [lia|lia|apply H1; right; exact Hw].
    + destruct H2 as [E|E]; [|right; right; exact E].
      rewrite <- E. destruct (Z.max_spec a b) as [[_ ->]|[_ ->]]; [right; left|left]; reflexivity.
Qed.

Lemma inject_Z_sub a b : inject_Z (a - b) == inject_Z a - inject_Z b.
Proof. unfold Z.sub. rewrite inject_Z_plus, inject_Z_opp. reflexivity. Qed.

(** What the last lines of [_dirnorm] compute on the int64 path, for
    values below [2^62] in magnitude (no wrap-around). *)
Lemma int_tail64 (xz : list Z) : xz <> [] -> (forall y, In y xz -> (Z.abs y < 2 ^ 62)%Z) ->
  exists out (h : Q -> Q),
    (match xz with
     | [] => Err ValueError
     | v :: vs =>
       let lo := fold_left Z.min vs v in
       let hi := fold_left Z.max vs v in
       if Z.eqb hi lo then Ok (map (fun _ => Fin (1 # 2)) xz)
       else Ok (map (fun y => fdiv64 (i2f (wrap64 (y - lo))) (i2f (wrap64 (hi - lo)))) xz)
     end) = Ok out /\
    List.length out = List.length xz /\
    (forall v, In v out -> exists q, v = Fin q /\ 0 <= q <= 1) /\
    (forall a b, a <= b -> h a <= h b) /\
    (forall y1 y2, In y1 xz -> In y2 xz -> y1 <> y2 ->
       forall y, In y xz ->
         ((forall y', In y' xz -> (y' <= y)%Z) -> forall t, inject_Z y == t -> h t == 1) /\
         ((forall y', In y' xz -> (y <= y')%Z) -> forall t, inject_Z y == t -> h t == 0)) /\
    (forall i t, (i < List.length xz)%nat -> inject_Z (nth i xz 0%Z) == t ->
                 exists q, nth i out NaN = Fin q /\ q == h t).
Proof.
  intros Hne Hb. destruct xz as [|y0 ys]; [contradiction|].
  cbv beta iota zeta.
  destruct (zfold_min_spec ys y0) as [Hlo Hlo_in].
  destruct (zfold_max_spec ys y0) as [Hhi Hhi_in].
  set (lo := fold_left Z.min ys y0) in *. set (hi := fold_left Z.max ys y0) in *.
  assert (Hp62 : (2 ^ 62 <= 2 ^ 63)%Z) by (apply Z.pow_le_mono_r; lia).
  assert (E63 : (2 ^ 63 = 2 * 2 ^ 62)%Z) by reflexivity.
  assert (Hp63 : (2 ^ 63 <= 2 ^ 1023)%Z) by (apply Z.pow_le_mono_r; lia).
  assert (Blo := Hb lo Hlo_in). assert (Bhi := Hb hi Hhi_in).
  destruct (Z.eqb_spec hi lo) as [Heq|Hneq].
  - eexists; exists (fun _ => 1 # 2). split; [reflexivity|].
    rewrite length_map. split; [reflexivity|]. split.
    { intros v Hv. apply in_map_iff in Hv as (? & <- & _). exists (1 # 2). split; [reflexivity|].
      split; discriminate. }
    split; [intros; apply Qle_refl|].
    split.
    { intros y1 y2 H1 H2 H12. exfalso.
      pose proof (Hlo y1 H1). pose proof (Hhi y1 H1). pose proof (Hlo y2 H2). pose proof (Hhi y2 H2).
      lia. }
    intros i t Hi _. exists (1 # 2). split; [|reflexivity].
    rewrite (nth_map' _ _ _ 0%Z) by exact Hi. reflexivity.
  - assert (Hlt : (lo < hi)%Z) by (pose proof (Hlo y0 (or_introl eq_refl)); pose proof (Hhi y0 (or_introl eq_refl)); lia).
    set (R := round64 (inject_Z (hi - lo))).
    set (h := fun t => round64 (round64 (t - inject_Z lo) / R)).
    assert (HD : pow2 (-1074) <= inject_Z (hi - lo)).
    { apply (Qle_trans _ 1); [exact (pow2_le (-1074) 0 ltac:(lia))|].
      change 1 with (inject_Z 1). rewrite <- Zle_Qle. lia. }
    assert (Hg : forall y, In y (y0 :: ys) ->
              fdiv64 (i2f (wrap64 (y - lo))) (i2f (wrap64 (hi - lo)))
              = Fin (round64 (round64 (inject_Z (y - lo)) / R)) /\
              0 <= round64 (round64 (inject_Z (y - lo)) / R) <= 1).
    { intros y Hy. pose proof (Hlo y Hy). pose proof (Hhi y Hy). pose proof (Hb y Hy).
      rewrite !wrap64_id by lia. unfold i2f. apply ratio_fin.
      - change 0 with (inject_Z 0). rewrite <- Zle_Qle. lia.
      - rewrite <- Zle_Qle. lia.
      - rewrite pow2_nonneg by lia. rewrite <- Zle_Qle. lia.
      - exact HD. }
    exists (map (fun y => Fin (round64 (round64 (inject_Z (y - lo)) / R))) (y0 :: ys)), h.
    split; [f_equal; apply map_ext_in; intros y Hy; apply Hg, Hy|].
    rewrite length_map. split; [reflexivity|]. split.
    { intros v Hv. apply in_map_iff in Hv as (y & <- & Hy). eexists. split; [reflexivity|].
      apply Hg, Hy. }
    split; [intros a b Hab; apply ratio_mono; [lra|exact HD]|].
    split.
    { intros _ _ _ _ _ y Hy. pose proof (Hlo y Hy). pose proof (Hhi y Hy).
      split; intros Hall t Ht; unfold h.
      - pose proof (Hall hi Hhi_in). assert (Ey : y = hi) by lia. subst y.
        apply ratio_top; [|apply round64_tiny; exact HD].
        rewrite <- Ht, inject_Z_sub. reflexivity.
      - pose proof (Hall lo Hlo_in). assert (Ey : y = lo) by lia. subst y.
        apply ratio_bottom. rewrite <- Ht. ring. }
    intros i t Hi Ht. eexists. split; [rewrite (nth_map' _ _ _ 0%Z) by exact Hi; reflexivity|].
    unfold h. apply round64_resp. unfold Qdiv. apply Qmult_comp; [|reflexivity].
    apply round64_resp. rewrite inject_Z_sub, Ht. reflexivity.
Qed.

Lemma dirnorm_int64_spec zs d : zs <> [] -> (forall z, In z zs -> (Z.abs z < 2 ^ 62)%Z) ->
  exists out (f : Q -> Q), dirnorm_int64 zs d = Ok out /\
    List.length out = List.length zs /\
    (forall v, In v out -> exists q, v = Fin q /\ 0 <= q <= 1) /\
    (forall a b, a <= b -> if String.eqb d "negative" then f b <= f a else f a <= f b) /\
    (forall b c, In b zs -> In c zs -> b <> c ->
       forall a, In a zs ->
         ((forall b, In b zs -> (b <= a)%Z) -> f (inject_Z a) == (if String.eqb d "negative" then 0 else 1)) /\
         ((forall b, In b zs -> (a <= b)%Z) -> f (inject_Z a) == (if String.eqb d "negative" then 1 else 0))) /\
    (forall i, (i < List.length zs)%nat ->
       exists q, nth i out NaN = Fin q /\ q == f (inject_Z (nth i zs 0%Z))).
Proof.
  intros Hne Hb.
  assert (Hp : (2 ^ 62 <= 2 ^ 63)%Z) by (apply Z.pow_le_mono_r; lia).
  set (xz := if String.eqb d "negative" then map (fun z => wrap64 (- z)) zs else zs).
  assert (Exz : xz = if String.eqb d "negative" then map Z.opp zs else zs).
  { unfold xz. destruct (String.eqb d "negative"); [|reflexivity].
    apply map_ext_in. intros z Hz. pose proof (Hb z Hz). apply wrap64_id. lia. }
  assert (Hxl : List.length xz = List.length zs)
    by (rewrite Exz; destruct (String.eqb d "negative"); [apply length_map|reflexivity]).
  assert (Hxne : xz <> []) by (intros E; rewrite E in Hxl; destruct zs; [contradiction|discriminate]).
  assert (Hxb : forall y, In y xz -> (Z.abs y < 2 ^ 62)%Z).
  { rewrite Exz. destruct (String.eqb d "negative"); [|exact Hb].
    intros y Hy. apply in_map_iff in Hy as (z & <- & Hz). rewrite Z.abs_opp. apply Hb, Hz. }
  destruct (int_tail64 xz Hxne Hxb) as (out & h & E & Hol & Hin & Hmono & Hext & Hnth).
  exists out, (fun t => if String.eqb d "negative" then h (- t) else h t).
  split; [exact E|]. split; [rewrite Hol; exact Hxl|]. split; [exact Hin|].
  split; [intros a b Hab; destruct (String.eqb d "negative"); apply Hmono; lra|].
  split.
  - intros b c Hb1 Hc1 Hbc a Ha. rewrite Exz in Hext. cbv beta.
    destruct (String.eqb d "negative"); cbv beta iota.
    + destruct (Hext (- b)%Z (- c)%Z (in_map _ _ _ Hb1) (in_map _ _ _ Hc1) ltac:(lia)
                (- a)%Z (in_map _ _ _ Ha)) as [Htop Hbot].
      split; intros Hall; [apply Hbot|apply Htop]; try (rewrite inject_Z_opp; reflexivity);
        intros y' Hy'; apply in_map_iff in Hy' as (z & <- & Hz); pose proof (Hall z Hz); lia.
    + destruct (Hext b c Hb1 Hc1 Hbc a Ha) as [Htop Hbot].
      split; intros Hall; [apply Htop|apply Hbot]; auto; reflexivity.
  - intros i Hi. assert (Hi' : (i < List.length xz)%nat) by (rewrite Hxl; exact Hi).
    destruct (String.eqb d "negative") eqn:Ed.
    + apply (Hnth i _ Hi'). rewrite Exz; try rewrite Ed.
      rewrite (nth_map' _ _ _ 0%Z) by exact Hi. rewrite inject_Z_opp. reflexivity.
    + apply (Hnth i _ Hi'). rewrite Exz; try rewrite Ed. reflexivity.
Qed.

Lemma int_col_spec s zs : int_col s = Some zs -> s = map CInt zs.
Proof.
  revert zs. induction s as [|c s IH]; intros zs H; [injection H as <-; reflexivity|].
  destruct c as [| z | |]; cbn [int_col] in H; try discriminate.
  destruct (int_col s) as [zs'|] eqn:E; [|discriminate].
  injection H as <-. cbn [map]. f_equal. apply IH. reflexivity.
Qed.

Lemma dirnorm64_spec series d : series <> [] -> forallb bounded_cell series = true ->
  exists out (f : Q -> Q), _dirnorm64 series d = Ok out /\
    List.length out = List.length series /\
    (forall v, In v out -> exists q, v = Fin q /\ 0 <= q <= 1) /\
    (forall a b, a <= b -> if String.eqb d "negative" then f b <= f a else f a <= f b) /\
    ((forall c, In c series -> to_numeric c <> None) ->
     (exists b c, In (Some b) (map to_numeric series) /\ In (Some c) (map to_numeric series) /\
                  round64 b < round64 c) ->
     forall a, In (Some a) (map to_numeric series) ->
       ((forall b, In (Some b) (map to_numeric series) -> b <= a) ->
          f a == (if String.eqb d "negative" then 0 else 1)) /\
       ((forall b, In (Some b) (map to_numeric series) -> a <= b) ->
          f a == (if String.eqb d "negative" then 1 else 0))) /\
    (forall i a, to_numeric (nth i series CNaN) = Some a -> exists q, nth i out NaN = Fin q /\ q == f a).
Proof.
  intros Hne Hb. unfold _dirnorm64.
  destruct (int_col series) as [[|z zs]|] eqn:Ei; try (apply dirnorm_float64_spec; assumption).
  apply int_col_spec in Ei. rewrite Ei in Hb |- *.
  assert (Hz : forall y, In y (z :: zs) -> (Z.abs y < 2 ^ 62)%Z).
  { intros y Hy. rewrite forallb_forall in Hb. apply Z.ltb_lt.
    exact (Hb (CInt y) (in_map CInt _ _ Hy)). }
  destruct (dirnorm_int64_spec (z :: zs) d ltac:(discriminate) Hz)
    as (out & f & E & Hol & Hin & Hmono & Hext & Hnth).
  exists out, f. rewrite length_map.
  split; [exact E|]. split; [exact Hol|]. split; [exact Hin|]. split; [exact Hmono|].
  assert (Hmi : forall a, In (Some a) (map to_numeric (map CInt (z :: zs))) <->
                          exists y, In y (z :: zs) /\ a = inject_Z y).
  { intros a. rewrite map_map. split.
    - intros Ha. apply in_map_iff in Ha as (y & Ey & Hy). injection Ey as <-. eauto.
    - intros (y & Hy & ->). apply (in_map (fun c => to_numeric (CInt c))). exact Hy. }
  split.
  { intros _ (b & c & Hb1 & Hc1 & Hbc) a Ha.
    destruct (proj1 (Hmi b) Hb1) as (yb & Hyb & ->).
    destruct (proj1 (Hmi c) Hc1) as (yc & Hyc & ->).
    destruct (proj1 (Hmi a) Ha) as (ya & Hya & ->).
    assert (Hne' : yb <> yc) by (intros <-; exact (Qlt_irrefl _ Hbc)).
    destruct (Hext yb yc Hyb Hyc Hne' ya Hya) as [Htop Hbot].
    split; intros Hall; [apply Htop|apply Hbot]; intros y' Hy'; rewrite Zle_Qle; apply Hall;
      apply Hmi; eauto. }
  intros i a Ha. pose proof (nth_some_lt _ _ _ Ha) as Hi. rewrite length_map in Hi.
  rewrite (nth_map' _ _ _ 0%Z) in Ha by exact Hi. cbn [to_numeric] in Ha. injection Ha as <-.
  apply Hnth. exact Hi.
Qed.

Lemma f64_le_fin a b : a <= b -> f64_le (Fin a) (Fin b) = true.
Proof. intros H. unfold f64_le, f64_lt. rewrite (proj2 (Qltb_false b a) H). reflexivity. Qed.




Lemma ofQ_zero q : q == 0 -> ofQ q = Fin 0.
Proof.
  intros H. unfold ofQ.
  replace (round64 q) with 0; [reflexivity|].
  unfold round64. rewrite (proj2 (Qltb_false 0 q)) by lra.
  rewrite (proj2 (Qltb_false q 0)) by lra. reflexivity.
Qed.

Lemma neumaier_zero q : q == 0 -> neumaier_add (Fin 0, Fin 0) (Fin q) = (Fin 0, Fin 0).
Proof.
  intros H. unfold neumaier_add.
  assert (E : fadd64 (Fin 0) (Fin q) = Fin 0) by (apply ofQ_zero; lra).
  rewrite E.
  assert (E0 : fadd64 (Fin 0) (Fin 0) = Fin 0) by (apply ofQ_zero; lra).
  assert (E1 : fsub64 (Fin 0) (Fin 0) = Fin 0) by (apply ofQ_zero; lra).
  assert (E2 : fsub64 (Fin q) (Fin 0) = Fin 0) by (apply ofQ_zero; lra).
  destruct (f64_le _ _); [rewrite E1, E, E0|rewrite E2, E0, E0]; reflexivity.
Qed.

Lemma py_sum64_zeros l : (forall v, In v l -> is_zero64 v = true) -> py_sum64 l = Fin 0.
Proof.
  intros H. destruct l as [|x xs]; [reflexivity|]. cbn [py_sum64].
  assert (Hz : forall v, In v (x :: xs) -> exists q, v = Fin q /\ q == 0).
  { intros v Hv. specialize (H v Hv). destruct v as [q| |]; try discriminate.
    exists q. split; [reflexivity|]. apply Qeq_bool_iff, H. }
  destruct (Hz x (or_introl eq_refl)) as (q & -> & Hq).
  replace (fadd64 (Fin 0) (Fin q)) with (Fin 0) by (symmetry; apply ofQ_zero; lra).
  assert (Hf : fold_left neumaier_add xs (Fin 0, Fin 0) = (Fin 0, Fin 0)).
  { assert (Hxs : forall v, In v xs -> exists q, v = Fin q /\ q == 0) by (intros v Hv; apply Hz; right; exact Hv).
    clear - Hxs. induction xs as [|y xs IH]; [reflexivity|]. cbn [fold_left].
    destruct (Hxs y (or_introl eq_refl)) as (q & -> & Hq). rewrite neumaier_zero by exact Hq.
    apply IH. intros v Hv. apply Hxs. right. exact Hv. }
  rewrite Hf. reflexivity.
Qed.

Lemma total_w64_zero (p : prefs64) :
  (forall kv, In kv p -> is_zero64 (weight64 (snd kv)) = true) -> total_w64 p = Fin 1.
Proof.
  intros H. unfold total_w64. rewrite py_sum64_zeros; [reflexivity|].
  intros v Hv. apply in_map_iff in Hv as (kv & <- & Hkv). apply H, Hkv.
Qed.

Lemma normalize_weights64_zero (p : prefs64) :
  (forall kv, In kv p -> is_zero64 (weight64 (snd kv)) = true) ->
  forall kv, In kv (normalize_weights64 p) -> weight64 (snd kv) = Fin 0.
Proof.
  intros H kv Hkv. unfold normalize_weights64 in Hkv. rewrite (total_w64_zero p H) in Hkv.
  apply in_map_iff in Hkv as (kv0 & <- & H0). cbn [snd weight64].
  specialize (H kv0 H0). destruct (weight64 (snd kv0)) as [q| |]; try discriminate.
  apply Qeq_bool_iff in H. cbn [fdiv64]. replace (Qeq_bool 1 0) with false by reflexivity.
  apply ofQ_zero. rewrite H. reflexivity.
Qed.

(** Bounded cells in a table. *)
Lemma bounded_get r c : forallb (fun kv => bounded_cell (snd kv)) r = true -> bounded_cell (get c r) = true.
Proof.
  intros H. rewrite forallb_forall in H. unfold get, lookup.
  destruct (find (fun kv => String.eqb (fst kv) c) r) as [[k v]|] eqn:E; [|reflexivity].
  apply find_some in E as [E _]. exact (H _ E).
Qed.

Lemma bounded_assoc_set c v r :
  forallb (fun kv => bounded_cell (snd kv)) r = true -> bounded_cell v = true ->
  forallb (fun kv => bounded_cell (snd kv)) (assoc_set c v r) = true.
Proof.
  intros Hr Hv. induction r as [|[k w] r IH]; cbn [assoc_set forallb snd] in *; [rewrite Hv; reflexivity|].
  apply andb_true_iff in Hr as [Hw Hr].
  destruct (String.eqb k c); cbn [forallb snd]; rewrite ?Hv, ?Hw; [exact Hr|apply IH; exact Hr].
Qed.

Lemma table_bounded_set_col c vals w :
  table_bounded w = true -> (forall v, In v vals -> bounded_cell v = true) ->
  table_bounded (set_col c vals w) = true.
Proof.
  intros Hw Hv. unfold table_bounded in *. rewrite forallb_forall in *.
  intros r Hr. apply in_set_col_rows in Hr as (r0 & v & Hr0 & Hv0 & ->).
  apply bounded_assoc_set; [apply Hw, Hr0|apply Hv, Hv0].
Qed.

Lemma table_bounded_col c w :
  table_bounded w = true -> forallb bounded_cell (get_col c w) = true.
Proof.
  intros Hw. unfold table_bounded in Hw. rewrite forallb_forall in Hw |- *.
  intros x Hx. unfold get_col in Hx. apply in_map_iff in Hx as (r & <- & Hr).
  apply bounded_get, Hw, Hr.
Qed.

Lemma bounded_cell_of_f64 v : bounded_f64 v = true -> bounded_cell (cell_of_f64 v) = true.
Proof. destruct v as [q| |]; cbn; auto. discriminate. Qed.

Section Zero64.

Variable sz : list cell -> list cell -> list f64.
Hypothesis sz_shape : forall sectors col,
  List.length (sz sectors col) = List.length col /\ forallb bounded_f64 (sz sectors col) = true.

Lemma neutralize64_fold (p : prefs64) : forall w m,
  table_bounded w = true ->
  table_bounded (fst (fold_left (neutralize_step64 sz) p (w, m))) = true /\
  List.length (rows (fst (fold_left (neutralize_step64 sz) p (w, m)))) = List.length (rows w).
Proof.
  induction p as [|kv p IH]; intros w m Hw; [auto|].
  cbn [fold_left].
  assert (E : neutralize_step64 sz (w, m) kv =
              if has_col (fst kv) w
              then (set_col (zcol_name (fst kv))
                            (map cell_of_f64 (sz (get_col "sector" w) (get_col (fst kv) w))) w,
                    m ++ [(fst kv, zcol_name (fst kv))])
              else (w, m)) by reflexivity.
  rewrite E. destruct (has_col (fst kv) w); [|apply IH; exact Hw].
  destruct (sz_shape (get_col "sector" w) (get_col (fst kv) w)) as [Hl Hb].
  destruct (IH (set_col (zcol_name (fst kv)) (map cell_of_f64 (sz (get_col "sector" w) (get_col (fst kv) w))) w)
               (m ++ [(fst kv, zcol_name (fst kv))])) as [H1 H2].
  - apply table_bounded_set_col; [exact Hw|]. intros v Hv. apply in_map_iff in Hv as (x & <- & Hx).
    apply bounded_cell_of_f64. rewrite forallb_forall in Hb. apply Hb, Hx.
  - split; [exact H1|]. rewrite H2. apply set_col_rows_length.
    rewrite length_map, Hl. unfold get_col. rewrite length_map. lia.
Qed.

Lemma neutralize64_shape sn (p : prefs64) df :
  table_bounded df = true ->
  table_bounded (fst (neutralize64 sz sn p df)) = true /\
  List.length (rows (fst (neutralize64 sz sn p df))) = List.length (rows df).
Proof.
  intros Hd. unfold neutralize64.
  destruct (sn && has_col "sector" df); [|auto].
  pose proof (neutralize64_fold p df [] Hd) as H.
  destruct (fold_left (neutralize_step64 sz) p (df, [])) as [w m]. exact H.
Qed.

End Zero64.


Lemma score_step64_zero mapped st col cfg n :
  weight64 cfg = Fin 0 -> table_bounded (ls_work64 st) = true ->
  List.length (rows (ls_work64 st)) = S n -> zero_total64 (S n) (ls_total64 st) ->
  exists st', score_step64 mapped st (col, cfg) = Ok st' /\ table_bounded (ls_work64 st') = true /\
    List.length (rows (ls_work64 st')) = S n /\ zero_total64 (S n) (ls_total64 st').
Proof.
  intros Hw Hb Hl Ht. unfold score_step64.
  destruct (has_col (lookup_mapped mapped col) (ls_work64 st)) eqn:Hc; cbn [negb];
    [|exists st; auto].
  set (series := get_col (lookup_mapped mapped col) (ls_work64 st)).
  assert (Hls : List.length series = S n) by (unfold series, get_col; rewrite length_map; exact Hl).
  assert (Hne : series <> []) by (intros E; rewrite E in Hls; discriminate).
  destruct (dirnorm64_spec series (direction64 cfg) Hne (table_bounded_col _ _ Hb))
    as (comp & _ & Hd & Hcl & Hin & _ & _).
  rewrite Hd. cbn [bind_r]. eexists. split; [reflexivity|]. rewrite Hw.
  assert (Hsc : forall v, In v (map (fun c => fmul64 c (Fin 0)) comp) -> v = Fin 0).
  { intros v Hv. apply in_map_iff in Hv as (c & <- & Hc'). destruct (Hin c Hc') as (q & -> & _).
    apply ofQ_zero. lra. }
  assert (Hscl : List.length (map (fun c => fmul64 c (Fin 0)) comp) = S n) by (rewrite length_map; lia).
  split; [|split].
  - cbn [ls_work64]. apply table_bounded_set_col; [exact Hb|].
    intros v Hv. apply in_map_iff in Hv as (c & <- & Hc'). destruct (Hin c Hc') as (q & -> & Hq).
    cbn [bounded_cell cell_of_f64 cell_of_opt opt_of_f64 to_numeric].
    apply Qle_bool_iff. apply Qabs_Qle_condition.
    pose proof (pow2_le 0 1022 ltac:(lia)) as H. change (pow2 0) with 1 in H. lra.
  - cbn [ls_work64]. rewrite set_col_rows_length; [exact Hl|]. rewrite length_map. lia.
  - cbn [ls_total64 zero_total64]. destruct (ls_total64 st) as [t|]; [|split; [exact Hscl|exact Hsc]].
    destruct Ht as [Htl Htz]. split.
    + rewrite length_map, length_combine, Htl, Hscl. lia.
    + intros v Hv. apply in_map_iff in Hv as ([a b] & <- & Hab). cbn [fst snd].
      rewrite (Htz a (in_combine_l _ _ _ _ Hab)), (Hsc b (in_combine_r _ _ _ _ Hab)).
      apply ofQ_zero. lra.
Qed.

Lemma score_loop64_zero mapped (p : prefs64) : forall st n,
  (forall kv, In kv p -> weight64 (snd kv) = Fin 0) -> table_bounded (ls_work64 st) = true ->
  List.length (rows (ls_work64 st)) = S n -> zero_total64 (S n) (ls_total64 st) ->
  exists st', score_loop64 mapped st p = Ok st' /\
    List.length (rows (ls_work64 st')) = S n /\ zero_total64 (S n) (ls_total64 st').
Proof.
  induction p as [|[col cfg] p IH]; intros st n Hw Hb Hl Ht; [exists st; auto|].
  cbn [score_loop64].
  destruct (score_step64_zero mapped st col cfg n (Hw (col, cfg) (or_introl eq_refl)) Hb Hl Ht)
    as (st1 & E & Hb1 & Hl1 & Ht1).
  rewrite E. cbn [bind_r]. apply IH; auto.
  intros kv Hkv. apply Hw. right. exact Hkv.
Qed.

Lemma zero_total64_map n t : zero_total64 n t -> zero_total n (option_map (map opt_of_f64) t).
Proof.
  destruct t as [t|]; cbn; [|auto]. intros [Hl Hz]. rewrite length_map. split; [exact Hl|].
  intros o Ho. apply in_map_iff in Ho as (v & <- & Hv). rewrite (Hz v Hv). exists 0. split; reflexivity.
Qed.




(** ** The extremes of [_dirnorm] on doubles *)


